(** * The NachOS multilevel feedback-queue scheduler (threads/scheduler.cc)

    A shallow embedding of [Scheduler::ReadyToRun], [Scheduler::aging],
    [Scheduler::FindNextToRun], [Scheduler::Run] and
    [Scheduler::CheckToBeDestroyed], together with the two comparison
    functions [cmpPriority] and [cmpPredict].

    [Thread*] values are addresses into a store of live [Thread] objects;
    the three ready queues hold addresses, so that a field written through
    one pointer is seen through every other copy of it.  The routines run
    in a state-and-error monad over the kernel state: an [ASSERT] that
    fails aborts the run, and so does the use of a pointer to a thread that
    is not alive.

    Only scheduler.cc is at hand.  What it calls in [Thread], in the
    interrupt, alarm and address-space objects and in switch.s is written
    down from the specification, and marked so.  The queues are the
    linked lists of the list library: one sorted-list template for L1 and
    L2, and an iterator that is a pointer to a list element. *)

From Stdlib Require Import ZArith Lia.
From stdpp Require Import base option list gmap.

Local Open Scope Z_scope.

(** ** Machine integers *)

(** The [int] of scheduler.cc has 32 bits.  Its arithmetic is written with
    the wrap-around of the machine; the statements below come with the
    ranges in which no result wraps. *)
Module Int.

Definition MIN : Z := - 2 ^ 31.
Definition MAX : Z := 2 ^ 31 - 1.

(** The value an [int] holds after an arithmetic result [z]. *)
Definition wrap (z : Z) : Z := (z + 2 ^ 31) mod 2 ^ 32 - 2 ^ 31.

Definition ok (z : Z) : Prop := MIN <= z <= MAX.

End Int.

(** ** Threads *)

Definition ptr := positive.

(** Modelled from the spec: the status of a thread (thread.h is not part
    of the sources). *)
Inductive ThreadStatus := RUNNING | READY | BLOCKED | FINISHED.

(** Modelled from the spec: the fields of a [Thread] that scheduler.cc
    reads and writes, each behind its pair of accessors. *)
Record Thread := mkThread {
  ID : Z;
  status : ThreadStatus;
  priority : Z;
  predict : Z;               (* getPredict / setPredict *)
  lastTime : Z;              (* getLastTime / setLastTime *)
  agingCount : Z;            (* getAgingCount / setAgingCount *)
  space : option nat;        (* the user address space, NULL for kernel threads *)
  stackFence : bool          (* what CheckOverflow looks at *)
}.

Definition Thread_setStatus (s : ThreadStatus) (t : Thread) : Thread :=
  mkThread (ID t) s (priority t) (predict t) (lastTime t) (agingCount t)
           (space t) (stackFence t).

Definition Thread_setPriority (p : Z) (t : Thread) : Thread :=
  mkThread (ID t) (status t) p (predict t) (lastTime t) (agingCount t)
           (space t) (stackFence t).

Definition Thread_setPredict (p : Z) (t : Thread) : Thread :=
  mkThread (ID t) (status t) (priority t) p (lastTime t) (agingCount t)
           (space t) (stackFence t).

Definition Thread_setLastTime (l : Z) (t : Thread) : Thread :=
  mkThread (ID t) (status t) (priority t) (predict t) l (agingCount t)
           (space t) (stackFence t).

Definition Thread_setAgingCount (a : Z) (t : Thread) : Thread :=
  mkThread (ID t) (status t) (priority t) (predict t) (lastTime t) a
           (space t) (stackFence t).

(** [a->getPredict() / 2 + a->getLastTime() / 2]; the division of C++
    truncates towards zero. *)
Definition score (t : Thread) : Z :=
  Int.wrap (predict t ÷ 2 + lastTime t ÷ 2).

Definition cmpPriority (a b : Thread) : Z :=
  Z.b2z (priority b <? priority a).

Definition cmpPredict (a b : Thread) : Z :=
  Z.b2z (score b <? score a).

(** A C++ [int] used as a condition. *)
Definition truthy (z : Z) : bool := negb (z =? 0).

(** ** Kernel state *)

Inductive IntStatus := IntOff | IntOn.

Inductive Queue := QL1 | QL2 | QL3.

(** The lines written by [printf], and the calls made to the thread and
    address-space collaborators around the context switch. *)
Inductive Event :=
| Inserted (tick id : Z) (q : Queue)
| Removed (tick id : Z) (q : Queue)
| PriorityChanged (tick id old new : Z)
| Selected (tick id : Z)
| Replaced (tick id ticks : Z)
| SaveUserState (t : ptr)
| SpaceSaveState (a : nat)
| RestoreUserState (t : ptr)
| SpaceRestoreState (a : nat).

Record Kernel := mkKernel {
  threads : gmap ptr Thread;     (* the Thread objects that are alive *)
  L1 : list ptr;
  L2 : list ptr;
  L3 : list ptr;
  toBeDestroyed : option ptr;
  currentThread : ptr;           (* kernel->currentThread *)
  totalTicks : Z;                (* kernel->stats->totalTicks *)
  level : IntStatus;             (* kernel->interrupt->getLevel() *)
  yieldOnReturn : bool;          (* set by kernel->interrupt->YieldOnReturn() *)
  roundRobin : bool;             (* set by kernel->alarm->setRoundRobin(b) *)
  trace : list Event             (* oldest event first *)
}.

Definition with_threads (f : gmap ptr Thread → gmap ptr Thread) (k : Kernel) : Kernel :=
  mkKernel (f (threads k)) (L1 k) (L2 k) (L3 k) (toBeDestroyed k)
           (currentThread k) (totalTicks k) (level k) (yieldOnReturn k)
           (roundRobin k) (trace k).

Definition queue (q : Queue) (k : Kernel) : list ptr :=
  match q with QL1 => L1 k | QL2 => L2 k | QL3 => L3 k end.

Definition with_queue (q : Queue) (l : list ptr) (k : Kernel) : Kernel :=
  match q with
  | QL1 => mkKernel (threads k) l (L2 k) (L3 k) (toBeDestroyed k)
             (currentThread k) (totalTicks k) (level k) (yieldOnReturn k)
             (roundRobin k) (trace k)
  | QL2 => mkKernel (threads k) (L1 k) l (L3 k) (toBeDestroyed k)
             (currentThread k) (totalTicks k) (level k) (yieldOnReturn k)
             (roundRobin k) (trace k)
  | QL3 => mkKernel (threads k) (L1 k) (L2 k) l (toBeDestroyed k)
             (currentThread k) (totalTicks k) (level k) (yieldOnReturn k)
             (roundRobin k) (trace k)
  end.

Definition with_toBeDestroyed (d : option ptr) (k : Kernel) : Kernel :=
  mkKernel (threads k) (L1 k) (L2 k) (L3 k) d
           (currentThread k) (totalTicks k) (level k) (yieldOnReturn k)
           (roundRobin k) (trace k).

Definition with_currentThread (t : ptr) (k : Kernel) : Kernel :=
  mkKernel (threads k) (L1 k) (L2 k) (L3 k) (toBeDestroyed k)
           t (totalTicks k) (level k) (yieldOnReturn k)
           (roundRobin k) (trace k).

Definition with_yieldOnReturn (b : bool) (k : Kernel) : Kernel :=
  mkKernel (threads k) (L1 k) (L2 k) (L3 k) (toBeDestroyed k)
           (currentThread k) (totalTicks k) (level k) b
           (roundRobin k) (trace k).

Definition with_roundRobin (b : bool) (k : Kernel) : Kernel :=
  mkKernel (threads k) (L1 k) (L2 k) (L3 k) (toBeDestroyed k)
           (currentThread k) (totalTicks k) (level k) (yieldOnReturn k)
           b (trace k).

(** The clock is advanced by the interrupt machinery, outside of
    scheduler.cc. *)
Definition with_totalTicks (n : Z) (k : Kernel) : Kernel :=
  mkKernel (threads k) (L1 k) (L2 k) (L3 k) (toBeDestroyed k)
           (currentThread k) n (level k) (yieldOnReturn k)
           (roundRobin k) (trace k).

Definition with_event (e : Event) (k : Kernel) : Kernel :=
  mkKernel (threads k) (L1 k) (L2 k) (L3 k) (toBeDestroyed k)
           (currentThread k) (totalTicks k) (level k) (yieldOnReturn k)
           (roundRobin k) (trace k ++ [e]).

(** ** The monad of the scheduler routines *)

Inductive Res (A : Type) :=
| Ok (a : A)
| AssertFailed            (* an ASSERT did not hold: the kernel aborts *)
| Fault.                  (* a pointer to a thread that is not alive was used *)

Arguments Ok {A} a.
Arguments AssertFailed {A}.
Arguments Fault {A}.

Definition M (A : Type) : Type := Kernel → Res (A * Kernel).

Definition ret {A} (a : A) : M A := λ k, Ok (a, k).

Definition bind {A B} (m : M A) (f : A → M B) : M B :=
  λ k, match m k with
       | Ok (a, k') => f a k'
       | AssertFailed => AssertFailed
       | Fault => Fault
       end.

Notation "x <- m ;; f" := (bind m (λ x, f))
  (at level 100, m at next level, right associativity).
Notation "m ;;; f" := (bind m (λ _, f))
  (at level 100, right associativity).

Definition gets {A} (f : Kernel → A) : M A := λ k, Ok (f k, k).

Definition modify (f : Kernel → Kernel) : M unit := λ k, Ok (tt, f k).

Definition ASSERT (b : bool) : M unit :=
  λ k, if b then Ok (tt, k) else AssertFailed.

Definition when (b : bool) (m : M unit) : M unit :=
  if b then m else ret tt.

Definition printf (e : Event) : M unit := modify (with_event e).

Definition IntStatus_eqb (a b : IntStatus) : bool :=
  match a, b with
  | IntOff, IntOff | IntOn, IntOn => true
  | _, _ => false
  end.

Definition Queue_eqb (a b : Queue) : bool :=
  match a, b with
  | QL1, QL1 | QL2, QL2 | QL3, QL3 => true
  | _, _ => false
  end.

(** Modelled from the spec: [Interrupt::YieldOnReturn] (interrupt.cc is not
    part of the sources), the request to preempt the running thread when
    the current routine returns. *)
Definition YieldOnReturn : M unit := modify (with_yieldOnReturn true).

(** Modelled from the spec: [Alarm::setRoundRobin] (alarm.cc is not part
    of the sources), the switch that the timer reads to decide whether it
    enforces the round-robin quantum. *)
Definition setRoundRobin (b : bool) : M unit := modify (with_roundRobin b).

(** *** Access to a thread through a pointer

    Modelled from the spec: the accessors of [Thread] (thread.h is not
    part of the sources) read and write one field of the thread object. *)

Definition deref (t : ptr) : M Thread :=
  λ k, match threads k !! t with
       | Some th => Ok (th, k)
       | None => Fault
       end.

Definition update (t : ptr) (f : Thread → Thread) : M unit :=
  th <- deref t ;; modify (with_threads (insert t (f th))).

Definition getID (t : ptr) : M Z := th <- deref t ;; ret (ID th).
Definition getPriority (t : ptr) : M Z := th <- deref t ;; ret (priority th).
Definition getPredict (t : ptr) : M Z := th <- deref t ;; ret (predict th).
Definition getLastTime (t : ptr) : M Z := th <- deref t ;; ret (lastTime th).
Definition getAgingCount (t : ptr) : M Z := th <- deref t ;; ret (agingCount th).

Definition setStatus (t : ptr) (s : ThreadStatus) : M unit := update t (Thread_setStatus s).
Definition setPriority (t : ptr) (p : Z) : M unit := update t (Thread_setPriority p).
Definition setPredict (t : ptr) (p : Z) : M unit := update t (Thread_setPredict p).
Definition setLastTime (t : ptr) (l : Z) : M unit := update t (Thread_setLastTime l).
Definition setAgingCount (t : ptr) (a : Z) : M unit := update t (Thread_setAgingCount a).

(** ** The list containers

    lib/list.h and lib/list.cc are not part of the sources at hand.  The
    queues are singly linked lists: L3 a [List<T>], L1 and L2 a
    [SortedList<T>], both built by scheduler.cc from the one template and
    a comparison function (lines 42 and 43). *)

(** Modelled from the spec: [List<T>::Append], which puts the item at the
    tail of the queue (L3 is a plain FIFO). *)
Definition Append (item : ptr) (l : list ptr) : list ptr := l ++ [item].

(** Modelled from the spec: [List<T>::Remove], which takes the item out of
    the queue it resides in and leaves the others in their order. *)
Fixpoint Remove (item : ptr) (l : list ptr) : list ptr :=
  match l with
  | [] => []
  | x :: r => if Pos.eqb x item then r else x :: Remove item r
  end.

(** Modelled from the spec: [SortedList<T>::Insert], a stable insert into
    an ordered list.  The order is the one of the comparison function
    that the list was built with, a function from two items to [int]
    whose result is negative when its first argument comes first: the new
    item is put in front of the first element [x] with
    [compare(item, x) < 0] and behind every other element, at the tail
    when there is none.  The template is the same for L1 and L2. *)
Fixpoint SortedInsert (compare : ptr → ptr → option Z) (item : ptr)
    (l : list ptr) : option (list ptr) :=
  match l with
  | [] => Some [item]
  | x :: r =>
      match compare item x with
      | None => None
      | Some c =>
          if c <? 0 then Some (item :: x :: r)
          else
            match SortedInsert compare item r with
            | Some r' => Some (x :: r')
            | None => None
            end
      end
  end.

(** The comparison function of a sorted queue, called with two pointers:
    it reads both threads. *)
Definition compare_at (cmp : Thread → Thread → Z) (h : gmap ptr Thread)
    (item x : ptr) : option Z :=
  match h !! item, h !! x with
  | Some a, Some b => Some (cmp a b)
  | _, _ => None
  end.

(** [L3->Append(t)], [L2->Insert(t)], [L1->Insert(t)] and
    [list->Remove(t)] on the queues of the scheduler: L1 is the
    [SortedList] of [cmpPredict], L2 the one of [cmpPriority]. *)
Definition L3_Append (t : ptr) : M unit :=
  λ k, Ok (tt, with_queue QL3 (Append t (L3 k)) k).

Definition L2_Insert (t : ptr) : M unit :=
  λ k, match SortedInsert (compare_at cmpPriority (threads k)) t (L2 k) with
       | Some l => Ok (tt, with_queue QL2 l k)
       | None => Fault
       end.

Definition L1_Insert (t : ptr) : M unit :=
  λ k, match SortedInsert (compare_at cmpPredict (threads k)) t (L1 k) with
       | Some l => Ok (tt, with_queue QL1 l k)
       | None => Fault
       end.

Definition list_Remove (q : Queue) (t : ptr) : M unit :=
  λ k, Ok (tt, with_queue q (Remove t (queue q k)) k).

(** Modelled from the spec: [List<T>::RemoveFront], the head of the queue;
    the scheduler calls it on queues it has found non-empty. *)
Definition RemoveFront (q : Queue) : M ptr :=
  λ k, match queue q k with
       | [] => AssertFailed
       | x :: r => Ok (x, with_queue q r k)
       end.

(** Modelled from the spec: [List<T>::IsEmpty]. *)
Definition IsEmpty (q : Queue) : M bool :=
  gets (λ k, match queue q k with [] => true | _ => false end).

(** ** Scheduler::Scheduler *)

(** The three queues are empty and no destruction is pending. *)
Definition Scheduler : M unit :=
  modify (with_queue QL1 []) ;;;
  modify (with_queue QL2 []) ;;;
  modify (with_queue QL3 []) ;;;
  modify (with_toBeDestroyed None).

(** ** Scheduler::ReadyToRun *)

Definition ReadyToRun (thread : ptr) : M unit :=
  lv <- gets level ;;
  ASSERT (IntStatus_eqb lv IntOff) ;;;
  setStatus thread READY ;;;
  now <- gets totalTicks ;;
  setAgingCount thread now ;;;
  p <- getPriority thread ;;
  id <- getID thread ;;
  if p <? 50 then
    printf (Inserted now id QL3) ;;;
    L3_Append thread
  else if p <? 100 then
    printf (Inserted now id QL2) ;;;
    L2_Insert thread
  else if p <? 150 then
    printf (Inserted now id QL1) ;;;
    L1_Insert thread ;;;
    cur <- gets currentThread ;;
    cp <- getPriority cur ;;
    a <- deref thread ;;
    b <- deref cur ;;
    when ((100 <? cp) && truthy (cmpPredict a b)) YieldOnReturn
  else ret tt.

(** ** Scheduler::aging *)

(** The body of the loop, for the element [now] that the iterator stands
    on.  The result tells whether the body has taken [now] out of the
    queue and put it into a queue again. *)
Definition aging_visit (list : Queue) (now : ptr) : M bool :=
  ticks <- gets totalTicks ;;
  a <- getAgingCount now ;;
  if 1500 <? Int.wrap (ticks - a) then
    setAgingCount now (Int.wrap (a + 1500)) ;;;
    p <- getPriority now ;;
    setPriority now (Int.wrap (p + 10)) ;;;
    p <- getPriority now ;;
    when (149 <? p) (setPriority now 149) ;;;
    id <- getID now ;;
    p <- getPriority now ;;
    printf (PriorityChanged ticks id (Int.wrap (p - 10)) p) ;;;
    list_Remove list now ;;;
    (if 99 <? p then
       when (negb (Queue_eqb list QL1))
         (printf (Removed ticks id QL2) ;;; printf (Inserted ticks id QL1)) ;;;
       L1_Insert now
     else if 49 <? p then
       when (negb (Queue_eqb list QL2))
         (printf (Removed ticks id QL3) ;;; printf (Inserted ticks id QL2)) ;;;
       L2_Insert now
     else
       L3_Append now) ;;;
    ret true
  else ret false.

(** The body alone, as a routine of its own. *)
Definition aging_body (list : Queue) (now : ptr) : M unit :=
  aging_visit list now ;;; ret tt.

(** The elements behind the first element of [l] that holds [x]: what the
    [next] field of that element leads to. *)
Fixpoint behind (x : ptr) (l : list ptr) : list ptr :=
  match l with
  | [] => []
  | y :: r => if Pos.eqb y x then r else behind x r
  end.

(** Modelled from the spec: [ListIterator<T>::Next] (lib/list.h is not
    part of the sources) when the element under the iterator holds [now]
    and [now] has been put into a queue again: the elements behind the
    element that holds [now], in the queue that [now] is in. *)
Definition behind_in_queue (now : ptr) : M (list ptr) :=
  gets (λ k, if bool_decide (now ∈ L1 k) then behind now (L1 k)
             else if bool_decide (now ∈ L2 k) then behind now (L2 k)
             else behind now (L3 k)).

(** The loop of [aging] with its [ListIterator<T>], which is modelled
    from the spec as the list library has it.  The iterator is a pointer
    [current] to a list element: [IsDone] tests it for NULL,
    [Item] reads the item of the element and [Next] follows its [next]
    field.  Here the iterator is the list [cells] of the items from
    [current] on.

    When the body does nothing, [Next] leads to the rest of the list.
    When the body has run, the element under the iterator has left the
    queue: [list->Remove(now)] has unlinked and freed it, and [Insert] or
    [Append] has allocated an element for [now] again.  The iterator is
    not told, and [Next] reads the [next] field at the address it holds.
    The model follows the program as it runs: the new element is
    allocated where the freed one was, so the iterator stands on the
    element that holds [now] in the queue that [now] has been put into,
    and [Next] leads to the elements behind it there.

    The loop is given one step for every element that the queue has when
    the pass starts; a run that needs more is cut off as a fault.  On the
    states that satisfy the invariant of the queues no run needs more. *)
Fixpoint aging_loop (fuel : nat) (cells : list ptr) (list : Queue) : M unit :=
  match cells, fuel with
  | [], _ => ret tt
  | _ :: _, O => λ _, Fault
  | now :: rest, S fuel =>
      moved <- aging_visit list now ;;
      cells <- (if moved : bool then behind_in_queue now else ret rest) ;;
      aging_loop fuel cells list
  end.

Definition aging (list : Queue) : M unit :=
  cells <- gets (queue list) ;;
  aging_loop (length cells) cells list.

(** ** Scheduler::FindNextToRun *)

Definition FindNextToRun : M (option ptr) :=
  lv <- gets level ;;
  ASSERT (IntStatus_eqb lv IntOff) ;;;
  aging QL1 ;;;
  aging QL2 ;;;
  aging QL3 ;;;
  ticks <- gets totalTicks ;;
  e1 <- IsEmpty QL1 ;;
  if negb e1 then
    setRoundRobin false ;;;
    thread <- RemoveFront QL1 ;;
    id <- getID thread ;;
    printf (Removed ticks id QL1) ;;;
    p <- getPredict thread ;;
    l <- getLastTime thread ;;
    setPredict thread (Int.wrap (p ÷ 2 + l ÷ 2)) ;;;
    setLastTime thread 0 ;;;
    ret (Some thread)
  else
    e2 <- IsEmpty QL2 ;;
    if negb e2 then
      setRoundRobin false ;;;
      thread <- RemoveFront QL2 ;;
      id <- getID thread ;;
      printf (Removed ticks id QL2) ;;;
      setLastTime thread 0 ;;;
      ret (Some thread)
    else
      e3 <- IsEmpty QL3 ;;
      if negb e3 then
        setRoundRobin true ;;;
        thread <- RemoveFront QL3 ;;
        id <- getID thread ;;
        printf (Removed ticks id QL3) ;;;
        setLastTime thread 0 ;;;
        ret (Some thread)
      else ret None.

(** ** Scheduler::CheckToBeDestroyed and Scheduler::Run *)

(** [delete t]: the thread object is gone afterwards. *)
Definition delete_thread (t : ptr) : M unit :=
  deref t ;;; modify (with_threads (delete t)).

Definition CheckToBeDestroyed : M unit :=
  d <- gets toBeDestroyed ;;
  match d with
  | Some t =>
      delete_thread t ;;;
      modify (with_toBeDestroyed None)
  | None => ret tt
  end.

(** Modelled from the spec: [Thread::CheckOverflow], a diagnostic that is
    fatal when the stack of the thread has overflowed. *)
Definition CheckOverflow (t : ptr) : M unit :=
  th <- deref t ;; ASSERT (stackFence th).

(** [Run], from its entry to the call of [SWITCH]. *)
Definition Run_to_SWITCH (nextThread : ptr) (finishing : bool) : M ptr :=
  oldThread <- gets currentThread ;;
  lv <- gets level ;;
  ASSERT (IntStatus_eqb lv IntOff) ;;;
  when finishing
    (d <- gets toBeDestroyed ;;
     ASSERT (match d with None => true | Some _ => false end) ;;;
     modify (with_toBeDestroyed (Some oldThread))) ;;;
  old <- deref oldThread ;;
  match space old with
  | Some a => printf (SaveUserState oldThread) ;;; printf (SpaceSaveState a)
  | None => ret tt
  end ;;;
  CheckOverflow oldThread ;;;
  modify (with_currentThread nextThread) ;;;
  setStatus nextThread RUNNING ;;;
  ticks <- gets totalTicks ;;
  nid <- getID nextThread ;;
  printf (Selected ticks nid) ;;;
  oid <- getID oldThread ;;
  ran <- getLastTime oldThread ;;
  printf (Replaced ticks oid ran) ;;;
  ret oldThread.

(** [Run], from the return of [SWITCH] to its end. *)
Definition Run_from_SWITCH (oldThread : ptr) : M unit :=
  lv <- gets level ;;
  ASSERT (IntStatus_eqb lv IntOff) ;;;
  CheckToBeDestroyed ;;;
  old <- deref oldThread ;;
  match space old with
  | Some a => printf (RestoreUserState oldThread) ;;; printf (SpaceRestoreState a)
  | None => ret tt
  end.

Section Dispatch.

(** The context switch of switch.s: what the rest of the system does to
    the kernel state from the moment [oldThread] leaves the processor
    until it is given the processor again. *)
Variable SWITCH : ptr → ptr → M unit.

Definition Run (nextThread : ptr) (finishing : bool) : M unit :=
  oldThread <- Run_to_SWITCH nextThread finishing ;;
  SWITCH oldThread nextThread ;;;
  Run_from_SWITCH oldThread.

End Dispatch.

(** * Notions used in the statements *)

(** ** Well-formed threads *)

(** Every field of the thread that scheduler.cc computes with holds an
    [int]. *)
Record Thread_ok (t : Thread) : Prop := {
  ok_priority : Int.ok (priority t);
  ok_predict : Int.ok (predict t);
  ok_lastTime : Int.ok (lastTime t);
  ok_agingCount : Int.ok (agingCount t)
}.

(** ** One visit of [aging] *)

(** The test [totalTicks - now->getAgingCount() > 1500]. *)
Definition due (ticks : Z) (th : Thread) : bool :=
  1500 <? Int.wrap (ticks - agingCount th).

(** The thread object after the three setters of the loop body. *)
Definition aged (th : Thread) : Thread :=
  let th1 := Thread_setAgingCount (Int.wrap (agingCount th + 1500)) th in
  let th2 := Thread_setPriority (Int.wrap (priority th + 10)) th1 in
  if 149 <? priority th2 then Thread_setPriority 149 th2 else th2.

(** The second half of the loop body: the thread leaves [list] and goes to
    the queue of its priority [p]. *)
Definition requeue (list : Queue) (now : ptr) (ticks id p : Z) : M unit :=
  list_Remove list now ;;;
  if 99 <? p then
    when (negb (Queue_eqb list QL1))
      (printf (Removed ticks id QL2) ;;; printf (Inserted ticks id QL1)) ;;;
    L1_Insert now
  else if 49 <? p then
    when (negb (Queue_eqb list QL2))
      (printf (Removed ticks id QL3) ;;; printf (Inserted ticks id QL2)) ;;;
    L2_Insert now
  else
    L3_Append now.

Global Instance Queue_eq_dec : EqDecision Queue.
Proof. solve_decision. Defined.

(** ** Where a thread is put *)

(** The part of the state that neither the queues nor the thread objects
    make up. *)
Record same_control (k k' : Kernel) : Prop := {
  sc_toBeDestroyed : toBeDestroyed k' = toBeDestroyed k;
  sc_currentThread : currentThread k' = currentThread k;
  sc_totalTicks : totalTicks k' = totalTicks k;
  sc_level : level k' = level k;
  sc_yieldOnReturn : yieldOnReturn k' = yieldOnReturn k;
  sc_roundRobin : roundRobin k' = roundRobin k
}.

(** The queue chosen by the tests [> 99] and [> 49] of [aging]. *)
Definition dest (p : Z) : Queue :=
  if 99 <? p then QL1 else if 49 <? p then QL2 else QL3.

(** [placed d h now l l']: [l'] is the queue [d] after [now] went into it,
    [l] the queue before. *)
Definition placed (d : Queue) (h : gmap ptr Thread) (now : ptr)
    (l l' : list ptr) : Prop :=
  match d with
  | QL1 => SortedInsert (compare_at cmpPredict h) now l = Some l'
  | QL2 => SortedInsert (compare_at cmpPriority h) now l = Some l'
  | QL3 => l' = Append now l
  end.

(** [moved list now d k k']: in [k'] the thread [now] has left the queue
    [list] of [k] and has been put into the queue [d]. *)
Record moved (list : Queue) (now : ptr) (d : Queue) (k k' : Kernel) : Prop := {
  mv_threads : threads k' = threads k;
  mv_control : same_control k k';
  mv_others : ∀ q, q ≠ d →
    queue q k' = queue q (with_queue list (Remove now (queue list k)) k);
  mv_placed :
    placed d (threads k) now
      (queue d (with_queue list (Remove now (queue list k)) k)) (queue d k')
}.

(** ** The invariant of the ready queues *)

(** The queue that [ReadyToRun] chooses for a priority. *)
Definition band (p : Z) : option Queue :=
  if p <? 50 then Some QL3
  else if p <? 100 then Some QL2
  else if p <? 150 then Some QL1
  else None.

(** The clock and the fields of the thread objects hold [int]s; no thread
    is twice in a queue; every queued thread is alive and is in the queue
    of its band. *)
Record Inv (k : Kernel) : Prop := {
  inv_ticks : Int.ok (totalTicks k);
  inv_threads : ∀ t th, threads k !! t = Some th → Thread_ok th;
  inv_NoDup : ∀ q, NoDup (queue q k);
  inv_alive : ∀ q t, t ∈ queue q k → is_Some (threads k !! t);
  inv_band : ∀ q t th,
    t ∈ queue q k → threads k !! t = Some th → band (priority th) = Some q
}.

(** ** A pass of [aging] *)

(** What one visit does to the thread. *)
Definition visit (ticks : Z) (th : Thread) : Thread :=
  if due ticks th then aged th else th.

(** The queue a visited resident of [list] is in afterwards. *)
Definition visit_queue (list : Queue) (ticks : Z) (th : Thread) : Queue :=
  if due ticks th then dest (priority (aged th)) else list.

(** What holds in the state [k] when the residents [done] of the queue
    [ql] of [k0] have been visited and the residents [rest] have not. *)
Record pass (ql : Queue) (k0 : Kernel) (done rest : list ptr) (k : Kernel) : Prop := {
  pass_Inv : Inv k;
  pass_control : same_control k0 k;
  pass_split : queue ql k0 = done ++ rest;
  pass_rest : ∀ t, t ∈ rest → t ∈ queue ql k;
  pass_threads : ∀ t,
    threads k !! t =
      if decide (t ∈ done) then visit (totalTicks k0) <$> threads k0 !! t
      else threads k0 !! t;
  pass_queues : ∀ q t,
    t ∈ queue q k ↔
      if decide (t ∈ done)
      then ∃ th, threads k0 !! t = Some th ∧
                 q = visit_queue ql (totalTicks k0) th
      else t ∈ queue q k0
}.

(** The state after the visit of [now], when it started in [k1]. *)
Definition visited (ql : Queue) (now : ptr) (th : Thread) (k1 k2 : Kernel) : Prop :=
  if due (totalTicks k1) th
  then ∃ km, threads km = <[now := aged th]> (threads k1) ∧
             (∀ q, queue q km = queue q k1) ∧
             moved ql now (dest (priority (aged th))) km k2
  else k2 = k1.

(** ** The outcome of [FindNextToRun] and of [ReadyToRun] *)

(** The state after the thread [t] at the head of the queue [q] has been
    taken out: [th] is the thread object, [rest] the queue behind it. *)
Definition taken (q : Queue) (t : ptr) (th : Thread) (rest : list ptr)
    (k : Kernel) : Kernel :=
  let th1 :=
    match q with
    | QL1 => Thread_setPredict (Int.wrap (predict th ÷ 2 + lastTime th ÷ 2)) th
    | _ => th
    end in
  with_threads (insert t (Thread_setLastTime 0 th1))
    (with_event (Removed (totalTicks k) (ID th) q)
       (with_queue q rest
          (with_roundRobin (match q with QL3 => true | _ => false end) k))).

(** [chosen k r k']: from the queues of [k], the selection part of
    [FindNextToRun] returns [r] and leaves the state [k']. *)
Definition chosen (k : Kernel) (r : option ptr) (k' : Kernel) : Prop :=
  match L1 k, L2 k, L3 k with
  | t :: rest, _, _ =>
      ∃ th, threads k !! t = Some th ∧ r = Some t ∧ k' = taken QL1 t th rest k
  | [], t :: rest, _ =>
      ∃ th, threads k !! t = Some th ∧ r = Some t ∧ k' = taken QL2 t th rest k
  | [], [], t :: rest =>
      ∃ th, threads k !! t = Some th ∧ r = Some t ∧ k' = taken QL3 t th rest k
  | [], [], [] => r = None ∧ k' = k
  end.

(** The thread object after [setStatus(READY)] and
    [setAgingCount(totalTicks)]. *)
Definition stamped (ticks : Z) (th : Thread) : Thread :=
  Thread_setAgingCount ticks (Thread_setStatus READY th).

(** The test that guards [YieldOnReturn], for the new thread [th] and the
    running thread [cur]. *)
Definition preempts (th cur : Thread) : bool :=
  (100 <? priority cur) && truthy (cmpPredict th cur).

(** [readied t th k k']: [k'] is the state after [ReadyToRun t] on [k],
    where [th] was the thread object of [t]. *)
Record readied (t : ptr) (th : Thread) (k k' : Kernel) : Prop := {
  rd_threads : threads k' = <[t := stamped (totalTicks k) th]> (threads k);
  rd_toBeDestroyed : toBeDestroyed k' = toBeDestroyed k;
  rd_currentThread : currentThread k' = currentThread k;
  rd_totalTicks : totalTicks k' = totalTicks k;
  rd_level : level k' = level k;
  rd_roundRobin : roundRobin k' = roundRobin k;
  rd_queues :
    match band (priority th) with
    | Some q =>
        (∀ q', q' ≠ q → queue q' k' = queue q' k) ∧
        placed q (threads k') t (queue q k) (queue q k')
    | None => ∀ q, queue q k' = queue q k
    end;
  rd_yield :
    match band (priority th) with
    | Some QL1 =>
        ∃ cur, threads k' !! currentThread k = Some cur ∧
          yieldOnReturn k' =
            if preempts (stamped (totalTicks k) th) cur then true
            else yieldOnReturn k
    | _ => yieldOnReturn k' = yieldOnReturn k
    end
}.

(** ** The invariant in a form that can be computed *)

Global Instance Int_ok_dec z : Decision (Int.ok z).
Proof. unfold Int.ok. apply _. Defined.

Definition Thread_good (th : Thread) : Prop :=
  Int.ok (priority th) ∧ Int.ok (predict th) ∧
  Int.ok (lastTime th) ∧ Int.ok (agingCount th).

Global Instance Thread_ok_dec th : Decision (Thread_ok th).
Proof.
  refine (cast_if (decide (Thread_good th))).
  - destruct t as (? & ? & ? & ?). by constructor.
  - intros []. apply n. unfold Thread_good. tauto.
Defined.

Definition in_band (k : Kernel) (q : Queue) (t : ptr) : Prop :=
  match threads k !! t with
  | Some th => band (priority th) = Some q
  | None => False
  end.

Global Instance in_band_dec k q t : Decision (in_band k q t).
Proof. unfold in_band. destruct (threads k !! t); apply _. Defined.

Definition Inv_check (k : Kernel) : Prop :=
  Int.ok (totalTicks k) ∧
  map_Forall (λ _ th, Thread_ok th) (threads k) ∧
  Forall (λ q, NoDup (queue q k) ∧ Forall (in_band k q) (queue q k))
         [QL1; QL2; QL3].

(** ** Queues, bands and the order of L1 *)

(** L1 comes first. *)
Definition rank (q : Queue) : Z :=
  match q with QL1 => 1 | QL2 => 2 | QL3 => 3 end.

(** The queue and the band of every queued thread agree. *)
Definition band_agrees (k : Kernel) : Prop :=
  ∀ t th q, t ∈ queue q k → threads k !! t = Some th →
    (t ∈ L1 k ↔ 100 <= priority th) ∧
    (t ∈ L2 k ↔ 50 <= priority th < 100) ∧
    (t ∈ L3 k ↔ priority th < 50).

(** [t] is in one of the three queues. *)
Definition queued (k : Kernel) (t : ptr) : Prop := ∃ q, t ∈ queue q k.

(** [n] calls of [FindNextToRun] in a row, and what they return. *)
Fixpoint dispatches (n : nat) : M (list (option ptr)) :=
  match n with
  | O => ret []
  | S n =>
      r <- FindNextToRun ;;
      rs <- dispatches n ;;
      ret (r :: rs)
  end.

(** A context switch after which the incoming thread gives the processor
    back at once. *)
Definition SWITCH_back (oldThread nextThread : ptr) : M unit :=
  modify (with_currentThread oldThread).

(** A context switch after which the incoming thread finishes at once: it
    calls [Run(oldThread, true)], which takes it to its own context
    switch, back to [oldThread]. *)
Definition SWITCH_finishing (oldThread nextThread : ptr) : M unit :=
  Run_to_SWITCH oldThread true ;;; ret tt.

(** The test of the loop body holds for [t] on the state [k]. *)
Definition is_due (k : Kernel) (t : ptr) : bool :=
  match threads k !! t with
  | Some th => due (totalTicks k) th
  | None => false
  end.

(** The residents that a pass over the list [l] comes to on the state
    [k]: those in front of the first one that is due, and that one. *)
Fixpoint reached (k : Kernel) (l : list ptr) : list ptr :=
  match l with
  | [] => []
  | t :: r => if is_due k t then [t] else t :: reached k r
  end.

(** The residents behind them, which the pass does not come to. *)
Definition unreached (k : Kernel) (l : list ptr) : list ptr :=
  drop (length (reached k l)) l.

(** [k'] is the state after the pass of [aging] over the queue [ql] of
    [k]. *)
Definition passed (ql : Queue) (k k' : Kernel) : Prop :=
  pass ql k (reached k (queue ql k)) (unreached k (queue ql k)) k'.

(** ** The ready threads as a whole *)

(** The threads of the three queues, L1 first. *)
Definition readyThreads (k : Kernel) : list ptr := L1 k ++ L2 k ++ L3 k.

(** The fields of a thread that [aging] does not write. *)
Definition same_but_aging (th th' : Thread) : Prop :=
  ID th' = ID th ∧ status th' = status th ∧ predict th' = predict th ∧
  lastTime th' = lastTime th ∧ space th' = space th ∧
  stackFence th' = stackFence th.

(** The aging mark of every queued thread is a tick of the past. *)
Definition marks_past (k : Kernel) : Prop :=
  ∀ t th, queued k t → threads k !! t = Some th →
    0 <= agingCount th <= totalTicks k.

(** ** States to run the scheduler on

    The scenario of three threads with the priorities 120, 70 and 20, which
    sit in L1, L2 and L3, while a thread of priority 110 is running. *)

Module Scenario.

Definition thread (id p burst ran mark : Z) (s : ThreadStatus) : Thread :=
  mkThread id s p burst ran mark None true.

Definition store : gmap ptr Thread :=
  list_to_map
    [ (1%positive, thread 1 120 100 0 0 READY);
      (2%positive, thread 2 70 0 0 0 READY);
      (3%positive, thread 3 20 0 0 0 READY);
      (4%positive, thread 4 70 0 0 1600 BLOCKED);
      (5%positive, thread 5 120 60 0 0 BLOCKED);
      (6%positive, thread 6 150 0 0 0 BLOCKED);
      (7%positive, thread 7 120 140 0 0 BLOCKED);
      (8%positive, thread 8 100 100 0 0 BLOCKED);
      (9%positive, thread 9 110 100 0 0 RUNNING);
      (10%positive, thread 10 10 0 0 1000 READY) ].

(** The ready queues hold the threads 1, 2 and 3 at the tick [now]. *)
Definition ready (now : Z) : Kernel :=
  mkKernel store [1%positive] [2%positive] [3%positive] None 9%positive
           now IntOff false false [].

(** At tick 1600 the thread 3, which waits since tick 0, is in front of
    the thread 10, which waits since tick 1000, in L3. *)
Definition starved : Kernel :=
  mkKernel store [] [] [3%positive; 10%positive] None 9%positive
           1600 IntOff false false [].

(** At tick 3000 the threads 3 and 10 have both waited for more than 1500
    ticks in L3, the thread 3 since tick 0 and the thread 10 since tick
    1000. *)
Definition starved_both : Kernel :=
  mkKernel store [] [] [3%positive; 10%positive] None 9%positive
           3000 IntOff false false [].

(** L1 holds the thread 5, of score 30, in front of the thread 1, of
    score 50. *)
Definition shortest_first : Kernel :=
  mkKernel store [5%positive; 1%positive] [2%positive] [3%positive] None
           9%positive 0 IntOff false false [].

(** No thread is ready. *)
Definition idle : Kernel :=
  mkKernel store [] [] [] None 9%positive 0 IntOff false false [].

End Scenario.

(** * Properties *)

(** ** Machine integers *)

Lemma wrap_ok (z : Z) : Int.ok z → Int.wrap z = z.
Proof.
  unfold Int.ok, Int.wrap, Int.MIN, Int.MAX. intros H.
  rewrite Z.mod_small; lia.
Qed.

Lemma wrap_is_ok (z : Z) : Int.ok (Int.wrap z).
Proof.
  unfold Int.ok, Int.wrap, Int.MIN, Int.MAX.
  pose proof (Z.mod_pos_bound (z + 2 ^ 31) (2 ^ 32)). lia.
Qed.

Lemma half_sum_ok (a b : Z) : Int.ok a → Int.ok b → Int.ok (a ÷ 2 + b ÷ 2).
Proof.
  unfold Int.ok, Int.MIN, Int.MAX. intros Ha Hb.
  Z.to_euclidean_division_equations. lia.
Qed.

Lemma score_ok (t : Thread) :
  Thread_ok t → score t = predict t ÷ 2 + lastTime t ÷ 2.
Proof.
  intros [_ Hp Hl _]. unfold score. apply wrap_ok. by apply half_sum_ok.
Qed.

Lemma truthy_b2z (b : bool) : truthy (Z.b2z b) = b.
Proof. by destruct b. Qed.

(** ** The list containers *)

Lemma Append_perm (x : ptr) (l : list ptr) : Append x l ≡ₚ x :: l.
Proof. unfold Append. by rewrite Permutation_app_comm. Qed.

Lemma Remove_subseteq (x : ptr) (l : list ptr) : Remove x l ⊆ l.
Proof.
  induction l as [|y l IH]; simpl; [done|].
  destruct (Pos.eqb_spec y x); set_solver.
Qed.

Lemma Remove_other (x y : ptr) (l : list ptr) :
  y ≠ x → y ∈ Remove x l ↔ y ∈ l.
Proof.
  intros Hne. induction l as [|z l IH]; simpl; [done|].
  destruct (Pos.eqb_spec z x) as [->|Hzx]; set_solver.
Qed.

Lemma Remove_NoDup (x : ptr) (l : list ptr) :
  NoDup l → NoDup (Remove x l) ∧ x ∉ Remove x l.
Proof.
  induction 1 as [|y l Hy Hl IH]; simpl.
  - split; [constructor | apply not_elem_of_nil].
  - destruct (Pos.eqb_spec y x) as [->|Hne]; [done|].
    destruct IH as [IH1 IH2]. split.
    + constructor; [|done]. intros ?%Remove_subseteq. done.
    + apply not_elem_of_cons. done.
Qed.

(** Where [SortedInsert] puts the item: behind a prefix of elements that
    it does not compare less than, and in front of one that it does (or
    at the tail). *)
Lemma SortedInsert_split compare item l l' :
  SortedInsert compare item l = Some l' →
  ∃ l1 l2, l = l1 ++ l2 ∧ l' = l1 ++ item :: l2 ∧
    (∀ x, x ∈ l1 → ∃ c, compare item x = Some c ∧ 0 <= c) ∧
    match l2 with
    | [] => True
    | y :: _ => ∃ c, compare item y = Some c ∧ c < 0
    end.
Proof.
  revert l'. induction l as [|x l IH]; simpl; intros l' H.
  - injection H as <-. exists [], []. repeat split; try done.
    by intros ? ?%elem_of_nil.
  - destruct (compare item x) as [c|] eqn:Hf; [|done].
    destruct (Z.ltb_spec c 0).
    + injection H as <-. exists [], (x :: l). repeat split; try done.
      * by intros ? ?%elem_of_nil.
      * by exists c.
    + destruct (SortedInsert compare item l) as [r|] eqn:Hr; [|done].
      injection H as <-.
      destruct (IH r eq_refl) as (l1 & l2 & -> & -> & H1 & H2).
      exists (x :: l1), l2. repeat split; try done.
      intros y [->|Hy]%elem_of_cons; [by exists c|auto].
Qed.

Lemma SortedInsert_perm compare item l l' :
  SortedInsert compare item l = Some l' → l' ≡ₚ item :: l.
Proof.
  intros (l1 & l2 & -> & -> & _)%SortedInsert_split.
  by rewrite Permutation_middle.
Qed.

Lemma SortedInsert_is_Some compare item l :
  (∀ x, x ∈ l → is_Some (compare item x)) →
  is_Some (SortedInsert compare item l).
Proof.
  induction l as [|x l IH]; simpl; intros H; [by eexists|].
  destruct (H x) as [c ->]; [by left|].
  destruct (c <? 0); [by eexists|].
  destruct IH as [r ->]; [|by eexists].
  intros y Hy. apply H. by right.
Qed.

(** With a comparison function that has no negative result the item goes
    to the tail. *)
Lemma SortedInsert_tail compare item l l' :
  (∀ x c, compare item x = Some c → 0 <= c) →
  SortedInsert compare item l = Some l' → l' = l ++ [item].
Proof.
  intros Hc (l1 & l2 & -> & -> & _ & H2)%SortedInsert_split.
  destruct l2 as [|y l2]; [by rewrite app_nil_r|].
  destruct H2 as (c & Hy & Hneg). apply Hc in Hy. lia.
Qed.

Lemma compare_at_is_Some cmp h item x :
  is_Some (h !! item) → is_Some (h !! x) → is_Some (compare_at cmp h item x).
Proof. intros [a Ha] [b Hb]. unfold compare_at. rewrite Ha, Hb. by eexists. Qed.

Lemma cmpPredict_nonneg a b : 0 <= cmpPredict a b.
Proof. unfold cmpPredict. by destruct (_ <? _). Qed.

Lemma cmpPriority_nonneg a b : 0 <= cmpPriority a b.
Proof. unfold cmpPriority. by destruct (_ <? _). Qed.

Lemma compare_at_nonneg cmp h item x c :
  (∀ a b, 0 <= cmp a b) → compare_at cmp h item x = Some c → 0 <= c.
Proof.
  intros Hc. unfold compare_at.
  destruct (h !! item), (h !! x); try done. by intros [= <-].
Qed.

(** ** Running the monad *)

Lemma bind_Ok {A B} (m : M A) (f : A → M B) k r :
  bind m f k = Ok r ↔ ∃ a k1, m k = Ok (a, k1) ∧ f a k1 = Ok r.
Proof.
  unfold bind. split.
  - destruct (m k) as [[a k1]| |]; [|done..]. eauto.
  - intros (a & k1 & -> & H). done.
Qed.

Lemma bind_eq {A B} (m : M A) (f : A → M B) k a k1 :
  m k = Ok (a, k1) → bind m f k = f a k1.
Proof. unfold bind. by intros ->. Qed.

Lemma deref_eq t k th : threads k !! t = Some th → deref t k = Ok (th, k).
Proof. unfold deref. by intros ->. Qed.

Lemma update_eq t f k th :
  threads k !! t = Some th →
  update t f k = Ok (tt, with_threads (insert t (f th)) k).
Proof. intros H. unfold update. by rewrite (bind_eq _ _ _ _ _ (deref_eq _ _ _ H)). Qed.

Lemma getID_eq t k th : threads k !! t = Some th → getID t k = Ok (ID th, k).
Proof. intros H. unfold getID. by rewrite (bind_eq _ _ _ _ _ (deref_eq _ _ _ H)). Qed.

Lemma getPriority_eq t k th :
  threads k !! t = Some th → getPriority t k = Ok (priority th, k).
Proof. intros H. unfold getPriority. by rewrite (bind_eq _ _ _ _ _ (deref_eq _ _ _ H)). Qed.

Lemma getPredict_eq t k th :
  threads k !! t = Some th → getPredict t k = Ok (predict th, k).
Proof. intros H. unfold getPredict. by rewrite (bind_eq _ _ _ _ _ (deref_eq _ _ _ H)). Qed.

Lemma getLastTime_eq t k th :
  threads k !! t = Some th → getLastTime t k = Ok (lastTime th, k).
Proof. intros H. unfold getLastTime. by rewrite (bind_eq _ _ _ _ _ (deref_eq _ _ _ H)). Qed.

Lemma getAgingCount_eq t k th :
  threads k !! t = Some th → getAgingCount t k = Ok (agingCount th, k).
Proof. intros H. unfold getAgingCount. by rewrite (bind_eq _ _ _ _ _ (deref_eq _ _ _ H)). Qed.

(** [run_lookup] finds the thread behind a pointer in the current state,
    [run_step] runs the first command of a sequence, [run] as many as it
    can. *)
Ltac run_lookup :=
  cbn; first [ eassumption | apply lookup_insert_eq ].

Ltac run_step :=
  first
    [ eapply deref_eq; run_lookup
    | eapply getID_eq; run_lookup
    | eapply getPriority_eq; run_lookup
    | eapply getPredict_eq; run_lookup
    | eapply getLastTime_eq; run_lookup
    | eapply getAgingCount_eq; run_lookup
    | eapply update_eq; run_lookup
    | reflexivity ].

Ltac run := repeat (erewrite bind_eq by run_step).

(** ** One visit of [aging] *)

Lemma with_threads_insert_insert t a b k :
  with_threads (insert t a) (with_threads (insert t b) k) =
  with_threads (insert t a) k.
Proof. unfold with_threads. cbn. by rewrite insert_insert_eq. Qed.

Lemma aging_visit_eq list now k th :
  threads k !! now = Some th →
  aging_visit list now k =
    if due (totalTicks k) th then
      (requeue list now (totalTicks k) (ID th) (priority (aged th)) ;;;
       ret true)
        (with_event (PriorityChanged (totalTicks k) (ID th)
                       (Int.wrap (priority (aged th) - 10)) (priority (aged th)))
           (with_threads (insert now (aged th)) k))
    else Ok (false, k).
Proof.
  intros H. unfold aging_visit, due. run.
  destruct (1500 <? _); [|done].
  unfold setAgingCount, setPriority. run.
  rewrite with_threads_insert_insert. unfold aged. cbn.
  destruct (149 <? _); cbn; run; rewrite ?with_threads_insert_insert;
    unfold requeue; run; reflexivity.
Qed.

Lemma aging_body_eq list now k th :
  threads k !! now = Some th →
  aging_body list now k =
    if due (totalTicks k) th then
      requeue list now (totalTicks k) (ID th) (priority (aged th))
        (with_event (PriorityChanged (totalTicks k) (ID th)
                       (Int.wrap (priority (aged th) - 10)) (priority (aged th)))
           (with_threads (insert now (aged th)) k))
    else Ok (tt, k).
Proof.
  intros H. unfold aging_body, bind at 1. rewrite (aging_visit_eq _ _ _ _ H).
  destruct (due _ _); [|done].
  unfold bind. by destruct (requeue _ _ _ _ _ _) as [[[] ?]| |].
Qed.

(** ** Kernel state: projections of the updated state *)

Lemma queue_with_queue (q q' : Queue) l k :
  queue q' (with_queue q l k) = if decide (q' = q) then l else queue q' k.
Proof. by destruct q, q'. Qed.

Lemma queue_with_event q e k : queue q (with_event e k) = queue q k.
Proof. by destruct q. Qed.

Lemma queue_with_threads q f k : queue q (with_threads f k) = queue q k.
Proof. by destruct q. Qed.

Lemma threads_with_queue q l k : threads (with_queue q l k) = threads k.
Proof. by destruct q. Qed.

Lemma same_control_trans k1 k2 k3 :
  same_control k1 k2 → same_control k2 k3 → same_control k1 k3.
Proof. intros [] []. constructor; congruence. Qed.

(** ** Where [aging] puts a thread back *)

Lemma placed_perm d h now l l' : placed d h now l l' → l' ≡ₚ now :: l.
Proof.
  destruct d; simpl.
  - apply SortedInsert_perm.
  - apply SortedInsert_perm.
  - intros ->. apply Append_perm.
Qed.

(** [cmpPredict] and [cmpPriority] have no negative result: in each of
    the three queues the thread is put at the tail. *)
Lemma placed_tail d h now l l' : placed d h now l l' → l' = l ++ [now].
Proof.
  destruct d; simpl.
  - apply SortedInsert_tail. intros x c.
    apply compare_at_nonneg, cmpPredict_nonneg.
  - apply SortedInsert_tail. intros x c.
    apply compare_at_nonneg, cmpPriority_nonneg.
  - done.
Qed.

Lemma L1_Insert_Ok t k k' :
  L1_Insert t k = Ok (tt, k') →
  ∃ l, SortedInsert (compare_at cmpPredict (threads k)) t (L1 k) = Some l ∧
       k' = with_queue QL1 l k.
Proof.
  unfold L1_Insert. destruct (SortedInsert _ _ _) as [l|]; [|done].
  intros [= <-]. eauto.
Qed.

Lemma L2_Insert_Ok t k k' :
  L2_Insert t k = Ok (tt, k') →
  ∃ l, SortedInsert (compare_at cmpPriority (threads k)) t (L2 k) = Some l ∧
       k' = with_queue QL2 l k.
Proof.
  unfold L2_Insert. destruct (SortedInsert _ _ _) as [l|]; [|done].
  intros [= <-]. eauto.
Qed.

Lemma requeue_Ok list now ticks id p k k' :
  requeue list now ticks id p k = Ok (tt, k') →
  let k1 := with_queue list (Remove now (queue list k)) k in
  threads k' = threads k ∧ same_control k k' ∧
  (∀ q, q ≠ dest p → queue q k' = queue q k1) ∧
  placed (dest p) (threads k) now (queue (dest p) k1) (queue (dest p) k').
Proof.
  unfold requeue, dest. run. unfold list_Remove.
  destruct (99 <? p); [|destruct (49 <? p)].
  - destruct (negb _); unfold when; run; cbn [ret];
      intros (l & Hl & ->)%L1_Insert_Ok;
      (split; [by destruct list|]); (split; [by destruct list|]);
      (split; [by intros [] ?; destruct list|]);
      by destruct list.
  - destruct (negb _); unfold when; run; cbn [ret];
      intros (l & Hl & ->)%L2_Insert_Ok;
      (split; [by destruct list|]); (split; [by destruct list|]);
      (split; [by intros [] ?; destruct list|]);
      by destruct list.
  - unfold L3_Append. intros [= <-].
    (split; [by destruct list|]); (split; [by destruct list|]);
      (split; [by intros [] ?; destruct list|]);
      by destruct list.
Qed.

Lemma requeue_total list now ticks id p k :
  is_Some (threads k !! now) →
  (∀ q t, t ∈ queue q k → is_Some (threads k !! t)) →
  ∃ k', requeue list now ticks id p k = Ok (tt, k').
Proof.
  intros Hnow Halive. unfold requeue, dest. run. unfold list_Remove.
  set (k1 := with_queue list _ k).
  assert (Hk1 : ∀ q t, t ∈ queue q k1 → is_Some (threads k !! t)).
  { intros q t. unfold k1. rewrite queue_with_queue.
    case_decide as Hq; [subst q|by apply Halive].
    intros ?%Remove_subseteq. by eapply Halive. }
  assert (Ht1 : threads k1 = threads k) by apply threads_with_queue.
  destruct (99 <? p); [|destruct (49 <? p)].
  - assert (H1 : ∀ k2, threads k2 = threads k → L1 k2 = L1 k1 →
                 ∃ k', L1_Insert now k2 = Ok (tt, k')).
    { intros k2 Ht Hl. unfold L1_Insert. rewrite Ht, Hl.
      destruct (SortedInsert_is_Some (compare_at cmpPredict (threads k)) now (L1 k1)) as [l ->].
      - intros x Hx. apply compare_at_is_Some; [done|]. by apply (Hk1 QL1).
      - by eexists. }
    destruct (negb _); unfold when; run; cbn [ret]; apply H1; done.
  - assert (H2 : ∀ k2, threads k2 = threads k → L2 k2 = L2 k1 →
                 ∃ k', L2_Insert now k2 = Ok (tt, k')).
    { intros k2 Ht Hl. unfold L2_Insert. rewrite Ht, Hl.
      destruct (SortedInsert_is_Some (compare_at cmpPriority (threads k)) now (L2 k1)) as [l ->].
      - intros x Hx. apply compare_at_is_Some; [done|]. by apply (Hk1 QL2).
      - by eexists. }
    destruct (negb _); unfold when; run; cbn [ret]; apply H2; done.
  - by eexists.
Qed.

Lemma requeue_moved list now ticks id p k k' :
  requeue list now ticks id p k = Ok (tt, k') → moved list now (dest p) k k'.
Proof. intros (? & ? & ? & ?)%requeue_Ok. by constructor. Qed.

Section Moved.

Context (list : Queue) (now : ptr) (d : Queue) (k k' : Kernel).
Hypothesis Hmv : moved list now d k k'.
Hypothesis Hnodup : ∀ q, NoDup (queue q k).
Hypothesis Hhome : ∀ q, now ∈ queue q k → q = list.

Lemma moved_without q t :
  t ∈ queue q (with_queue list (Remove now (queue list k)) k) ↔
  t ≠ now ∧ t ∈ queue q k.
Proof.
  rewrite queue_with_queue. case_decide as Hq.
  - subst q. destruct (Remove_NoDup now _ (Hnodup list)) as [_ Hn].
    split.
    + intros Ht. split; [by intros ->|]. by apply Remove_subseteq in Ht.
    + intros [Hne Ht]. by apply Remove_other.
  - split; [|by intros [_ ?]].
    intros Ht. split; [|done]. intros ->. by apply Hq, Hhome.
Qed.

Lemma moved_elem_of q t :
  t ∈ queue q k' ↔ (t = now ∧ q = d) ∨ (t ≠ now ∧ t ∈ queue q k).
Proof.
  destruct (decide (q = d)) as [->|Hq].
  - rewrite (placed_perm _ _ _ _ _ (mv_placed _ _ _ _ _ Hmv)).
    rewrite elem_of_cons, moved_without. naive_solver.
  - rewrite (mv_others _ _ _ _ _ Hmv q Hq), moved_without. naive_solver.
Qed.

Lemma moved_NoDup q : NoDup (queue q k').
Proof.
  assert (Hrest : ∀ q', NoDup (queue q' (with_queue list (Remove now (queue list k)) k))).
  { intros q'. rewrite queue_with_queue. case_decide; [|done].
    by apply Remove_NoDup. }
  destruct (decide (q = d)) as [->|Hq].
  - rewrite (placed_perm _ _ _ _ _ (mv_placed _ _ _ _ _ Hmv)).
    constructor; [|done]. rewrite moved_without. naive_solver.
  - by rewrite (mv_others _ _ _ _ _ Hmv q Hq).
Qed.

End Moved.

(** ** The invariant of the ready queues *)

Lemma Inv_home k t q q' :
  Inv k → t ∈ queue q k → t ∈ queue q' k → q' = q.
Proof.
  intros HI Hq Hq'. destruct (inv_alive _ HI _ _ Hq) as [th Hth].
  pose proof (inv_band _ HI _ _ _ Hq Hth).
  pose proof (inv_band _ HI _ _ _ Hq' Hth). congruence.
Qed.

(** The scheduler starts in a state that satisfies the invariant. *)
Lemma Scheduler_Inv k :
  Int.ok (totalTicks k) →
  (∀ t th, threads k !! t = Some th → Thread_ok th) →
  ∃ k', Scheduler k = Ok (tt, k') ∧ Inv k' ∧
        L1 k' = [] ∧ L2 k' = [] ∧ L3 k' = [] ∧ toBeDestroyed k' = None.
Proof.
  intros Hticks Hok. eexists. split; [reflexivity|]. split; [|done].
  constructor; try done.
  - intros []; constructor.
  - by intros [] t ?%elem_of_nil.
  - by intros [] t th ?%elem_of_nil.
Qed.

Lemma aged_priority_le (th : Thread) : priority (aged th) <= 149.
Proof.
  unfold aged. cbn. destruct (149 <? _) eqn:E; cbn; lia.
Qed.

Lemma band_aged (th : Thread) :
  band (priority (aged th)) = Some (dest (priority (aged th))).
Proof.
  pose proof (aged_priority_le th). unfold band, dest.
  repeat case_match; lia || done.
Qed.

Lemma aged_ok (th : Thread) : Thread_ok th → Thread_ok (aged th).
Proof.
  intros []. unfold aged. cbn.
  destruct (149 <? _); constructor; cbn;
    try done; try apply wrap_is_ok; unfold Int.ok, Int.MIN, Int.MAX; lia.
Qed.

Lemma aging_body_step list now k th :
  Inv k → now ∈ queue list k → threads k !! now = Some th →
  ∃ k', aging_body list now k = Ok (tt, k') ∧
    Inv k' ∧ same_control k k' ∧
    threads k' = <[now := visit (totalTicks k) th]> (threads k) ∧
    (∀ q t, t ∈ queue q k' ↔
       (t = now ∧ q = visit_queue list (totalTicks k) th) ∨
       (t ≠ now ∧ t ∈ queue q k)) ∧
    (if due (totalTicks k) th
     then ∃ km, queue list km = queue list k ∧
                threads km = <[now := aged th]> (threads k) ∧
                (∀ q, queue q km = queue q k) ∧
                moved list now (dest (priority (aged th))) km k'
     else k' = k).
Proof.
  intros HI Hnow Hth. rewrite (aging_body_eq _ _ _ _ Hth).
  unfold visit, visit_queue. destruct (due _ _) eqn:Hdue.
  - set (km := with_event _ _).
    assert (Hkq : ∀ q, queue q km = queue q k) by (by intros []).
    assert (Hkt : threads km = <[now := aged th]> (threads k)) by done.
    destruct (requeue_total list now (totalTicks k) (ID th)
                (priority (aged th)) km) as [k' Hk'].
    { rewrite Hkt, lookup_insert_eq. by eexists. }
    { intros q t. rewrite Hkq, Hkt. intros Ht.
      destruct (decide (now = t)) as [->|Hne].
      - rewrite lookup_insert_eq. by eexists.
      - rewrite lookup_insert_ne by done. by eapply inv_alive. }
    exists k'. split; [done|].
    apply requeue_moved in Hk'.
    assert (Hel : ∀ q t, t ∈ queue q k' ↔
       (t = now ∧ q = dest (priority (aged th))) ∨ (t ≠ now ∧ t ∈ queue q k)).
    { intros q t. rewrite <- Hkq. eapply moved_elem_of; [done| |].
      - intros q'. rewrite Hkq. by apply inv_NoDup.
      - intros q'. rewrite Hkq. intros. by eapply Inv_home. }
    assert (Hsc : same_control k k').
    { eapply same_control_trans; [|by apply Hk']. done. }
    assert (Ht' : threads k' = <[now := aged th]> (threads k)).
    { by rewrite (mv_threads _ _ _ _ _ Hk'). }
    assert (HI' : Inv k').
    { constructor.
      - rewrite (sc_totalTicks _ _ Hsc). by apply inv_ticks.
      - intros t th'. rewrite Ht'. destruct (decide (now = t)) as [->|Hne].
        + rewrite lookup_insert_eq. intros [= <-]. apply aged_ok.
          by eapply inv_threads.
        + rewrite lookup_insert_ne by done. by eapply inv_threads.
      - intros q. eapply moved_NoDup; [done| |].
        + intros q'. rewrite Hkq. by apply inv_NoDup.
        + intros q'. rewrite Hkq. intros. by eapply Inv_home.
      - intros q t. rewrite Hel, Ht'. intros [[-> ->]|[Hne Ht]].
        + rewrite lookup_insert_eq. by eexists.
        + rewrite lookup_insert_ne by done. by eapply inv_alive.
      - intros q t th'. rewrite Hel, Ht'. intros [[-> ->]|[Hne Ht]].
        + rewrite lookup_insert_eq. intros [= <-]. apply band_aged.
        + rewrite lookup_insert_ne by done. by eapply inv_band. }
    split; [done|]. split; [done|]. split; [done|]. split; [done|].
    by exists km.
  - exists k. split; [done|]. split; [done|]. split; [done|].
    split; [by rewrite insert_id|]. split; [|done].
    intros q t. destruct (decide (t = now)) as [->|Hne].
    + split; [|naive_solver]. intros Hq. left. split; [done|].
      by eapply Inv_home.
    + naive_solver.
Qed.

(** ** A whole pass of [aging] *)

Lemma pass_start ql k0 : Inv k0 → pass ql k0 [] (queue ql k0) k0.
Proof.
  intros HI. constructor; done.
Qed.

Lemma pass_step ql k0 done now rest k1 :
  Inv k0 → pass ql k0 done (now :: rest) k1 →
  ∃ th k2, threads k0 !! now = Some th ∧ threads k1 !! now = Some th ∧
    aging_body ql now k1 = Ok (tt, k2) ∧
    visited ql now th k1 k2 ∧
    pass ql k0 (done ++ [now]) rest k2.
Proof.
  intros HI0 [HI Hsc Hsplit Hrest Hthr Hqs].
  assert (Hnd : NoDup (done ++ now :: rest)).
  { rewrite <- Hsplit. by apply inv_NoDup. }
  apply NoDup_app in Hnd as (Hnd1 & Hnd2 & Hnd3).
  apply NoDup_cons in Hnd3 as [Hnr Hnd3].
  assert (Hnow1 : now ∈ queue ql k1) by (apply Hrest; by left).
  assert (Hnd' : now ∉ done).
  { intros H. apply (Hnd2 _ H). by left. }
  destruct (inv_alive _ HI _ _ Hnow1) as [th Hth].
  assert (Hth0 : threads k0 !! now = Some th).
  { rewrite Hthr in Hth. by rewrite decide_False in Hth. }
  destruct (aging_body_step ql now k1 th HI Hnow1 Hth)
    as (k2 & Hrun & HI2 & Hsc2 & Ht2 & Hq2 & Hv).
  assert (Hticks : totalTicks k1 = totalTicks k0) by apply Hsc.
  exists th, k2. split; [done|]. split; [done|]. split; [done|]. split.
  { unfold visited. destruct (due _ _); [|done].
    destruct Hv as (km & _ & ? & ? & ?). by exists km. }
  constructor.
  - done.
  - by eapply same_control_trans.
  - by rewrite Hsplit, <- app_assoc.
  - intros t Ht. apply Hq2. right. split; [by intros ->|].
    apply Hrest. by right.
  - intros t. rewrite Ht2, Hticks. destruct (decide (now = t)) as [<-|Hne].
    + rewrite lookup_insert_eq, Hth0.
      rewrite decide_True; [done|]. apply elem_of_app. right. by left.
    + rewrite lookup_insert_ne, Hthr by done.
      destruct (decide (t ∈ done)) as [Hd|Hd].
      * rewrite decide_True; [done|]. apply elem_of_app. by left.
      * rewrite decide_False; [done|].
        intros [?|?%list_elem_of_singleton]%elem_of_app; congruence.
  - intros q t. rewrite Hq2, Hticks. destruct (decide (t = now)) as [->|Hne].
    + rewrite decide_True by (apply elem_of_app; right; by left).
      split.
      * intros [[_ ->]|[? _]]; [|done]. by exists th.
      * intros (th' & Hth' & ->). left. split; [done|]. congruence.
    + rewrite Hqs. destruct (decide (t ∈ done)) as [Hd|Hd].
      * rewrite decide_True by (apply elem_of_app; by left). naive_solver.
      * rewrite decide_False; [naive_solver|].
        intros [?|?%list_elem_of_singleton]%elem_of_app; congruence.
Qed.

(** *** The iterator *)

Lemma aging_visit_body list now k th k' :
  threads k !! now = Some th → aging_body list now k = Ok (tt, k') →
  aging_visit list now k = Ok (due (totalTicks k) th, k').
Proof.
  intros Hth. rewrite (aging_body_eq _ _ _ _ Hth), (aging_visit_eq _ _ _ _ Hth).
  destruct (due _ _); [|by intros [= <-]].
  unfold bind. by intros ->.
Qed.

Lemma behind_tail (x : ptr) (l : list ptr) : x ∉ l → behind x (l ++ [x]) = [].
Proof.
  induction l as [|y l IH]; simpl; intros Hx.
  - by rewrite Pos.eqb_refl.
  - apply not_elem_of_cons in Hx as [Hne Hx].
    destruct (Pos.eqb_spec y x); [congruence|]. by apply IH.
Qed.

(** The element that has just been put into a queue is its last one:
    [Next] finds nothing behind it. *)
Lemma behind_in_queue_tail k d l now :
  Inv k → queue d k = l ++ [now] → behind_in_queue now k = Ok ([], k).
Proof.
  intros HI Hq.
  assert (Hin : now ∈ queue d k).
  { rewrite Hq. apply elem_of_app. right. by left. }
  assert (Hnl : now ∉ l).
  { pose proof (inv_NoDup _ HI d) as Hnd. rewrite Hq in Hnd.
    apply NoDup_app in Hnd as (_ & Hnd & _). intros H. apply (Hnd _ H). by left. }
  assert (Hb : behind now (queue d k) = []) by (rewrite Hq; by apply behind_tail).
  unfold behind_in_queue, gets. f_equal. f_equal.
  destruct d; cbn [queue] in *.
  - by rewrite bool_decide_eq_true_2.
  - rewrite bool_decide_eq_false_2, bool_decide_eq_true_2; [done..|].
    intros H. by pose proof (Inv_home k now QL1 QL2 HI H Hin).
  - rewrite !bool_decide_eq_false_2; [done| |].
    + intros H. by pose proof (Inv_home k now QL2 QL3 HI H Hin).
    + intros H. by pose proof (Inv_home k now QL1 QL3 HI H Hin).
Qed.

Lemma visited_tail ql now th k1 k2 :
  visited ql now th k1 k2 → due (totalTicks k1) th = true →
  ∃ l, queue (dest (priority (aged th))) k2 = l ++ [now].
Proof.
  unfold visited. intros Hv Hdue. rewrite Hdue in Hv.
  destruct Hv as (km & _ & _ & Hmv).
  eexists. apply (placed_tail _ _ _ _ _ (mv_placed _ _ _ _ _ Hmv)).
Qed.

Lemma reached_split k l : l = reached k l ++ unreached k l.
Proof.
  unfold unreached. induction l as [|t l IH]; [done|]. simpl.
  destruct (is_due k t); simpl; [by rewrite drop_0|]. by rewrite <- IH.
Qed.

Lemma reached_elem k l t : t ∈ reached k l → t ∈ l.
Proof.
  intros H. rewrite (reached_split k l). apply elem_of_app. by left.
Qed.

(** A pass of [aging] on a state that satisfies the invariant: the loop
    goes through the residents that are not due and leaves the state as
    it is, up to the first resident that is due; it runs the body for
    that one, and ends, since the iterator stands on the last element of
    a queue then. *)
Lemma aging_run ql k0 :
  Inv k0 →
  ∃ k', aging ql k0 = Ok (tt, k') ∧ passed ql k0 k' ∧
    (((∀ t, t ∈ queue ql k0 → is_due k0 t = false) ∧ k' = k0) ∨
     (∃ front now rest th,
        queue ql k0 = front ++ now :: rest ∧
        (∀ t, t ∈ front → is_due k0 t = false) ∧
        threads k0 !! now = Some th ∧ due (totalTicks k0) th = true ∧
        aging_body ql now k0 = Ok (tt, k') ∧ visited ql now th k0 k')).
Proof.
  intros HI0. unfold aging, passed. run.
  assert (Hgen : ∀ rest done fuel,
    pass ql k0 done rest k0 → (∀ t, t ∈ done → is_due k0 t = false) →
    (length rest ≤ fuel)%nat →
    ∃ k', aging_loop fuel rest ql k0 = Ok (tt, k') ∧
          pass ql k0 (done ++ reached k0 rest) (unreached k0 rest) k' ∧
          (((∀ t, t ∈ done ++ rest → is_due k0 t = false) ∧ k' = k0) ∨
           (∃ front now rest' th,
              done ++ rest = front ++ now :: rest' ∧
              (∀ t, t ∈ front → is_due k0 t = false) ∧
              threads k0 !! now = Some th ∧ due (totalTicks k0) th = true ∧
              aging_body ql now k0 = Ok (tt, k') ∧ visited ql now th k0 k'))).
  { induction rest as [|now rest IH]; intros done fuel Hp Hnd Hfuel.
    - exists k0. rewrite !app_nil_r. split; [by destruct fuel|].
      split; [done|]. by left.
    - destruct fuel as [|fuel]; [cbn in Hfuel; lia|].
      destruct (pass_step _ _ _ _ _ _ HI0 Hp)
        as (th & k2 & Hth0 & _ & Hrun & Hv & Hp2).
      pose proof (aging_visit_body _ _ _ _ _ Hth0 Hrun) as Hvis.
      cbn [aging_loop reached]. rewrite (bind_eq _ _ _ _ _ Hvis).
      unfold is_due at 1 2. rewrite Hth0.
      destruct (due (totalTicks k0) th) eqn:Hdue.
      + destruct (visited_tail _ _ _ _ _ Hv Hdue) as [l Hl].
        rewrite (bind_eq _ _ _ _ _
                   (behind_in_queue_tail _ _ _ _ (pass_Inv _ _ _ _ _ Hp2) Hl)).
        exists k2. split; [by destruct fuel|]. split.
        * unfold unreached. cbn [reached]. unfold is_due. rewrite Hth0, Hdue.
          cbn [length drop]. by rewrite drop_0.
        * right. by exists done, now, rest, th.
      + assert (k2 = k0) as ->.
        { unfold visited in Hv. by rewrite Hdue in Hv. }
        assert (Hb : (cells <- ret rest ;; aging_loop fuel cells ql) k0 =
                     aging_loop fuel rest ql k0) by done.
        rewrite Hb.
        destruct (IH (done ++ [now]) fuel Hp2) as (k' & Hk' & Hp' & Hc).
        { intros t [?|Ht]%elem_of_app; [by apply Hnd|].
          apply list_elem_of_singleton in Ht as ->.
          unfold is_due. by rewrite Hth0. }
        { cbn in Hfuel. lia. }
        exists k'. split; [done|]. split.
        * unfold unreached. cbn [reached]. unfold is_due. rewrite Hth0, Hdue.
          cbn [length drop]. fold (unreached k0 rest).
          by rewrite <- !(assoc_L (++)) in Hp'.
        * by rewrite <- !(assoc_L (++)) in Hc. }
  destruct (Hgen (queue ql k0) [] (length (queue ql k0))) as (k' & ? & ? & ?);
    [by apply pass_start|by intros ? ?%elem_of_nil|done|].
  by exists k'.
Qed.

(** ** The choice of [FindNextToRun] *)

Ltac inv_bind H :=
  let a := fresh "a" in
  let k := fresh "k" in
  let E := fresh "E" in
  apply bind_Ok in H as (a & k & E & H).

Lemma deref_Ok t k th k' :
  deref t k = Ok (th, k') → threads k !! t = Some th ∧ k' = k.
Proof. unfold deref. destruct (threads k !! t); [|done]. by intros [= -> ->]. Qed.

Lemma getID_Ok t k i k' :
  getID t k = Ok (i, k') → ∃ th, threads k !! t = Some th ∧ i = ID th ∧ k' = k.
Proof.
  unfold getID. intros H. inv_bind H. apply deref_Ok in E as [? ->].
  injection H as <- <-. eauto.
Qed.

Lemma RemoveFront_eq q k x rest :
  queue q k = x :: rest → RemoveFront q k = Ok (x, with_queue q rest k).
Proof. unfold RemoveFront. by intros ->. Qed.

Lemma FindNextToRun_Ok k r k' :
  FindNextToRun k = Ok (r, k') →
  level k = IntOff ∧
  ∃ k1 k2 k3, aging QL1 k = Ok (tt, k1) ∧ aging QL2 k1 = Ok (tt, k2) ∧
    aging QL3 k2 = Ok (tt, k3) ∧ chosen k3 r k'.
Proof.
  unfold FindNextToRun. run. destruct (level k) eqn:Hlv; [|done].
  run. intros H. split; [done|].
  apply bind_Ok in H as ([] & k1 & Ha1 & H).
  apply bind_Ok in H as ([] & k2 & Ha2 & H).
  apply bind_Ok in H as ([] & k3 & Ha3 & H).
  exists k1, k2, k3. split; [done|]. split; [done|]. split; [done|].
  revert H. run. unfold chosen. cbn [queue].
  destruct (L1 k3) as [|t1 l1] eqn:HL1; cbn [negb].
  - run. cbn [queue]. destruct (L2 k3) as [|t2 l2] eqn:HL2; cbn [negb].
    + run. cbn [queue]. destruct (L3 k3) as [|t3 l3] eqn:HL3; cbn [negb].
      * by intros [= <- <-].
      * run. erewrite bind_eq by (apply RemoveFront_eq; cbn; eassumption).
        intros H. inv_bind H. apply getID_Ok in E as (th & Hth & -> & ->).
        cbn in Hth. exists th. split; [done|].
        revert H. unfold setLastTime. run. by intros [= <- <-].
    + run. erewrite bind_eq by (apply RemoveFront_eq; cbn; eassumption).
      intros H. inv_bind H. apply getID_Ok in E as (th & Hth & -> & ->).
      cbn in Hth. exists th. split; [done|].
      revert H. unfold setLastTime. run. by intros [= <- <-].
  - run. erewrite bind_eq by (apply RemoveFront_eq; cbn; eassumption).
    intros H. inv_bind H. apply getID_Ok in E as (th & Hth & -> & ->).
    cbn in Hth. exists th. split; [done|].
    revert H. unfold setLastTime, setPredict. run.
    rewrite with_threads_insert_insert. by intros [= <- <-].
Qed.

(** ** What [ReadyToRun] does *)

Lemma update_Ok t f k k' :
  update t f k = Ok (tt, k') →
  ∃ th, threads k !! t = Some th ∧ k' = with_threads (insert t (f th)) k.
Proof.
  unfold update. intros H. inv_bind H. apply deref_Ok in E as [? ->].
  injection H as <-. eauto.
Qed.

Lemma ReadyToRun_Ok t k k' :
  ReadyToRun t k = Ok (tt, k') →
  level k = IntOff ∧ ∃ th, threads k !! t = Some th ∧ readied t th k k'.
Proof.
  unfold ReadyToRun. run. destruct (level k) eqn:Hlv; [|done]. run.
  intros H. split; [done|].
  apply bind_Ok in H as ([] & k1 & (th & Hth & ->)%update_Ok & H).
  exists th. split; [done|]. revert H.
  unfold setAgingCount. run. rewrite with_threads_insert_insert.
  cbn [priority Thread_setAgingCount Thread_setStatus ID].
  fold (stamped (totalTicks k) th).
  destruct (priority th <? 50) eqn:E50; [|destruct (priority th <? 100) eqn:E100;
    [|destruct (priority th <? 150) eqn:E150]].
  - run. unfold L3_Append. intros [= <-].
    constructor; unfold band; rewrite ?E50; try done.
    split; [by intros [] ?|done].
  - run. intros (l & Hl & ->)%L2_Insert_Ok.
    constructor; unfold band; rewrite ?E50, ?E100; try done.
    split; [by intros [] ?|done].
  - run. intros H. apply bind_Ok in H as ([] & k1 & (l & Hl & ->)%L1_Insert_Ok & H).
    revert H. run. intros H.
    apply bind_Ok in H as (cp & k1 & E & H).
    unfold getPriority in E. apply bind_Ok in E as (cur & k2 & [Hcur ->]%deref_Ok & E).
    injection E as <- <-. revert H. run.
    cbn in Hcur. fold (stamped (totalTicks k) th) in Hcur |- *.
    fold (preempts (stamped (totalTicks k) th) cur). unfold when.
    destruct (preempts _ _) eqn:Hp; intros [= <-];
      (constructor; unfold band; rewrite ?E50, ?E100, ?E150; try done;
       [split; [by intros [] ?|done] | exists cur; by rewrite Hp]).
  - intros [= <-]. constructor; unfold band; rewrite ?E50, ?E100, ?E150; done.
Qed.

Lemma L1_Insert_total t k :
  is_Some (threads k !! t) → (∀ x, x ∈ L1 k → is_Some (threads k !! x)) →
  ∃ l, L1_Insert t k = Ok (tt, with_queue QL1 l k).
Proof.
  intros Ht Hl. unfold L1_Insert.
  destruct (SortedInsert_is_Some (compare_at cmpPredict (threads k)) t (L1 k)) as [l ->].
  - intros x Hx. apply compare_at_is_Some; auto.
  - by exists l.
Qed.

Lemma L2_Insert_total t k :
  is_Some (threads k !! t) → (∀ x, x ∈ L2 k → is_Some (threads k !! x)) →
  ∃ l, L2_Insert t k = Ok (tt, with_queue QL2 l k).
Proof.
  intros Ht Hl. unfold L2_Insert.
  destruct (SortedInsert_is_Some (compare_at cmpPriority (threads k)) t (L2 k)) as [l ->].
  - intros x Hx. apply compare_at_is_Some; auto.
  - by exists l.
Qed.

Lemma ReadyToRun_total t k th :
  level k = IntOff → threads k !! t = Some th →
  (∀ q x, x ∈ queue q k → is_Some (threads k !! x)) →
  (band (priority th) = Some QL1 → is_Some (threads k !! currentThread k)) →
  ∃ k', ReadyToRun t k = Ok (tt, k').
Proof.
  intros Hlv Hth Halive Hcur. unfold ReadyToRun. run. rewrite Hlv.
  unfold setStatus, setAgingCount. run. rewrite with_threads_insert_insert.
  cbn [priority Thread_setAgingCount Thread_setStatus ID].
  assert (Hal : ∀ v x, is_Some (threads k !! x) → is_Some (<[t := v]> (threads k) !! x)).
  { intros v x Hx. apply lookup_insert_is_Some'. by right. }
  assert (Ht : ∀ v, is_Some (<[t := v]> (threads k) !! t)).
  { intros v. apply lookup_insert_is_Some'. by left. }
  unfold band in Hcur.
  destruct (priority th <? 50); [|destruct (priority th <? 100);
    [|destruct (priority th <? 150)]].
  - run. by eexists.
  - run. edestruct L2_Insert_total as [l Hl]; [| |eexists; apply Hl].
    + apply Ht.
    + intros x Hx. apply Hal. by apply (Halive QL2).
  - run. edestruct L1_Insert_total as [l Hl]; [| |rewrite (bind_eq _ _ _ _ _ Hl)].
    + apply Ht.
    + intros x Hx. apply Hal. by apply (Halive QL1).
    + run. destruct (Hal (Thread_setAgingCount (totalTicks k) (Thread_setStatus READY th))
                  (currentThread k) (Hcur eq_refl)) as [cur Hc].
      unfold getPriority. run. unfold when. destruct (_ && _); by eexists.
  - by eexists.
Qed.

(** ** The invariant can be checked on a given state *)

Lemma Inv_check_Inv k : Inv_check k ↔ Inv k.
Proof.
  unfold Inv_check. split.
  - intros (Ht & Hth & Hq).
    assert (Hq' : ∀ q, NoDup (queue q k) ∧ Forall (in_band k q) (queue q k)).
    { rewrite Forall_forall in Hq. intros q. apply Hq.
      destruct q; repeat constructor. }
    constructor; [done|done| | |].
    + intros q. apply Hq'.
    + intros q t Hin. destruct (Hq' q) as [_ Hb].
      rewrite Forall_forall in Hb. specialize (Hb _ Hin).
      unfold in_band in Hb. by destruct (threads k !! t).
    + intros q t th Hin Hth'. destruct (Hq' q) as [_ Hb].
      rewrite Forall_forall in Hb. specialize (Hb _ Hin).
      unfold in_band in Hb. by rewrite Hth' in Hb.
  - intros [Ht Hth Hnd Hal Hb]. split; [done|]. split; [done|].
    rewrite Forall_forall. intros q _. split; [done|].
    rewrite Forall_forall. intros t Hin. unfold in_band.
    destruct (Hal _ _ Hin) as [th Hth']. rewrite Hth'. by eapply Hb.
Qed.

(** ** [FindNextToRun] on a state that satisfies the invariant *)

Lemma threads_with_threads f k : threads (with_threads f k) = f (threads k).
Proof. done. Qed.

Lemma aging_Inv ql k :
  Inv k → ∃ k', aging ql k = Ok (tt, k') ∧ passed ql k k'.
Proof.
  intros HI. destruct (aging_run ql k HI) as (k' & ? & ? & _). by exists k'.
Qed.

Lemma taken_Inv q t th rest k :
  Inv k → queue q k = t :: rest → threads k !! t = Some th →
  Inv (taken q t th rest k).
Proof.
  intros HI Hq Hth.
  assert (Hqs : ∀ q' x, x ∈ queue q' (taken q t th rest k) → x ∈ queue q' k).
  { intros q' x. unfold taken. rewrite queue_with_threads, queue_with_event,
      queue_with_queue. case_decide as E.
    - subst q'. rewrite Hq. by right.
    - by destruct q'. }
  assert (Hpr : ∀ x th', threads (taken q t th rest k) !! x = Some th' →
            ∃ th0, threads k !! x = Some th0 ∧ priority th' = priority th0 ∧
                   (Thread_ok th0 → Thread_ok th')).
  { intros x th'. unfold taken. rewrite threads_with_threads.
    destruct (decide (t = x)) as [->|Hne].
    - rewrite lookup_insert_eq. intros [= <-]. exists th. split; [done|].
      split; [by destruct q|]. intros []. destruct q; constructor; cbn;
        try done; try apply wrap_is_ok; unfold Int.ok, Int.MIN, Int.MAX; lia.
    - rewrite lookup_insert_ne by done.
      replace (threads (with_event _ _)) with (threads k) by (by destruct q).
      intros ?. by eexists. }
  constructor.
  - replace (totalTicks (taken q t th rest k)) with (totalTicks k)
      by (by destruct q). by apply inv_ticks.
  - intros x th' (th0 & Hth0 & _ & Hok)%Hpr. apply Hok. by eapply inv_threads.
  - intros q'. unfold taken. rewrite queue_with_threads, queue_with_event,
      queue_with_queue. pose proof (inv_NoDup _ HI q) as Hnd. rewrite Hq in Hnd.
    apply NoDup_cons in Hnd as [_ Hnd].
    case_decide; [done|]. replace (queue q' (with_roundRobin _ k)) with (queue q' k)
      by (by destruct q'). by apply inv_NoDup.
  - intros q' x Hx%Hqs. destruct (inv_alive _ HI _ _ Hx) as [th0 Hth0].
    unfold taken. rewrite threads_with_threads.
    apply lookup_insert_is_Some'. right.
    replace (threads (with_event _ _)) with (threads k) by (by destruct q).
    by eexists.
  - intros q' x th' Hx%Hqs (th0 & Hth0 & -> & _)%Hpr. by eapply inv_band.
Qed.

Lemma chosen_total k :
  Inv k → ∃ r k', chosen k r k'.
Proof.
  intros HI. unfold chosen.
  destruct (L1 k) as [|t1 l1] eqn:E1; [destruct (L2 k) as [|t2 l2] eqn:E2;
    [destruct (L3 k) as [|t3 l3] eqn:E3|]|].
  - by eexists _, _.
  - destruct (inv_alive _ HI QL3 t3) as [th Hth]; [cbn; rewrite E3; by left|].
    by eexists _, _, th.
  - destruct (inv_alive _ HI QL2 t2) as [th Hth]; [cbn; rewrite E2; by left|].
    by eexists _, _, th.
  - destruct (inv_alive _ HI QL1 t1) as [th Hth]; [cbn; rewrite E1; by left|].
    by eexists _, _, th.
Qed.

Lemma chosen_Inv k r k' : Inv k → chosen k r k' → Inv k'.
Proof.
  intros HI. unfold chosen.
  destruct (L1 k) as [|t1 l1] eqn:E1; [destruct (L2 k) as [|t2 l2] eqn:E2;
    [destruct (L3 k) as [|t3 l3] eqn:E3|]|].
  - by intros [_ ->].
  - intros (th & Hth & _ & ->). by apply taken_Inv.
  - intros (th & Hth & _ & ->). by apply taken_Inv.
  - intros (th & Hth & _ & ->). by apply taken_Inv.
Qed.

Lemma chosen_run k r k' :
  chosen k r k' →
  (ticks <- gets totalTicks ;;
   e1 <- IsEmpty QL1 ;;
   if negb e1 then
     setRoundRobin false ;;;
     thread <- RemoveFront QL1 ;;
     id <- getID thread ;;
     printf (Removed ticks id QL1) ;;;
     p <- getPredict thread ;;
     l <- getLastTime thread ;;
     setPredict thread (Int.wrap (p ÷ 2 + l ÷ 2)) ;;;
     setLastTime thread 0 ;;;
     ret (Some thread)
   else
     e2 <- IsEmpty QL2 ;;
     if negb e2 then
       setRoundRobin false ;;;
       thread <- RemoveFront QL2 ;;
       id <- getID thread ;;
       printf (Removed ticks id QL2) ;;;
       setLastTime thread 0 ;;;
       ret (Some thread)
     else
       e3 <- IsEmpty QL3 ;;
       if negb e3 then
         setRoundRobin true ;;;
         thread <- RemoveFront QL3 ;;
         id <- getID thread ;;
         printf (Removed ticks id QL3) ;;;
         setLastTime thread 0 ;;;
         ret (Some thread)
       else ret None) k = Ok (r, k').
Proof.
  unfold chosen. run. cbn [queue].
  destruct (L1 k) as [|t1 l1] eqn:HL1; cbn [negb].
  - run. cbn [queue]. destruct (L2 k) as [|t2 l2] eqn:HL2; cbn [negb].
    + run. cbn [queue]. destruct (L3 k) as [|t3 l3] eqn:HL3; cbn [negb].
      * by intros [-> ->].
      * intros (th & Hth & -> & ->). run.
        erewrite bind_eq by (apply RemoveFront_eq; cbn; eassumption).
        unfold setLastTime. run. done.
    + intros (th & Hth & -> & ->). run.
      erewrite bind_eq by (apply RemoveFront_eq; cbn; eassumption).
      unfold setLastTime. run. done.
  - intros (th & Hth & -> & ->). run.
    erewrite bind_eq by (apply RemoveFront_eq; cbn; eassumption).
    unfold setLastTime, setPredict. run.
    by rewrite with_threads_insert_insert.
Qed.

(** [FindNextToRun] returns on every state that satisfies the invariant,
    with interrupts off. *)
Lemma FindNextToRun_Inv k :
  Inv k → level k = IntOff →
  ∃ k1 k2 k3 r k',
    aging QL1 k = Ok (tt, k1) ∧ passed QL1 k k1 ∧
    aging QL2 k1 = Ok (tt, k2) ∧ passed QL2 k1 k2 ∧
    aging QL3 k2 = Ok (tt, k3) ∧ passed QL3 k2 k3 ∧
    chosen k3 r k' ∧ FindNextToRun k = Ok (r, k') ∧ Inv k'.
Proof.
  intros HI Hlv.
  destruct (aging_Inv QL1 k HI) as (k1 & Ha1 & Hp1).
  destruct (aging_Inv QL2 k1 (pass_Inv _ _ _ _ _ Hp1)) as (k2 & Ha2 & Hp2).
  destruct (aging_Inv QL3 k2 (pass_Inv _ _ _ _ _ Hp2)) as (k3 & Ha3 & Hp3).
  destruct (chosen_total k3 (pass_Inv _ _ _ _ _ Hp3)) as (r & k' & Hc).
  exists k1, k2, k3, r, k'. repeat (split; [done|]). split.
  - unfold FindNextToRun. run. rewrite Hlv. run.
    rewrite (bind_eq _ _ _ _ _ Ha1), (bind_eq _ _ _ _ _ Ha2),
      (bind_eq _ _ _ _ _ Ha3).
    by apply chosen_run.
  - eapply chosen_Inv; [|done]. by eapply pass_Inv.
Qed.

(** ** Threads only move towards L1 *)

Lemma band_bounds p q :
  band p = Some q →
  match q with
  | QL1 => 100 <= p < 150
  | QL2 => 50 <= p < 100
  | QL3 => p < 50
  end.
Proof.
  unfold band. intros H. repeat case_match; simplify_eq; lia.
Qed.

Lemma aged_priority_eq (th : Thread) :
  Int.ok (priority th) → priority th < 150 →
  priority (aged th) = Z.min (priority th + 10) 149.
Proof.
  intros Hok Hlt. unfold aged. cbn.
  rewrite wrap_ok by (unfold Int.ok, Int.MIN, Int.MAX in *; lia).
  destruct (149 <? priority th + 10) eqn:E; cbn; lia.
Qed.

Lemma dest_aged_up (th : Thread) q :
  Thread_ok th → band (priority th) = Some q →
  rank (dest (priority (aged th))) <= rank q.
Proof.
  intros [Hok _ _ _] Hb%band_bounds.
  assert (Hlt : priority th < 150) by (destruct q; lia).
  rewrite (aged_priority_eq _ Hok Hlt). unfold dest, rank.
  destruct q;
    repeat match goal with
           | |- context [?a <? ?b] => destruct (Z.ltb_spec a b)
           end; lia.
Qed.

Lemma pass_up ql k k' q t :
  Inv k → passed ql k k' → t ∈ queue q k →
  ∃ q', t ∈ queue q' k' ∧ rank q' <= rank q.
Proof.
  intros HI Hp Ht.
  destruct (decide (t ∈ reached k (queue ql k))) as [Hin|Hin].
  - assert (q = ql) as ->.
    { apply reached_elem in Hin. by eapply Inv_home. }
    destruct (inv_alive _ HI _ _ Ht) as [th Hth].
    exists (visit_queue ql (totalTicks k) th). split.
    + apply (pass_queues _ _ _ _ _ Hp). rewrite decide_True by done. by exists th.
    + unfold visit_queue. destruct (due _ _); [|lia].
      apply dest_aged_up; [by eapply inv_threads | by eapply inv_band].
  - exists q. split; [|lia].
    apply (pass_queues _ _ _ _ _ Hp). by rewrite decide_False.
Qed.




Lemma chosen_cases k r k' :
  chosen k r k' →
  match r with
  | Some t =>
      ∃ q th rest, queue q k = t :: rest ∧ threads k !! t = Some th ∧
        k' = taken q t th rest k ∧ (∀ q', rank q' < rank q → queue q' k = [])
  | None => k' = k ∧ ∀ q, queue q k = []
  end.
Proof.
  unfold chosen.
  destruct (L1 k) as [|t1 l1] eqn:E1; [destruct (L2 k) as [|t2 l2] eqn:E2;
    [destruct (L3 k) as [|t3 l3] eqn:E3|]|].
  - intros [-> ->]. split; [done|]. by intros [].
  - intros (th & Hth & -> & ->). exists QL3, th, l3.
    repeat split; try done. intros []; cbn; done || lia.
  - intros (th & Hth & -> & ->). exists QL2, th, l2.
    repeat split; try done. intros []; cbn; done || lia.
  - intros (th & Hth & -> & ->). exists QL1, th, l1.
    repeat split; try done. intros []; cbn; done || lia.
Qed.

Lemma visit_burst ticks th :
  predict (visit ticks th) = predict th ∧ lastTime (visit ticks th) = lastTime th.
Proof.
  unfold visit, aged. destruct (due _ _); [|done]. cbn. by destruct (149 <? _).
Qed.

Lemma pass_burst ql k k' t th' :
  passed ql k k' → threads k' !! t = Some th' →
  ∃ th, threads k !! t = Some th ∧ predict th' = predict th ∧
        lastTime th' = lastTime th.
Proof.
  intros Hp. rewrite (pass_threads _ _ _ _ _ Hp). case_decide.
  - destruct (threads k !! t) as [th|]; [|done]. intros [= <-].
    exists th. split; [done|]. apply visit_burst.
  - intros ?. by exists th'.
Qed.

Lemma passes_burst k k1 k2 k3 t th' :
  passed QL1 k k1 → passed QL2 k1 k2 →
  passed QL3 k2 k3 → threads k3 !! t = Some th' →
  ∃ th, threads k !! t = Some th ∧ predict th' = predict th ∧
        lastTime th' = lastTime th.
Proof.
  intros Hp1 Hp2 Hp3 H3.
  destruct (pass_burst QL3 k2 k3 t th' Hp3 H3) as (th2 & H2 & Ep2 & El2).
  destruct (pass_burst QL2 k1 k2 t th2 Hp2 H2) as (th1 & H1 & Ep1 & El1).
  destruct (pass_burst QL1 k k1 t th1 Hp1 H1) as (th & Hth & Ep & El).
  exists th. split; [done|]. split; congruence.
Qed.

Lemma Inv_band_agrees k : Inv k → band_agrees k.
Proof.
  intros HI t th q Hq Hth.
  pose proof (inv_band _ HI _ _ _ Hq Hth) as Hb.
  assert (Hiff : ∀ q', t ∈ queue q' k ↔ q' = q).
  { intros q'. split; [by apply Inv_home | by intros ->]. }
  apply band_bounds in Hb.
  split; [|split].
  - rewrite (Hiff QL1). destruct q; split; (done || lia).
  - rewrite (Hiff QL2). destruct q; split; (done || lia).
  - rewrite (Hiff QL3). destruct q; split; (done || lia).
Qed.

Lemma readied_elem_of t th k k' q x :
  readied t th k k' →
  x ∈ queue q k' ↔ (x = t ∧ band (priority th) = Some q) ∨ x ∈ queue q k.
Proof.
  intros Hr. pose proof (rd_queues _ _ _ _ Hr) as Hq.
  destruct (band (priority th)) as [q0|].
  - destruct Hq as [Ho Hp]. destruct (decide (q = q0)) as [->|Hne].
    + rewrite (placed_perm _ _ _ _ _ Hp), elem_of_cons. naive_solver.
    + rewrite (Ho _ Hne). naive_solver.
  - rewrite Hq. naive_solver.
Qed.

Lemma readied_Inv t th k k' :
  Inv k → threads k !! t = Some th → (∀ q, t ∉ queue q k) →
  readied t th k k' → Inv k'.
Proof.
  intros HI Hth Hfresh Hr.
  pose proof (rd_threads _ _ _ _ Hr) as Ht'.
  constructor.
  - rewrite (rd_totalTicks _ _ _ _ Hr). by apply inv_ticks.
  - intros x thx. rewrite Ht'. destruct (decide (t = x)) as [->|Hne].
    + rewrite lookup_insert_eq. intros [= <-].
      destruct (inv_threads _ HI _ _ Hth). constructor; cbn; try done.
      by apply inv_ticks.
    + rewrite lookup_insert_ne by done. by eapply inv_threads.
  - intros q. pose proof (rd_queues _ _ _ _ Hr) as Hq.
    destruct (band (priority th)) as [q0|].
    + destruct Hq as [Ho Hp]. destruct (decide (q = q0)) as [->|Hne].
      * rewrite (placed_perm _ _ _ _ _ Hp). constructor; [apply Hfresh|].
        by apply inv_NoDup.
      * rewrite (Ho _ Hne). by apply inv_NoDup.
    + rewrite Hq. by apply inv_NoDup.
  - intros q x. rewrite (readied_elem_of _ _ _ _ _ _ Hr), Ht'.
    intros [[-> _]|Hx]; apply lookup_insert_is_Some'; [by left|right].
    by eapply inv_alive.
  - intros q x thx. rewrite (readied_elem_of _ _ _ _ _ _ Hr), Ht'.
    intros [[-> Hb]|Hx].
    + rewrite lookup_insert_eq. by intros [= <-].
    + rewrite lookup_insert_ne by (intros ->; by eapply Hfresh).
      by eapply inv_band.
Qed.

(** ** Threads that are in no queue are not returned *)

Lemma pass_down ql k k' t :
  passed ql k k' → queued k' t → queued k t.
Proof.
  intros Hp [q Hq]. apply (pass_queues _ _ _ _ _ Hp) in Hq.
  case_decide as Hin; [|by exists q].
  exists ql. by eapply reached_elem.
Qed.

Lemma taken_queued q t th rest k x :
  queue q k = t :: rest → queued (taken q t th rest k) x → queued k x.
Proof.
  intros Hq [q' Hx]. exists q'. revert Hx. unfold taken.
  rewrite queue_with_threads, queue_with_event, queue_with_queue.
  case_decide as E.
  - subst q'. rewrite Hq. by right.
  - by destruct q'.
Qed.

Lemma FindNextToRun_queued k r k' :
  Inv k → FindNextToRun k = Ok (r, k') →
  (∀ t, r = Some t → queued k t) ∧ (∀ t, queued k' t → queued k t) ∧
  level k' = level k ∧ Inv k'.
Proof.
  intros HI Hf. pose proof (FindNextToRun_Ok _ _ _ Hf) as [Hlv _].
  destruct (FindNextToRun_Inv k HI Hlv)
    as (k1 & k2 & k3 & r0 & k0 & Ha1 & Hp1 & Ha2 & Hp2 & Ha3 & Hp3 & Hc & Hf0 & HI').
  rewrite Hf in Hf0. injection Hf0 as <- <-.
  assert (Hdown : ∀ t, queued k3 t → queued k t).
  { intros t H3. eapply pass_down; [exact Hp1|].
    eapply pass_down; [exact Hp2|]. eapply pass_down; [exact Hp3|]. done. }
  assert (Hlv3 : level k3 = level k).
  { rewrite (sc_level _ _ (pass_control _ _ _ _ _ Hp3)),
      (sc_level _ _ (pass_control _ _ _ _ _ Hp2)),
      (sc_level _ _ (pass_control _ _ _ _ _ Hp1)). done. }
  apply chosen_cases in Hc. destruct r as [t|].
  - destruct Hc as (q & th & rest & Hq & Hth & -> & _).
    split; [|split; [|split]]; try done.
    + intros ? [= <-]. apply Hdown. exists q. rewrite Hq. by left.
    + intros x Hx. apply Hdown. by eapply taken_queued.
    + rewrite <- Hlv3. by destruct q.
  - destruct Hc as [-> _]. done.
Qed.

Lemma dispatches_not_queued n k t :
  Inv k → level k = IntOff → ¬ queued k t →
  ∃ rs k', dispatches n k = Ok (rs, k') ∧ Some t ∉ rs.
Proof.
  revert k. induction n as [|n IH]; intros k HI Hlv Hnq.
  - exists [], k. split; [done|]. apply not_elem_of_nil.
  - destruct (FindNextToRun_Inv k HI Hlv)
      as (_ & _ & _ & r & k1 & _ & _ & _ & _ & _ & _ & _ & Hf & _).
    destruct (FindNextToRun_queued _ _ _ HI Hf) as (Hr & Hq & Hlv1 & HI1).
    destruct (IH k1 HI1) as (rs & k' & Hd & Hrs); [congruence|naive_solver|].
    exists (r :: rs), k'. split.
    + cbn [dispatches]. rewrite (bind_eq _ _ _ _ _ Hf), (bind_eq _ _ _ _ _ Hd). done.
    + apply not_elem_of_cons. split; [|done]. intros <-. apply Hnq. by apply Hr.
Qed.

(** ** The dispatcher *)

Lemma mark_Ok old k k0 :
  (d <- gets toBeDestroyed ;;
   ASSERT (match d with None => true | Some _ => false end) ;;;
   modify (with_toBeDestroyed (Some old))) k = Ok (tt, k0) ↔
  toBeDestroyed k = None ∧ k0 = with_toBeDestroyed (Some old) k.
Proof.
  unfold bind, gets, ASSERT, modify. destruct (toBeDestroyed k).
  - split; [done|]. by intros [? _].
  - split; [by intros [= <-]|]. by intros [_ ->].
Qed.

Lemma Run_to_SWITCH_Ok nextThread finishing k old k1 :
  Run_to_SWITCH nextThread finishing k = Ok (old, k1) →
  old = currentThread k ∧ level k = IntOff ∧
  (finishing = true → toBeDestroyed k = None) ∧
  toBeDestroyed k1 =
    (if finishing then Some (currentThread k) else toBeDestroyed k) ∧
  currentThread k1 = nextThread ∧
  dom (threads k1) = dom (threads k) ∧
  (∃ th, threads k !! nextThread = Some th ∧
         threads k1 = <[nextThread := Thread_setStatus RUNNING th]> (threads k)) ∧
  L1 k1 = L1 k ∧ L2 k1 = L2 k ∧ L3 k1 = L3 k.
Proof.
  unfold Run_to_SWITCH. run. destruct (level k) eqn:Hlv; [|done]. run.
  intros H.
  assert (∃ k0, (finishing = true → toBeDestroyed k = None) ∧
            threads k0 = threads k ∧ currentThread k0 = currentThread k ∧
            L1 k0 = L1 k ∧ L2 k0 = L2 k ∧ L3 k0 = L3 k ∧
            totalTicks k0 = totalTicks k ∧
            toBeDestroyed k0 =
              (if finishing then Some (currentThread k) else toBeDestroyed k) ∧
            (old0 <- deref (currentThread k) ;;
             match space old0 with
             | Some a => printf (SaveUserState (currentThread k)) ;;;
                         printf (SpaceSaveState a)
             | None => ret tt
             end ;;;
             CheckOverflow (currentThread k) ;;;
             modify (with_currentThread nextThread) ;;;
             setStatus nextThread RUNNING ;;;
             ticks <- gets totalTicks ;;
             nid <- getID nextThread ;;
             printf (Selected ticks nid) ;;;
             oid <- getID (currentThread k) ;;
             ran <- getLastTime (currentThread k) ;;
             printf (Replaced ticks oid ran) ;;;
             ret (currentThread k)) k0 = Ok (old, k1))
    as (k0 & Hfin & Ht0 & Hc0 & H10 & H20 & H30 & Htk0 & Hd0 & H0).
  { destruct finishing; cbn [when] in H.
    - apply bind_Ok in H as ([] & k0 & [Hd ->]%mark_Ok & H).
      exists (with_toBeDestroyed (Some (currentThread k)) k).
      repeat (split; [done|]). exact H.
    - revert H. run. intros H. exists k. repeat (split; [done|]). exact H. }
  clear H. apply bind_Ok in H0 as (th & k2 & [Hold ->]%deref_Ok & H0).
  apply bind_Ok in H0 as ([] & k2 & Hsave & H0).
  assert (threads k2 = threads k ∧ currentThread k2 = currentThread k ∧
          L1 k2 = L1 k ∧ L2 k2 = L2 k ∧ L3 k2 = L3 k ∧
          toBeDestroyed k2 = toBeDestroyed k0)
    as (Ht2 & Hc2 & H12 & H22 & H32 & Hd2).
  { destruct (space th); revert Hsave; run; by intros [= <-]. }
  apply bind_Ok in H0 as ([] & k3 & Hco & H0).
  unfold CheckOverflow in Hco.
  apply bind_Ok in Hco as (th' & k4 & [_ ->]%deref_Ok & Hco).
  unfold ASSERT in Hco. destruct (stackFence th'); [|done].
  injection Hco as <-. revert H0. run. intros H0.
  apply bind_Ok in H0 as ([] & k3 & (thn & Hn & ->)%update_Ok & H0).
  cbn in Hn. apply bind_Ok in H0 as (tk & k3 & [= <- <-] & H0).
  apply bind_Ok in H0 as (nid & k3 & (? & _ & _ & ->)%getID_Ok & H0).
  revert H0. run. intros H0.
  apply bind_Ok in H0 as (oid & k3 & (? & _ & _ & ->)%getID_Ok & H0).
  apply bind_Ok in H0 as (ran & k3 & E & H0).
  unfold getLastTime in E.
  apply bind_Ok in E as (? & k4 & [_ ->]%deref_Ok & [= <- <-]).
  revert H0. run. intros [= <- <-]. cbn.
  rewrite Ht2 in Hn |- *. rewrite Hd2, Hd0.
  repeat (split; [done|]). split.
  { rewrite dom_insert_L. apply elem_of_dom_2 in Hn. set_solver. }
  split; [by exists thn|done].
Qed.

Lemma CheckToBeDestroyed_Ok k k' :
  CheckToBeDestroyed k = Ok (tt, k') →
  toBeDestroyed k' = None ∧
  threads k' =
    match toBeDestroyed k with
    | Some d => delete d (threads k)
    | None => threads k
    end ∧
  (∀ d, toBeDestroyed k = Some d → is_Some (threads k !! d)) ∧
  same_control (with_toBeDestroyed None k) k'.
Proof.
  unfold CheckToBeDestroyed. run. destruct (toBeDestroyed k) as [d|] eqn:Hd.
  - unfold delete_thread. intros H.
    apply bind_Ok in H as ([] & k1 & H1 & H).
    apply bind_Ok in H1 as (th & k2 & [Hth ->]%deref_Ok & [= <-]).
    injection H as <-. repeat split; try done. intros ? [= <-]. by eexists.
  - intros [= <-]. repeat split; try done.
Qed.

Lemma Run_from_SWITCH_Ok old k k' :
  Run_from_SWITCH old k = Ok (tt, k') →
  level k = IntOff ∧ toBeDestroyed k' = None ∧
  threads k' =
    match toBeDestroyed k with
    | Some d => delete d (threads k)
    | None => threads k
    end ∧
  toBeDestroyed k ≠ Some old ∧ is_Some (threads k' !! old).
Proof.
  unfold Run_from_SWITCH. run. destruct (level k) eqn:Hlv; [|done]. run.
  intros H. apply bind_Ok in H as ([] & k1 & Hc & H).
  apply CheckToBeDestroyed_Ok in Hc as (Hd1 & Ht1 & _ & _).
  apply bind_Ok in H as (th & k2 & [Hold ->]%deref_Ok & H).
  assert (threads k' = threads k1 ∧ toBeDestroyed k' = toBeDestroyed k1) as [Ht' Hd'].
  { destruct (space th); revert H; run; by intros [= <-]. }
  split; [done|]. split; [congruence|]. split; [congruence|]. split.
  - intros Hd. rewrite Ht1, Hd, lookup_delete_eq in Hold. done.
  - rewrite Ht'. by eexists.
Qed.

Lemma CheckOverflow_eq t k th :
  threads k !! t = Some th → stackFence th = true →
  CheckOverflow t k = Ok (tt, k).
Proof.
  intros Hth Hf. unfold CheckOverflow.
  rewrite (bind_eq _ _ _ _ _ (deref_eq _ _ _ Hth)). unfold ASSERT. by rewrite Hf.
Qed.

Lemma Run_to_SWITCH_total nextThread finishing k old_th next_th :
  level k = IntOff →
  threads k !! currentThread k = Some old_th → stackFence old_th = true →
  threads k !! nextThread = Some next_th →
  (finishing = true → toBeDestroyed k = None) →
  ∃ k1, Run_to_SWITCH nextThread finishing k = Ok (currentThread k, k1).
Proof.
  intros Hlv Hold Hfence Hnext Hfin. unfold Run_to_SWITCH. run. rewrite Hlv. run.
  assert (∃ k0, when finishing
            (d <- gets toBeDestroyed ;;
             ASSERT (match d with None => true | Some _ => false end) ;;;
             modify (with_toBeDestroyed (Some (currentThread k)))) k = Ok (tt, k0) ∧
            threads k0 = threads k) as (k0 & Hk0 & Ht0).
  { destruct finishing; cbn [when].
    - exists (with_toBeDestroyed (Some (currentThread k)) k).
      split; [|done]. apply mark_Ok. split; [by apply Hfin|done].
    - by eexists. }
  rewrite (bind_eq _ _ _ _ _ Hk0). rewrite <- Ht0 in Hold, Hnext.
  run. unfold setStatus.
  destruct (space old_th); run;
    (erewrite bind_eq by (eapply CheckOverflow_eq; [cbn; eassumption|done])); run.
  - set (k2 := with_currentThread _ _).
    assert (Hn2 : threads k2 !! nextThread = Some next_th) by done.
    run.
    destruct (decide (nextThread = currentThread k)) as [->|Hne].
    + run. by eexists.
    + assert (Ho2 : threads (with_event (Selected (totalTicks k2) (ID next_th))
                     (with_threads (insert nextThread (Thread_setStatus RUNNING next_th)) k2))
                     !! currentThread k = Some old_th).
      { cbn. by rewrite lookup_insert_ne. }
      run. by eexists.
  - set (k2 := with_currentThread _ _).
    assert (Hn2 : threads k2 !! nextThread = Some next_th) by done.
    run.
    destruct (decide (nextThread = currentThread k)) as [->|Hne].
    + run. by eexists.
    + assert (Ho2 : threads (with_event (Selected (totalTicks k2) (ID next_th))
                     (with_threads (insert nextThread (Thread_setStatus RUNNING next_th)) k2))
                     !! currentThread k = Some old_th).
      { cbn. by rewrite lookup_insert_ne. }
      run. by eexists.
Qed.

Lemma Run_to_SWITCH_AssertFailed nextThread k :
  level k = IntOff → toBeDestroyed k ≠ None →
  Run_to_SWITCH nextThread true k = AssertFailed.
Proof.
  intros Hlv Hd. unfold Run_to_SWITCH. run. rewrite Hlv. run.
  cbn [when]. unfold bind, gets, ASSERT.
  by destruct (toBeDestroyed k).
Qed.

(** The part of [Run] after SWITCH returns when interrupts are off, the
    resuming thread is alive, and the thread in the slot is alive and
    another thread. *)
Lemma Run_from_SWITCH_total old k old_th :
  level k = IntOff → threads k !! old = Some old_th →
  (∀ d, toBeDestroyed k = Some d → d ≠ old ∧ is_Some (threads k !! d)) →
  ∃ k', Run_from_SWITCH old k = Ok (tt, k') ∧ toBeDestroyed k' = None ∧
    threads k' =
      match toBeDestroyed k with
      | Some d => delete d (threads k)
      | None => threads k
      end.
Proof.
  intros Hlv Hold Hd. unfold Run_from_SWITCH. run. rewrite Hlv. run.
  assert (Hc : ∃ k1, CheckToBeDestroyed k = Ok (tt, k1) ∧
            toBeDestroyed k1 = None ∧
            threads k1 =
              match toBeDestroyed k with
              | Some d => delete d (threads k)
              | None => threads k
              end).
  { unfold CheckToBeDestroyed. run.
    destruct (toBeDestroyed k) as [d|] eqn:E.
    - destruct (Hd d eq_refl) as [_ [th Hth]].
      assert (Hdel : delete_thread d k = Ok (tt, with_threads (delete d) k)).
      { unfold delete_thread. by run. }
      rewrite (bind_eq _ _ _ _ _ Hdel). by eexists.
    - by exists k. }
  destruct Hc as (k1 & Hk1 & Hd1 & Ht1).
  rewrite (bind_eq _ _ _ _ _ Hk1).
  assert (Hold1 : threads k1 !! old = Some old_th).
  { rewrite Ht1. destruct (toBeDestroyed k) as [d|]; [|done].
    rewrite lookup_delete_ne; [done|]. by destruct (Hd d eq_refl). }
  run. destruct (space old_th) as [a|]; run; eexists; (split; [reflexivity|]);
    by cbn.
Qed.

(** ** What a pass of [aging] does to the residents *)

Lemma due_iff ticks th :
  Int.ok ticks → 0 <= agingCount th <= ticks →
  due ticks th = true ↔ 1500 < ticks - agingCount th.
Proof.
  intros Hok Hm. unfold due.
  rewrite wrap_ok by (unfold Int.ok, Int.MIN, Int.MAX in *; lia). lia.
Qed.

(** ** The place of an aged thread in its queue *)



(** ** Calls of [FindNextToRun] in a row *)

Lemma FindNextToRun_run k k1 k2 k3 r k' :
  level k = IntOff →
  aging QL1 k = Ok (tt, k1) → aging QL2 k1 = Ok (tt, k2) →
  aging QL3 k2 = Ok (tt, k3) → chosen k3 r k' →
  FindNextToRun k = Ok (r, k').
Proof.
  intros Hlv Ha1 Ha2 Ha3 Hc. unfold FindNextToRun. run. rewrite Hlv. run.
  rewrite (bind_eq _ _ _ _ _ Ha1), (bind_eq _ _ _ _ _ Ha2),
    (bind_eq _ _ _ _ _ Ha3).
  by apply chosen_run.
Qed.

Lemma dispatches_total n k :
  Inv k → level k = IntOff → ∃ rs k', dispatches n k = Ok (rs, k').
Proof.
  revert k. induction n as [|n IH]; intros k HI Hlv; [by eexists _, _|].
  destruct (FindNextToRun_Inv k HI Hlv)
    as (_ & _ & _ & r & k1 & _ & _ & _ & _ & _ & _ & _ & Hf & _).
  destruct (FindNextToRun_queued _ _ _ HI Hf) as (_ & _ & Hlv1 & HI1).
  destruct (IH k1 HI1) as (rs & k' & Hd); [congruence|].
  exists (r :: rs), k'. cbn [dispatches].
  by rewrite (bind_eq _ _ _ _ _ Hf), (bind_eq _ _ _ _ _ Hd).
Qed.

(** ** The states of the scenario *)

Lemma ready_Inv : Inv (Scenario.ready 0).
Proof.
  apply Inv_check_Inv. apply (bool_decide_unpack _). vm_compute. exact I.
Defined.

Lemma ready_1600_Inv : Inv (Scenario.ready 1600).
Proof.
  apply Inv_check_Inv. apply (bool_decide_unpack _). vm_compute. exact I.
Defined.

Lemma starved_Inv : Inv Scenario.starved.
Proof.
  apply Inv_check_Inv. apply (bool_decide_unpack _). vm_compute. exact I.
Defined.

Lemma shortest_first_Inv : Inv Scenario.shortest_first.
Proof.
  apply Inv_check_Inv. apply (bool_decide_unpack _). vm_compute. exact I.
Defined.

Lemma starved_both_Inv : Inv Scenario.starved_both.
Proof.
  apply Inv_check_Inv. apply (bool_decide_unpack _). vm_compute. exact I.
Qed.

Lemma idle_Inv : Inv Scenario.idle.
Proof.
  apply Inv_check_Inv. apply (bool_decide_unpack _). vm_compute. exact I.
Qed.

(** * The claims *)

(** C1.  [Run nextThread finishing] is called with interrupts off by the
    running thread, whose stack is intact, for a thread that is alive.
    - When [finishing] is set while a destruction is pending, the ASSERT
      fails and the kernel aborts, before anything else is done.
    - Otherwise the part of [Run] before SWITCH returns.  It destroys no
      thread: the thread objects alive are the same as before.  With
      [finishing] it puts the outgoing thread into the one slot
      [toBeDestroyed], which was empty; without, it leaves the slot as it
      is.  The incoming thread is the current thread from then on.
    - [Run] is this part, then SWITCH, then the part after SWITCH.  When
      SWITCH gives the processor back in a state [k2] with interrupts
      off, in which the resuming thread is alive and the thread in the
      slot, if there is one, is alive and another thread, then [Run]
      returns: it has deleted the thread that was in the slot of [k2],
      this thread and no other, and the slot is empty. *)
Theorem Run_deferred_destruction (SWITCH : ptr → ptr → M unit)
    (nextThread : ptr) (finishing : bool) (k : Kernel) (old_th next_th : Thread) :
  level k = IntOff →
  threads k !! currentThread k = Some old_th → stackFence old_th = true →
  threads k !! nextThread = Some next_th →
  (finishing = true → toBeDestroyed k ≠ None →
   Run_to_SWITCH nextThread finishing k = AssertFailed ∧
   Run SWITCH nextThread finishing k = AssertFailed) ∧
  ((finishing = true → toBeDestroyed k = None) →
   ∃ k1,
     Run_to_SWITCH nextThread finishing k = Ok (currentThread k, k1) ∧
     dom (threads k1) = dom (threads k) ∧
     toBeDestroyed k1 =
       (if finishing then Some (currentThread k) else toBeDestroyed k) ∧
     currentThread k1 = nextThread ∧
     Run SWITCH nextThread finishing k =
       (SWITCH (currentThread k) nextThread ;;;
        Run_from_SWITCH (currentThread k)) k1 ∧
     ∀ k2,
       SWITCH (currentThread k) nextThread k1 = Ok (tt, k2) →
       level k2 = IntOff → is_Some (threads k2 !! currentThread k) →
       (∀ d, toBeDestroyed k2 = Some d →
             d ≠ currentThread k ∧ is_Some (threads k2 !! d)) →
       ∃ k3,
         Run SWITCH nextThread finishing k = Ok (tt, k3) ∧
         toBeDestroyed k3 = None ∧
         threads k3 =
           match toBeDestroyed k2 with
           | Some d => delete d (threads k2)
           | None => threads k2
           end).
Proof.
  intros Hlv Hold Hfence Hnext. split.
  - intros -> Hd. pose proof (Run_to_SWITCH_AssertFailed nextThread k Hlv Hd) as H.
    split; [done|]. unfold Run, bind. by rewrite H.
  - intros Hfin.
    destruct (Run_to_SWITCH_total nextThread finishing k old_th next_th
                Hlv Hold Hfence Hnext Hfin) as [k1 Hk1].
    destruct (Run_to_SWITCH_Ok _ _ _ _ _ Hk1)
      as (_ & _ & _ & Hd1 & Hc1 & Hdom & _).
    assert (HRun : Run SWITCH nextThread finishing k =
              (SWITCH (currentThread k) nextThread ;;;
               Run_from_SWITCH (currentThread k)) k1).
    { unfold Run. by rewrite (bind_eq _ _ _ _ _ Hk1). }
    exists k1. repeat (split; [done|]).
    intros k2 Hs Hlv2 [th2 Hth2] Hpending.
    destruct (Run_from_SWITCH_total (currentThread k) k2 th2 Hlv2 Hth2 Hpending)
      as (k3 & Hk3 & Hd3 & Ht3).
    exists k3. split; [|done].
    rewrite HRun. by rewrite (bind_eq _ _ _ _ _ Hs).
Qed.

(** The thread 9 hands the processor to the thread 5, which finishes: it
    marks itself in the slot and switches back.  The thread 5 is alive
    when the thread 9 resumes, and the thread 9 deletes it. *)
Lemma Run_deferred_destruction_witness :
  level (Scenario.ready 0) = IntOff ∧
  threads (Scenario.ready 0) !! currentThread (Scenario.ready 0) =
    Some (Scenario.thread 9 110 100 0 0 RUNNING) ∧
  stackFence (Scenario.thread 9 110 100 0 0 RUNNING) = true ∧
  threads (Scenario.ready 0) !! 5%positive =
    Some (Scenario.thread 5 120 60 0 0 BLOCKED) ∧
  ∃ k1 k2 k3,
    Run_to_SWITCH 5%positive false (Scenario.ready 0) = Ok (9%positive, k1) ∧
    dom (threads k1) = dom (threads (Scenario.ready 0)) ∧
    toBeDestroyed k1 = None ∧
    SWITCH_finishing 9%positive 5%positive k1 = Ok (tt, k2) ∧
    toBeDestroyed k2 = Some 5%positive ∧ is_Some (threads k2 !! 5%positive) ∧
    Run SWITCH_finishing 5%positive false (Scenario.ready 0) = Ok (tt, k3) ∧
    toBeDestroyed k3 = None ∧
    threads k3 = delete 5%positive (threads k2).
Proof.
  split; [reflexivity|]. split; [reflexivity|]. split; [reflexivity|].
  split; [reflexivity|].
  destruct (Run_deferred_destruction SWITCH_finishing 5%positive false
              (Scenario.ready 0)
              (Scenario.thread 9 110 100 0 0 RUNNING)
              (Scenario.thread 5 120 60 0 0 BLOCKED)
              eq_refl eq_refl eq_refl eq_refl) as [_ H].
  destruct H as (k1 & Hk1 & Hdom & Hd1 & _ & _ & Hres); [discriminate|].
  assert (Hk1' := Hk1). vm_compute in Hk1'. injection Hk1' as <-.
  edestruct Hres as (k3 & Hk3 & Hd3 & Ht3).
  - vm_compute. reflexivity.
  - reflexivity.
  - by eexists.
  - intros d [= <-]. split; [done|by eexists].
  - eexists _, _, k3. split; [exact Hk1|]. split; [exact Hdom|].
    split; [exact Hd1|]. split; [vm_compute; reflexivity|].
    split; [reflexivity|]. split; [by eexists|].
    split; [exact Hk3|]. split; [exact Hd3|]. exact Ht3.
Defined.

(** The whole protocol on the scenario: the thread 9 finishes and hands
    the processor to the thread 1; it is still alive when the switch is
    made, and it is gone, with the slot empty, once a thread that resumes
    from its own switch has run [CheckToBeDestroyed]. *)
Example Run_finishing_scenario :
  ∃ k1 k3,
    Run_to_SWITCH 1%positive true (Scenario.ready 0) = Ok (9%positive, k1) ∧
    toBeDestroyed k1 = Some 9%positive ∧ is_Some (threads k1 !! 9%positive) ∧
    Run_from_SWITCH 1%positive k1 = Ok (tt, k3) ∧
    toBeDestroyed k3 = None ∧ threads k3 !! 9%positive = None.
Proof.
  eexists _, _. split; [vm_compute; reflexivity|].
  split; [reflexivity|]. split; [by eexists|].
  split; [vm_compute; reflexivity|]. split; reflexivity.
Qed.

(** A second thread that finishes while the first is still pending makes
    the kernel abort. *)
Example Run_second_destruction :
  Run SWITCH_back 1%positive true
    (with_toBeDestroyed (Some 4%positive) (Scenario.ready 0)) = AssertFailed.
Proof. vm_compute. reflexivity. Qed.



(** The scenario of the specification: the thread of priority 120 is the
    only one in L1 and is returned first. *)
Example FindNextToRun_scenario :
  ∃ k', FindNextToRun (Scenario.ready 0) = Ok (Some 1%positive, k').
Proof. eexists. vm_compute. reflexivity. Qed.

(** With no ready thread the result is NULL and the state is unchanged. *)
Example FindNextToRun_idle :
  FindNextToRun Scenario.idle = Ok (None, Scenario.idle).
Proof. vm_compute. reflexivity. Qed.

(** C3.  Let the state satisfy the invariant, with interrupts off, and let
    [t] be a thread that is in no ready queue, with a priority [p] in
    [0,150) (the running thread is alive, which the L1 branch needs).
    Then [ReadyToRun t] returns; afterwards the status of [t] is READY,
    its [agingCount] is the current tick and its priority is unchanged;
    [t] is in L3 iff [p < 50], in L2 iff [50 <= p < 100], in L1 iff
    [100 <= p], and the other threads are in the queues they were in.
    The invariant holds again, so queue and band agree for every queued
    thread after the enqueue, and they agree after every aging pass on a
    state that satisfies the invariant. *)
Theorem ReadyToRun_band (k : Kernel) (t : ptr) (th : Thread) :
  Inv k → level k = IntOff →
  threads k !! t = Some th → (∀ q, t ∉ queue q k) →
  0 <= priority th < 150 →
  is_Some (threads k !! currentThread k) →
  (∃ k' th', ReadyToRun t k = Ok (tt, k') ∧
     threads k' !! t = Some th' ∧
     status th' = READY ∧ agingCount th' = totalTicks k ∧
     priority th' = priority th ∧
     (t ∈ L3 k' ↔ priority th < 50) ∧
     (t ∈ L2 k' ↔ 50 <= priority th < 100) ∧
     (t ∈ L1 k' ↔ 100 <= priority th) ∧
     (∀ q x, x ≠ t → x ∈ queue q k' ↔ x ∈ queue q k) ∧
     Inv k' ∧ band_agrees k') ∧
  (∀ ql, ∃ k', aging ql k = Ok (tt, k') ∧ Inv k' ∧ band_agrees k').
Proof.
  intros HI Hlv Hth Hfresh Hp Hcur. split.
  - destruct (ReadyToRun_total t k th Hlv Hth) as [k' Hk']; [apply HI|done|].
    destruct (ReadyToRun_Ok _ _ _ Hk') as (_ & th0 & Hth0 & Hr).
    assert (th0 = th) as -> by congruence.
    pose proof (readied_Inv _ _ _ _ HI Hth Hfresh Hr) as HI'.
    exists k', (stamped (totalTicks k) th). split; [done|]. split.
    { rewrite (rd_threads _ _ _ _ Hr). apply lookup_insert_eq. }
    assert (Hin : ∀ q, t ∈ queue q k' ↔ band (priority th) = Some q).
    { intros q. rewrite (readied_elem_of _ _ _ _ _ _ Hr).
      split; [|by left]. intros [[_ ?]|?]; [done|]. by destruct (Hfresh q). }
    repeat (split; [done|]).
    split; [|split; [|split; [|split; [|split]]]]; try done.
    + rewrite (Hin QL3). unfold band. repeat case_match; split; (done || lia).
    + rewrite (Hin QL2). unfold band. repeat case_match; split; (done || lia).
    + rewrite (Hin QL1). unfold band. repeat case_match; split; (done || lia).
    + intros q x Hne. rewrite (readied_elem_of _ _ _ _ _ _ Hr). naive_solver.
    + by apply Inv_band_agrees.
  - intros ql. destruct (aging_Inv ql k HI) as (k' & Hk' & Hpass).
    exists k'. split; [done|]. pose proof (pass_Inv _ _ _ _ _ Hpass).
    split; [done|]. by apply Inv_band_agrees.
Qed.

Lemma ReadyToRun_band_witness :
  Inv (Scenario.ready 0) ∧ level (Scenario.ready 0) = IntOff ∧
  threads (Scenario.ready 0) !! 5%positive =
    Some (Scenario.thread 5 120 60 0 0 BLOCKED) ∧
  (∀ q, 5%positive ∉ queue q (Scenario.ready 0)) ∧
  0 <= 120 < 150 ∧
  is_Some (threads (Scenario.ready 0) !! currentThread (Scenario.ready 0)) ∧
  (∃ k' th', ReadyToRun 5%positive (Scenario.ready 0) = Ok (tt, k') ∧
     threads k' !! 5%positive = Some th' ∧
     status th' = READY ∧ agingCount th' = 0 ∧
     priority th' = 120 ∧
     (5%positive ∈ L3 k' ↔ 120 < 50) ∧
     (5%positive ∈ L2 k' ↔ 50 <= 120 < 100) ∧
     (5%positive ∈ L1 k' ↔ 100 <= 120) ∧
     (∀ q x, x ≠ 5%positive →
        x ∈ queue q k' ↔ x ∈ queue q (Scenario.ready 0)) ∧
     Inv k' ∧ band_agrees k') ∧
  (∀ ql, ∃ k', aging ql (Scenario.ready 0) = Ok (tt, k') ∧
               Inv k' ∧ band_agrees k').
Proof.
  assert (H1 : Inv (Scenario.ready 0)) by exact ready_Inv.
  assert (H2 : level (Scenario.ready 0) = IntOff) by reflexivity.
  assert (H3 : threads (Scenario.ready 0) !! 5%positive =
               Some (Scenario.thread 5 120 60 0 0 BLOCKED)) by reflexivity.
  assert (H4 : ∀ q, 5%positive ∉ queue q (Scenario.ready 0)).
  { intros []; apply (bool_decide_unpack _); vm_compute; exact I. }
  assert (H5 : 0 <= 120 < 150) by lia.
  assert (H6 : is_Some (threads (Scenario.ready 0) !!
                          currentThread (Scenario.ready 0))) by (by eexists).
  repeat (split; [assumption|]).
  exact (ReadyToRun_band (Scenario.ready 0) 5%positive
           (Scenario.thread 5 120 60 0 0 BLOCKED) H1 H2 H3 H4 H5 H6).
Defined.

(** What the code requests: a yield when the priority of the running
    thread is above 100 and the score of the new thread is above the score
    of the running thread. *)
Lemma preempts_iff (th cur : Thread) :
  preempts th cur = true ↔ 100 < priority cur ∧ score cur < score th.
Proof.
  unfold preempts, cmpPredict. rewrite truthy_b2z, andb_true_iff. lia.
Qed.

Lemma ReadyToRun_yield (k : Kernel) (t : ptr) (k' : Kernel) :
  ReadyToRun t k = Ok (tt, k') → t ∈ L1 k' → t ∉ L1 k →
  ∃ th cur, threads k' !! t = Some th ∧
    threads k' !! currentThread k = Some cur ∧
    (yieldOnReturn k' = true ↔
     yieldOnReturn k = true ∨ (100 < priority cur ∧ score cur < score th)).
Proof.
  intros (_ & th & Hth & Hr)%ReadyToRun_Ok Hin Hnin.
  apply (readied_elem_of _ _ _ _ QL1 t Hr) in Hin as [[_ Hb]|?]; [|done].
  pose proof (rd_yield _ _ _ _ Hr) as Hy. rewrite Hb in Hy.
  destruct Hy as (cur & Hcur & Hy).
  exists (stamped (totalTicks k) th), cur. split.
  { rewrite (rd_threads _ _ _ _ Hr). apply lookup_insert_eq. }
  split; [done|]. rewrite Hy, <- preempts_iff.
  destruct (preempts _ _); naive_solver.
Qed.

(** C4.  The scenario of the specification, run on the code: the thread 9
    is running with priority 110 and score 100/2 + 0/2 = 50, and the
    thread 5 with priority 120 and score 60/2 + 0/2 = 30 is made ready.
    It goes into L1, and no yield is requested. *)
Theorem ReadyToRun_preemption_scenario :
  ∃ k' cur new,
    ReadyToRun 5%positive (Scenario.ready 0) = Ok (tt, k') ∧
    threads k' !! currentThread k' = Some cur ∧
    threads k' !! 5%positive = Some new ∧
    priority cur = 110 ∧ score cur = 50 ∧ score new = 30 ∧
    5%positive ∈ L1 k' ∧
    yieldOnReturn (Scenario.ready 0) = false ∧
    yieldOnReturn k' = false.
Proof.
  eexists _, _, _. split; [vm_compute; reflexivity|].
  split; [reflexivity|]. split; [reflexivity|].
  repeat (split; [reflexivity|]).
  split; [|done]. apply (bool_decide_unpack _). vm_compute. exact I.
Qed.

(** The test fires the other way round: a new thread with the greater
    score 140/2 = 70 makes the running thread of score 50 yield. *)
Example ReadyToRun_preemption_inverted :
  ∃ k', ReadyToRun 7%positive (Scenario.ready 0) = Ok (tt, k') ∧
        yieldOnReturn k' = true.
Proof. eexists. vm_compute. done. Qed.

(** A running thread of priority exactly 100 is in the band of L1 and is
    never asked to yield. *)
Example ReadyToRun_preemption_priority_100 :
  ∃ k', ReadyToRun 7%positive
          (with_currentThread 8%positive (Scenario.ready 0)) = Ok (tt, k') ∧
        yieldOnReturn k' = false.
Proof. eexists. vm_compute. done. Qed.

(** C5.  The claim fails on the code.  At tick 3000 the threads 3 and 10
    are the residents of L3, and both have waited for more than 1500
    ticks: the test of the loop body holds for each of them.  The pass
    over L3 visits the thread 3, raises it from 20 to 30 and moves its
    mark from 0 to 1500, takes it out of L3 and appends it again.  The
    iterator then stands on the last element of L3 and the loop ends:
    the thread 10 is not visited, its priority is 10 and its mark 1000
    as before. *)
Theorem aging_stops_at_first_due :
  ∃ k',
    L3 Scenario.starved_both = [3%positive; 10%positive] ∧
    is_due Scenario.starved_both 3%positive = true ∧
    is_due Scenario.starved_both 10%positive = true ∧
    aging QL3 Scenario.starved_both = Ok (tt, k') ∧
    threads k' !! 3%positive = Some (Scenario.thread 3 30 0 0 1500 READY) ∧
    threads Scenario.starved_both !! 10%positive =
      Some (Scenario.thread 10 10 0 0 1000 READY) ∧
    threads k' !! 10%positive = Some (Scenario.thread 10 10 0 0 1000 READY) ∧
    L3 k' = [10%positive; 3%positive] ∧
    trace k' = [PriorityChanged 3000 3 20 30].
Proof.
  eexists. split; [reflexivity|]. split; [reflexivity|].
  split; [reflexivity|]. split; [vm_compute; reflexivity|].
  repeat split; reflexivity.
Qed.

(** The update of a thread that is visited is the one of the claim: a
    thread that has waited for 4000 ticks is raised by one step, and its
    mark moves by 1500, not to the current tick. *)
Example aging_one_step :
  ∃ k', aging QL3 (Scenario.ready 4000) = Ok (tt, k') ∧
        priority <$> threads k' !! 3%positive = Some 30 ∧
        agingCount <$> threads k' !! 3%positive = Some 1500.
Proof. eexists. vm_compute. done. Qed.

(** The scenario of the specification: at tick 1600 a fourth thread of
    priority 70 is made ready; the pass over L2 leaves its priority at 70,
    and raises the thread of priority 70 that waits since tick 0 to 80,
    which stays in L2. *)
Example aging_scenario :
  ∃ k1 k2,
    ReadyToRun 4%positive (Scenario.ready 1600) = Ok (tt, k1) ∧
    aging QL2 k1 = Ok (tt, k2) ∧
    priority <$> threads k2 !! 4%positive = Some 70 ∧
    priority <$> threads k2 !! 2%positive = Some 80 ∧
    agingCount <$> threads k2 !! 2%positive = Some 1500 ∧
    2%positive ∈ L2 k2 ∧ 4%positive ∈ L2 k2.
Proof.
  eexists _, _. split; [vm_compute; reflexivity|].
  split; [vm_compute; reflexivity|].
  repeat (split; [reflexivity|]).
  split; apply (bool_decide_unpack _); vm_compute; exact I.
Qed.




(** A thread that crosses a band boundary: at tick 1600 the thread of
    priority 45 that waits in L3 since tick 0 is raised to 55 and goes
    from L3 to L2. *)
Example aging_crosses_band :
  ∃ k', aging QL3
          (mkKernel (<[3%positive := Scenario.thread 3 45 0 0 0 READY]>
                       Scenario.store)
             [] [2%positive] [3%positive; 10%positive] None 9%positive
             1600 IntOff false false []) = Ok (tt, k') ∧
        priority <$> threads k' !! 3%positive = Some 55 ∧
        L2 k' = [2%positive; 3%positive] ∧ L3 k' = [10%positive] ∧
        trace k' = [PriorityChanged 1600 3 45 55; Removed 1600 3 QL3;
                    Inserted 1600 3 QL2].
Proof. eexists. vm_compute. done. Qed.

(** C7.  The claim fails on the code.  No thread is ready; the thread 1,
    of score 100/2 + 0/2 = 50, is made ready, and then the thread 5, of
    score 60/2 + 0/2 = 30.  [cmpPredict] answers 0 when the thread 5 is
    compared with the thread 1, and not a negative number, so [Insert]
    puts the thread 5 behind the thread 1.  Both are in L1, and
    [FindNextToRun] returns the thread 1, of the greater score, first. *)
Theorem L1_arrival_order :
  ∃ k1 k2 k3 k4 th1 th5,
    ReadyToRun 1%positive Scenario.idle = Ok (tt, k1) ∧
    ReadyToRun 5%positive k1 = Ok (tt, k2) ∧
    threads k2 !! 1%positive = Some th1 ∧ threads k2 !! 5%positive = Some th5 ∧
    score th1 = 50 ∧ score th5 = 30 ∧
    cmpPredict th5 th1 = 0 ∧
    L1 k2 = [1%positive; 5%positive] ∧
    FindNextToRun k2 = Ok (Some 1%positive, k3) ∧
    L1 k3 = [5%positive] ∧
    FindNextToRun k3 = Ok (Some 5%positive, k4).
Proof.
  eexists _, _, _, _, _, _. split; [vm_compute; reflexivity|].
  split; [vm_compute; reflexivity|].
  split; [reflexivity|]. split; [reflexivity|].
  split; [reflexivity|]. split; [reflexivity|].
  split; [reflexivity|]. split; [reflexivity|].
  split; [vm_compute; reflexivity|]. split; [reflexivity|].
  vm_compute. reflexivity.
Qed.


(** L2 is in the order of arrival as well: the thread 4, of priority 70,
    goes behind the thread 2, of priority 70, and a thread of priority 90
    would go behind both. *)
Example L2_arrival_order :
  ∃ k1 k2,
    ReadyToRun 4%positive (Scenario.ready 0) = Ok (tt, k1) ∧
    L2 k1 = [2%positive; 4%positive] ∧
    ReadyToRun 11%positive
      (with_threads (insert 11%positive (Scenario.thread 11 90 0 0 0 BLOCKED))
         k1) = Ok (tt, k2) ∧
    L2 k2 = [2%positive; 4%positive; 11%positive].
Proof.
  eexists _, _. split; [vm_compute; reflexivity|]. split; [reflexivity|].
  split; [vm_compute; reflexivity|]. reflexivity.
Qed.

(** C8.  On a state that satisfies the invariant, with interrupts off,
    [FindNextToRun] returns.  With [k3] the state after the three passes
    of aging: when L1 is not empty in [k3], the call returns its head
    [t], and for [th] the thread object of [t] before the call and [th']
    after it, [predict] of [th'] is the [predict]/2 + the [lastTime]/2 of
    [th] in integer division, computed from the [lastTime] before the
    reset, and [lastTime] of [th'] is 0.  When L1 is empty in [k3] and
    [t] is the head of L2, or L2 is empty as well and [t] is the head of
    L3, the call returns [t]; [lastTime] of [th'] is 0 and [predict] is
    unchanged. *)
Theorem FindNextToRun_burst (k : Kernel) :
  Inv k → level k = IntOff →
  ∃ k1 k2 k3 r k',
    aging QL1 k = Ok (tt, k1) ∧ aging QL2 k1 = Ok (tt, k2) ∧
    aging QL3 k2 = Ok (tt, k3) ∧
    FindNextToRun k = Ok (r, k') ∧
    (∀ t rest, L1 k3 = t :: rest →
       r = Some t ∧
       ∃ th th', threads k !! t = Some th ∧ threads k' !! t = Some th' ∧
         predict th' = predict th ÷ 2 + lastTime th ÷ 2 ∧ lastTime th' = 0) ∧
    (∀ t rest,
       L1 k3 = [] → L2 k3 = t :: rest ∨ (L2 k3 = [] ∧ L3 k3 = t :: rest) →
       r = Some t ∧
       ∃ th th', threads k !! t = Some th ∧ threads k' !! t = Some th' ∧
         predict th' = predict th ∧ lastTime th' = 0).
Proof.
  intros HI Hlv.
  destruct (FindNextToRun_Inv k HI Hlv)
    as (k1 & k2 & k3 & r & k' & Ha1 & Hp1 & Ha2 & Hp2 & Ha3 & Hp3 & Hc & Hf & HI').
  exists k1, k2, k3, r, k'. repeat (split; [done|]).
  assert (Hback : ∀ t th3, threads k3 !! t = Some th3 →
            ∃ th, threads k !! t = Some th ∧ Thread_ok th ∧
                  predict th3 = predict th ∧ lastTime th3 = lastTime th).
  { intros t th3 Hth3.
    destruct (passes_burst k k1 k2 k3 t th3 Hp1 Hp2 Hp3 Hth3) as (th & Hth & ? & ?).
    exists th. split; [done|]. split; [exact (inv_threads _ HI _ _ Hth)|done]. }
  unfold chosen in Hc. split.
  - intros t rest H1. rewrite H1 in Hc.
    destruct Hc as (th3 & Hth3 & -> & ->). split; [done|].
    destruct (Hback t th3 Hth3) as (th & Hth & [_ Hok1 Hok2 _] & Hpr & Hlt).
    exists th. eexists. split; [done|]. split.
    { unfold taken. rewrite threads_with_threads. apply lookup_insert_eq. }
    split; [|done]. cbn. rewrite Hpr, Hlt. apply wrap_ok. by apply half_sum_ok.
  - intros t rest H1 H23. rewrite H1 in Hc.
    destruct H23 as [H2|[H2 H3]].
    + rewrite H2 in Hc. destruct Hc as (th3 & Hth3 & -> & ->). split; [done|].
      destruct (Hback t th3 Hth3) as (th & Hth & _ & Hpr & _).
      exists th. eexists. split; [done|]. split.
      { unfold taken. rewrite threads_with_threads. apply lookup_insert_eq. }
      done.
    + rewrite H2, H3 in Hc. destruct Hc as (th3 & Hth3 & -> & ->). split; [done|].
      destruct (Hback t th3 Hth3) as (th & Hth & _ & Hpr & _).
      exists th. eexists. split; [done|]. split.
      { unfold taken. rewrite threads_with_threads. apply lookup_insert_eq. }
      done.
Qed.

(** The two cases, on states of the scenario.  At tick 0 the thread 1, of
    predicted burst 100 and [lastTime] 0, is the head of L1: the call
    returns it with the prediction 50.  At tick 1600 only L3 holds
    threads, and after aging its head is the thread 10: the call returns
    it with its prediction as it was. *)
Lemma FindNextToRun_burst_witness :
  (Inv (Scenario.ready 0) ∧ level (Scenario.ready 0) = IntOff ∧
   ∃ k' th',
     FindNextToRun (Scenario.ready 0) = Ok (Some 1%positive, k') ∧
     threads k' !! 1%positive = Some th' ∧
     predict th' = 100 ÷ 2 + 0 ÷ 2 ∧ lastTime th' = 0) ∧
  (Inv Scenario.starved ∧ level Scenario.starved = IntOff ∧
   ∃ k' th',
     FindNextToRun Scenario.starved = Ok (Some 10%positive, k') ∧
     threads Scenario.starved !! 10%positive =
       Some (Scenario.thread 10 10 0 0 1000 READY) ∧
     threads k' !! 10%positive = Some th' ∧
     predict th' = 0 ∧ lastTime th' = 0).
Proof.
  split.
  - split; [exact ready_Inv|]. split; [reflexivity|].
    destruct (FindNextToRun_burst (Scenario.ready 0) ready_Inv eq_refl)
      as (k1 & k2 & k3 & r & k' & H1 & H2 & H3 & Hf & Ha & _).
    vm_compute in H1. injection H1 as <-.
    vm_compute in H2. injection H2 as <-.
    vm_compute in H3. injection H3 as <-.
    destruct (Ha 1%positive [] eq_refl) as (-> & th & th' & Hth & Hth' & Hp & Hl).
    vm_compute in Hth. injection Hth as <-.
    exists k', th'. split; [exact Hf|]. split; [exact Hth'|].
    split; [exact Hp|exact Hl].
  - split; [exact starved_Inv|]. split; [reflexivity|].
    destruct (FindNextToRun_burst Scenario.starved starved_Inv eq_refl)
      as (k1 & k2 & k3 & r & k' & H1 & H2 & H3 & Hf & _ & Hb).
    vm_compute in H1. injection H1 as <-.
    vm_compute in H2. injection H2 as <-.
    vm_compute in H3. injection H3 as <-.
    destruct (Hb 10%positive [3%positive] eq_refl (or_intror (conj eq_refl eq_refl)))
      as (-> & th & th' & Hth & Hth' & Hp & Hl).
    vm_compute in Hth. injection Hth as <-.
    exists k', th'. split; [exact Hf|]. split; [reflexivity|].
    split; [exact Hth'|]. split; [exact Hp|exact Hl].
Defined.

(** The thread of priority 120 has run for 0 ticks on a predicted burst of
    100: it is the head of L1 after aging and leaves L1 with the
    prediction 50. *)
Example FindNextToRun_burst_scenario :
  ∃ k1 k2 k3 k',
    aging QL1 (Scenario.ready 0) = Ok (tt, k1) ∧ aging QL2 k1 = Ok (tt, k2) ∧
    aging QL3 k2 = Ok (tt, k3) ∧ L1 k3 = [1%positive] ∧
    FindNextToRun (Scenario.ready 0) = Ok (Some 1%positive, k') ∧
    predict <$> threads (Scenario.ready 0) !! 1%positive = Some 100 ∧
    predict <$> threads k' !! 1%positive = Some 50 ∧
    lastTime <$> threads k' !! 1%positive = Some 0.
Proof.
  eexists _, _, _, _. split; [vm_compute; reflexivity|].
  split; [vm_compute; reflexivity|]. split; [vm_compute; reflexivity|].
  split; [reflexivity|]. split; [vm_compute; reflexivity|]. done.
Qed.

(** A thread that has run for 7 ticks on a predicted burst of 9 leaves L1
    with the prediction 9/2 + 7/2 = 7, and L2 with the prediction 9. *)
Example FindNextToRun_burst_division :
  ∃ k' k'',
    FindNextToRun
      (mkKernel (<[1%positive := Scenario.thread 1 120 9 7 0 READY]>
                   Scenario.store)
         [1%positive] [] [] None 9%positive 0 IntOff false false [])
      = Ok (Some 1%positive, k') ∧
    predict <$> threads k' !! 1%positive = Some 7 ∧
    lastTime <$> threads k' !! 1%positive = Some 0 ∧
    FindNextToRun
      (mkKernel (<[2%positive := Scenario.thread 2 70 9 7 0 READY]>
                   Scenario.store)
         [] [2%positive] [] None 9%positive 0 IntOff false false [])
      = Ok (Some 2%positive, k'') ∧
    predict <$> threads k'' !! 2%positive = Some 9 ∧
    lastTime <$> threads k'' !! 2%positive = Some 0.
Proof. eexists _, _. vm_compute. done. Qed.

(** C9.  On a state that satisfies the invariant, with interrupts off,
    [FindNextToRun] returns.  With [k3] the state after the three passes
    of aging: when L1 is not empty in [k3], or L1 is empty and L2 is not,
    the call returns the head of that queue and the round-robin switch of
    the alarm is off afterwards; when L1 and L2 are empty and L3 is not,
    it returns the head of L3 and the switch is on; when the three queues
    are empty it returns NULL and leaves the switch as it was. *)
Theorem FindNextToRun_roundRobin (k : Kernel) :
  Inv k → level k = IntOff →
  ∃ k1 k2 k3 r k',
    aging QL1 k = Ok (tt, k1) ∧ aging QL2 k1 = Ok (tt, k2) ∧
    aging QL3 k2 = Ok (tt, k3) ∧
    FindNextToRun k = Ok (r, k') ∧
    (∀ t rest, L1 k3 = t :: rest ∨ (L1 k3 = [] ∧ L2 k3 = t :: rest) →
       r = Some t ∧ roundRobin k' = false) ∧
    (∀ t rest, L1 k3 = [] → L2 k3 = [] → L3 k3 = t :: rest →
       r = Some t ∧ roundRobin k' = true) ∧
    (L1 k3 = [] → L2 k3 = [] → L3 k3 = [] →
     r = None ∧ roundRobin k' = roundRobin k).
Proof.
  intros HI Hlv.
  destruct (FindNextToRun_Inv k HI Hlv)
    as (k1 & k2 & k3 & r & k' & Ha1 & Hp1 & Ha2 & Hp2 & Ha3 & Hp3 & Hc & Hf & HI').
  exists k1, k2, k3, r, k'. repeat (split; [done|]).
  unfold chosen in Hc. split; [|split].
  - intros t rest [H1|[H1 H2]].
    + rewrite H1 in Hc. by destruct Hc as (th3 & _ & -> & ->).
    + rewrite H1, H2 in Hc. by destruct Hc as (th3 & _ & -> & ->).
  - intros t rest H1 H2 H3. rewrite H1, H2, H3 in Hc.
    by destruct Hc as (th3 & _ & -> & ->).
  - intros H1 H2 H3. rewrite H1, H2, H3 in Hc. destruct Hc as [-> ->].
    split; [done|].
    rewrite (sc_roundRobin _ _ (pass_control _ _ _ _ _ Hp3)),
      (sc_roundRobin _ _ (pass_control _ _ _ _ _ Hp2)),
      (sc_roundRobin _ _ (pass_control _ _ _ _ _ Hp1)). done.
Qed.

(** The two cases, on states of the scenario.  At tick 1600 only L3 holds
    threads, and the switch is off: the call returns the head of L3 after
    aging, the thread 10, and turns the switch on.  At tick 0, with the
    switch on, the thread 1 is the head of L1: the call returns it and
    turns the switch off. *)
Lemma FindNextToRun_roundRobin_witness :
  (Inv Scenario.starved ∧ level Scenario.starved = IntOff ∧
   roundRobin Scenario.starved = false ∧
   ∃ k', FindNextToRun Scenario.starved = Ok (Some 10%positive, k') ∧
         roundRobin k' = true) ∧
  (Inv (with_roundRobin true (Scenario.ready 0)) ∧
   level (with_roundRobin true (Scenario.ready 0)) = IntOff ∧
   roundRobin (with_roundRobin true (Scenario.ready 0)) = true ∧
   ∃ k', FindNextToRun (with_roundRobin true (Scenario.ready 0)) =
           Ok (Some 1%positive, k') ∧
         roundRobin k' = false).
Proof.
  assert (HI : Inv (with_roundRobin true (Scenario.ready 0))).
  { apply Inv_check_Inv. apply (bool_decide_unpack _). vm_compute. exact I. }
  split.
  - split; [exact starved_Inv|]. split; [reflexivity|]. split; [reflexivity|].
    destruct (FindNextToRun_roundRobin Scenario.starved starved_Inv eq_refl)
      as (k1 & k2 & k3 & r & k' & H1 & H2 & H3 & Hf & _ & Hb & _).
    vm_compute in H1. injection H1 as <-.
    vm_compute in H2. injection H2 as <-.
    vm_compute in H3. injection H3 as <-.
    destruct (Hb 10%positive [3%positive] eq_refl eq_refl eq_refl) as [-> Hrr].
    exists k'. split; [exact Hf|exact Hrr].
  - split; [exact HI|]. split; [reflexivity|]. split; [reflexivity|].
    destruct (FindNextToRun_roundRobin _ HI eq_refl)
      as (k1 & k2 & k3 & r & k' & H1 & H2 & H3 & Hf & Ha & _).
    vm_compute in H1. injection H1 as <-.
    vm_compute in H2. injection H2 as <-.
    vm_compute in H3. injection H3 as <-.
    destruct (Ha 1%positive [] (or_introl eq_refl)) as [-> Hrr].
    exists k'. split; [exact Hf|exact Hrr].
Defined.

(** The three branches, run: from L3 the switch goes on; from L1 and from
    L2 it goes off, also when it was on. *)
Example FindNextToRun_roundRobin_scenario :
  (∃ k', FindNextToRun Scenario.starved = Ok (Some 10%positive, k') ∧
         roundRobin Scenario.starved = false ∧ roundRobin k' = true) ∧
  (∃ k', FindNextToRun (with_roundRobin true (Scenario.ready 0)) =
           Ok (Some 1%positive, k') ∧ roundRobin k' = false) ∧
  (∃ k', FindNextToRun
           (with_roundRobin true (with_queue QL1 [] (Scenario.ready 0))) =
           Ok (Some 2%positive, k') ∧ roundRobin k' = false) ∧
  (∃ k', FindNextToRun (with_roundRobin true Scenario.idle) = Ok (None, k') ∧
         roundRobin k' = true).
Proof.
  repeat split; eexists; (split; [vm_compute; reflexivity|]); done.
Qed.

(** C10.  Let the state satisfy the invariant, with interrupts off, and let
    the priority of [t] be 150 or more.  Then [ReadyToRun t] returns; the
    status of [t] is READY afterwards and its [agingCount] is the current
    tick, but the three queues are what they were, [t] is in none of
    them, and no yield is requested.  However many times [FindNextToRun]
    is called from there, it does not return [t]. *)
Theorem ReadyToRun_priority_150 (k : Kernel) (t : ptr) (th : Thread) :
  Inv k → level k = IntOff → threads k !! t = Some th →
  150 <= priority th →
  ∃ k' th', ReadyToRun t k = Ok (tt, k') ∧
    threads k' !! t = Some th' ∧
    status th' = READY ∧ agingCount th' = totalTicks k ∧
    L1 k' = L1 k ∧ L2 k' = L2 k ∧ L3 k' = L3 k ∧
    t ∉ L1 k' ∧ t ∉ L2 k' ∧ t ∉ L3 k' ∧
    yieldOnReturn k' = yieldOnReturn k ∧
    ∀ n, ∃ rs k'', dispatches n k' = Ok (rs, k'') ∧ Some t ∉ rs.
Proof.
  intros HI Hlv Hth Hp.
  assert (Hb : band (priority th) = None).
  { unfold band. repeat case_match; (done || lia). }
  assert (Hfresh : ∀ q, t ∉ queue q k).
  { intros q Hq. pose proof (inv_band _ HI _ _ _ Hq Hth). congruence. }
  destruct (ReadyToRun_total t k th Hlv Hth) as [k' Hk'];
    [apply HI|by rewrite Hb|].
  destruct (ReadyToRun_Ok _ _ _ Hk') as (_ & th0 & Hth0 & Hr).
  assert (th0 = th) as -> by congruence.
  pose proof (readied_Inv _ _ _ _ HI Hth Hfresh Hr) as HI'.
  pose proof (rd_queues _ _ _ _ Hr) as Hq. rewrite Hb in Hq.
  pose proof (rd_yield _ _ _ _ Hr) as Hy. rewrite Hb in Hy.
  exists k', (stamped (totalTicks k) th). split; [done|]. split.
  { rewrite (rd_threads _ _ _ _ Hr). apply lookup_insert_eq. }
  split; [done|]. split; [done|].
  pose proof (Hq QL1) as Hq1. pose proof (Hq QL2) as Hq2.
  pose proof (Hq QL3) as Hq3. cbn in Hq1, Hq2, Hq3.
  split; [done|]. split; [done|]. split; [done|].
  split; [rewrite Hq1; apply (Hfresh QL1)|].
  split; [rewrite Hq2; apply (Hfresh QL2)|].
  split; [rewrite Hq3; apply (Hfresh QL3)|].
  split; [done|].
  intros n. apply dispatches_not_queued; [done| |].
  - by rewrite (rd_level _ _ _ _ Hr).
  - intros [q Hin]. rewrite Hq in Hin. by apply (Hfresh q).
Qed.

Lemma ReadyToRun_priority_150_witness :
  Inv (Scenario.ready 0) ∧ level (Scenario.ready 0) = IntOff ∧
  threads (Scenario.ready 0) !! 6%positive =
    Some (Scenario.thread 6 150 0 0 0 BLOCKED) ∧
  150 <= 150 ∧
  ∃ k' th', ReadyToRun 6%positive (Scenario.ready 0) = Ok (tt, k') ∧
    threads k' !! 6%positive = Some th' ∧
    status th' = READY ∧ agingCount th' = 0 ∧
    L1 k' = [1%positive] ∧ L2 k' = [2%positive] ∧ L3 k' = [3%positive] ∧
    6%positive ∉ L1 k' ∧ 6%positive ∉ L2 k' ∧ 6%positive ∉ L3 k' ∧
    yieldOnReturn k' = false ∧
    ∀ n, ∃ rs k'', dispatches n k' = Ok (rs, k'') ∧ Some 6%positive ∉ rs.
Proof.
  split; [exact ready_Inv|]. split; [reflexivity|].
  split; [reflexivity|]. split; [lia|].
  exact (ReadyToRun_priority_150 (Scenario.ready 0) 6%positive
           (Scenario.thread 6 150 0 0 0 BLOCKED)
           ready_Inv eq_refl eq_refl ltac:(cbn; lia)).
Defined.

(** * Further properties of the code *)

(** ** The comparison functions *)

(** X1.  [cmpPredict] halves before it adds: for threads whose fields are
    [int]s the sum [getPredict()/2 + getLastTime()/2] is an [int] again,
    so the score is the exact sum and the comparison is the comparison of
    the exact sums. *)
Theorem cmpPredict_exact (a b : Thread) :
  Thread_ok a → Thread_ok b →
  Int.ok (predict a ÷ 2 + lastTime a ÷ 2) ∧
  score a = predict a ÷ 2 + lastTime a ÷ 2 ∧
  (cmpPredict a b = 1 ↔
   predict b ÷ 2 + lastTime b ÷ 2 < predict a ÷ 2 + lastTime a ÷ 2) ∧
  (cmpPredict a b = 0 ↔
   predict a ÷ 2 + lastTime a ÷ 2 <= predict b ÷ 2 + lastTime b ÷ 2).
Proof.
  intros Ha Hb. pose proof (score_ok a Ha) as Ea. pose proof (score_ok b Hb) as Eb.
  destruct Ha as [_ Hp Hl _].
  split; [by apply half_sum_ok|]. split; [done|].
  unfold cmpPredict. rewrite Ea, Eb.
  destruct (Z.ltb_spec (predict b ÷ 2 + lastTime b ÷ 2)
                       (predict a ÷ 2 + lastTime a ÷ 2)); cbn; split; split;
    intros; lia || done.
Qed.

Lemma cmpPredict_exact_witness :
  Thread_ok (Scenario.thread 1 120 100 0 0 READY) ∧
  Thread_ok (Scenario.thread 5 120 60 0 0 BLOCKED) ∧
  Int.ok (100 ÷ 2 + 0 ÷ 2) ∧
  score (Scenario.thread 1 120 100 0 0 READY) = 100 ÷ 2 + 0 ÷ 2 ∧
  (cmpPredict (Scenario.thread 1 120 100 0 0 READY)
              (Scenario.thread 5 120 60 0 0 BLOCKED) = 1 ↔
   60 ÷ 2 + 0 ÷ 2 < 100 ÷ 2 + 0 ÷ 2) ∧
  (cmpPredict (Scenario.thread 1 120 100 0 0 READY)
              (Scenario.thread 5 120 60 0 0 BLOCKED) = 0 ↔
   100 ÷ 2 + 0 ÷ 2 <= 60 ÷ 2 + 0 ÷ 2).
Proof.
  assert (H1 : Thread_ok (Scenario.thread 1 120 100 0 0 READY)).
  { apply (bool_decide_unpack _). vm_compute. exact I. }
  assert (H5 : Thread_ok (Scenario.thread 5 120 60 0 0 BLOCKED)).
  { apply (bool_decide_unpack _). vm_compute. exact I. }
  split; [exact H1|]. split; [exact H5|].
  exact (cmpPredict_exact _ _ H1 H5).
Defined.

(** X2.  [cmpPriority] and [cmpPredict] return 1 or 0, never a negative
    number.  Each is a strict order on its key: no thread comes after
    itself, two threads do not come after each other, coming after is
    transitive, and two threads are not ordered either way exactly when
    their keys are equal. *)
Theorem comparators_strict_order :
  (∀ a b, cmpPriority a b = 0 ∨ cmpPriority a b = 1) ∧
  (∀ a, cmpPriority a a = 0) ∧
  (∀ a b, cmpPriority a b = 1 → cmpPriority b a = 0) ∧
  (∀ a b c, cmpPriority a b = 1 → cmpPriority b c = 1 → cmpPriority a c = 1) ∧
  (∀ a b, cmpPriority a b = 0 ∧ cmpPriority b a = 0 ↔ priority a = priority b) ∧
  (∀ a b, cmpPredict a b = 0 ∨ cmpPredict a b = 1) ∧
  (∀ a, cmpPredict a a = 0) ∧
  (∀ a b, cmpPredict a b = 1 → cmpPredict b a = 0) ∧
  (∀ a b c, cmpPredict a b = 1 → cmpPredict b c = 1 → cmpPredict a c = 1) ∧
  (∀ a b, cmpPredict a b = 0 ∧ cmpPredict b a = 0 ↔ score a = score b).
Proof.
  unfold cmpPriority, cmpPredict.
  repeat split; intros;
    repeat match goal with
           | H : _ ∧ _ |- _ => destruct H
           | H : context [?x <? ?y] |- _ => destruct (Z.ltb_spec x y); cbn in H
           | |- context [?x <? ?y] => destruct (Z.ltb_spec x y); cbn
           end; try lia; auto.
Qed.

(** ** Entry with interrupts on *)

(** X3.  [ReadyToRun], [FindNextToRun] and [Run] test the interrupt level
    before they use any pointer: with interrupts on each of them stops at
    its first ASSERT, whatever the thread pointers it is given point to. *)
Theorem interrupts_on_abort (SWITCH : ptr → ptr → M unit) (k : Kernel)
    (thread nextThread : ptr) (finishing : bool) :
  level k = IntOn →
  ReadyToRun thread k = AssertFailed ∧
  FindNextToRun k = AssertFailed ∧
  Run SWITCH nextThread finishing k = AssertFailed.
Proof.
  intros Hlv. split; [|split].
  - unfold ReadyToRun. run. by rewrite Hlv.
  - unfold FindNextToRun. run. by rewrite Hlv.
  - unfold Run, Run_to_SWITCH. unfold bind at 1. run. by rewrite Hlv.
Qed.

Lemma interrupts_on_abort_witness :
  level (mkKernel ∅ [] [] [] None 1%positive 0 IntOn false false []) = IntOn ∧
  ReadyToRun 7%positive
    (mkKernel ∅ [] [] [] None 1%positive 0 IntOn false false []) = AssertFailed ∧
  FindNextToRun
    (mkKernel ∅ [] [] [] None 1%positive 0 IntOn false false []) = AssertFailed ∧
  Run SWITCH_back 7%positive true
    (mkKernel ∅ [] [] [] None 1%positive 0 IntOn false false []) = AssertFailed.
Proof.
  split; [reflexivity|].
  exact (interrupts_on_abort SWITCH_back
           (mkKernel ∅ [] [] [] None 1%positive 0 IntOn false false [])
           7%positive 7%positive true eq_refl).
Defined.

(** ** A pass of [aging] in which no thread is due *)

Lemma aging_loop_idle ql (l : list ptr) fuel k :
  (∀ t, t ∈ l → ∃ th, threads k !! t = Some th ∧
                      Int.wrap (totalTicks k - agingCount th) <= 1500) →
  (length l ≤ fuel)%nat →
  aging_loop fuel l ql k = Ok (tt, k).
Proof.
  revert fuel. induction l as [|t l IH]; intros fuel H Hfuel; [by destruct fuel|].
  destruct fuel as [|fuel]; [cbn in Hfuel; lia|].
  cbn [aging_loop]. destruct (H t) as (th & Hth & Hgap); [by left|].
  assert (Hb : aging_visit ql t k = Ok (false, k)).
  { rewrite (aging_visit_eq _ _ _ _ Hth). unfold due.
    destruct (Z.ltb_spec 1500 (Int.wrap (totalTicks k - agingCount th))); [lia|done]. }
  rewrite (bind_eq _ _ _ _ _ Hb).
  assert (Hn : (cells <- ret l ;; aging_loop fuel cells ql) k =
               aging_loop fuel l ql k) by done.
  rewrite Hn. apply IH.
  - intros x Hx. apply H. by right.
  - cbn in Hfuel. lia.
Qed.

Lemma aging_nil ql k : queue ql k = [] → aging ql k = Ok (tt, k).
Proof. intros H. unfold aging. run. by rewrite H. Qed.

(** X4.  When every thread in the queue is alive and none has waited for
    more than 1500 ticks, [aging] changes nothing: no field, no queue and
    no line of output.  This is so in particular for an empty queue. *)
Theorem aging_idle (ql : Queue) (k : Kernel) :
  (∀ t, t ∈ queue ql k → ∃ th, threads k !! t = Some th ∧
                               Int.wrap (totalTicks k - agingCount th) <= 1500) →
  aging ql k = Ok (tt, k).
Proof.
  intros H. unfold aging. run. by apply aging_loop_idle.
Qed.

Lemma aging_idle_witness :
  (∀ t, t ∈ queue QL2 (Scenario.ready 1500) →
     ∃ th, threads (Scenario.ready 1500) !! t = Some th ∧
           Int.wrap (totalTicks (Scenario.ready 1500) - agingCount th) <= 1500) ∧
  aging QL2 (Scenario.ready 1500) = Ok (tt, Scenario.ready 1500).
Proof.
  assert (H : ∀ t, t ∈ queue QL2 (Scenario.ready 1500) →
     ∃ th, threads (Scenario.ready 1500) !! t = Some th ∧
           Int.wrap (totalTicks (Scenario.ready 1500) - agingCount th) <= 1500).
  { intros t Hin. apply list_elem_of_singleton in Hin. subst t.
    eexists. split; [reflexivity|]. vm_compute. discriminate. }
  split; [exact H|]. exact (aging_idle QL2 (Scenario.ready 1500) H).
Defined.

(** The bound is sharp: at a gap of 1500 the thread is left alone, at 1501
    it is aged. *)
Example aging_threshold :
  aging QL3 (Scenario.ready 1500) = Ok (tt, Scenario.ready 1500) ∧
  ∃ k', aging QL3 (Scenario.ready 1501) = Ok (tt, k') ∧
        priority <$> threads k' !! 3%positive = Some 30.
Proof. split; [vm_compute; reflexivity|]. eexists. vm_compute. done. Qed.

(** ** A new scheduler *)

(** X5.  After the constructor the scheduler has nothing to run: with
    interrupts off [FindNextToRun] returns NULL and leaves the state as the
    constructor left it, whatever threads exist and whatever the queues
    held before. *)
Theorem Scheduler_idle (k : Kernel) :
  level k = IntOff →
  ∃ k0, Scheduler k = Ok (tt, k0) ∧
    L1 k0 = [] ∧ L2 k0 = [] ∧ L3 k0 = [] ∧ toBeDestroyed k0 = None ∧
    threads k0 = threads k ∧ trace k0 = trace k ∧
    FindNextToRun k0 = Ok (None, k0).
Proof.
  intros Hlv.
  set (k0 := with_toBeDestroyed None
               (with_queue QL3 [] (with_queue QL2 [] (with_queue QL1 [] k)))).
  exists k0. split; [reflexivity|].
  repeat (split; [reflexivity|]).
  assert (Hlv0 : level k0 = IntOff) by done.
  assert (Hidle : ∀ ql, aging ql k0 = Ok (tt, k0)).
  { intros ql. apply aging_nil. by destruct ql. }
  apply (FindNextToRun_run k0 k0 k0 k0); try done.
Qed.

Lemma Scheduler_idle_witness :
  level (Scenario.ready 0) = IntOff ∧
  ∃ k0, Scheduler (Scenario.ready 0) = Ok (tt, k0) ∧
    L1 k0 = [] ∧ L2 k0 = [] ∧ L3 k0 = [] ∧ toBeDestroyed k0 = None ∧
    threads k0 = threads (Scenario.ready 0) ∧
    trace k0 = trace (Scenario.ready 0) ∧
    FindNextToRun k0 = Ok (None, k0).
Proof.
  split; [reflexivity|]. exact (Scheduler_idle (Scenario.ready 0) eq_refl).
Defined.

(** ** Conservation of the ready threads *)

Lemma ready_queued k t : t ∈ readyThreads k ↔ queued k t.
Proof.
  unfold readyThreads, queued. rewrite !elem_of_app. split.
  - intros [?|[?|?]]; [by exists QL1 | by exists QL2 | by exists QL3].
  - intros [[] ?]; auto.
Qed.

Lemma Inv_ready_NoDup k : Inv k → NoDup (readyThreads k).
Proof.
  intros HI. unfold readyThreads.
  apply NoDup_app. split; [apply (inv_NoDup _ HI QL1)|]. split.
  - intros t H1 [H2|H3]%elem_of_app.
    + by pose proof (Inv_home k t QL1 QL2 HI H1 H2).
    + by pose proof (Inv_home k t QL1 QL3 HI H1 H3).
  - apply NoDup_app. split; [apply (inv_NoDup _ HI QL2)|].
    split; [|apply (inv_NoDup _ HI QL3)].
    intros t H2 H3. by pose proof (Inv_home k t QL2 QL3 HI H2 H3).
Qed.

Lemma pass_queued ql k k' t :
  Inv k → passed ql k k' → queued k' t ↔ queued k t.
Proof.
  intros HI Hp. split; [by eapply pass_down|].
  intros [q Hq]. destruct (pass_up ql k k' q t HI Hp Hq) as (q' & Hq' & _).
  by exists q'.
Qed.

Lemma pass_ready ql k k' :
  Inv k → passed ql k k' → readyThreads k' ≡ₚ readyThreads k.
Proof.
  intros HI Hp. apply NoDup_Permutation.
  - apply Inv_ready_NoDup. by eapply pass_Inv.
  - by apply Inv_ready_NoDup.
  - intros t. rewrite !ready_queued. by eapply pass_queued.
Qed.

Lemma visit_same_but_aging ticks th : same_but_aging th (visit ticks th).
Proof.
  unfold visit, aged, same_but_aging. destruct (due _ _); [|done].
  cbn. by destruct (149 <? _).
Qed.

(** X6.  A pass of [aging] on a state that satisfies the invariant neither
    loses nor duplicates a thread: the ready threads after the pass are
    the ready threads before, rearranged.  It creates and deletes no
    thread object, writes no field but [priority] and [agingCount], and
    leaves the pending destruction, the running thread, the clock, the
    interrupt level, the yield request and the round-robin switch alone. *)
Theorem aging_conserves (ql : Queue) (k : Kernel) :
  Inv k →
  ∃ k', aging ql k = Ok (tt, k') ∧
    readyThreads k' ≡ₚ readyThreads k ∧
    dom (threads k') = dom (threads k) ∧
    (∀ t th th', threads k !! t = Some th → threads k' !! t = Some th' →
       ID th' = ID th ∧ status th' = status th ∧ predict th' = predict th ∧
       lastTime th' = lastTime th ∧ space th' = space th ∧
       stackFence th' = stackFence th) ∧
    toBeDestroyed k' = toBeDestroyed k ∧ currentThread k' = currentThread k ∧
    totalTicks k' = totalTicks k ∧ level k' = level k ∧
    yieldOnReturn k' = yieldOnReturn k ∧ roundRobin k' = roundRobin k.
Proof.
  intros HI. destruct (aging_Inv ql k HI) as (k' & Hk' & Hp).
  exists k'. split; [done|]. split; [by eapply pass_ready|].
  assert (Hth : ∀ t, threads k' !! t =
            if decide (t ∈ reached k (queue ql k))
            then visit (totalTicks k) <$> threads k !! t
            else threads k !! t) by apply Hp.
  split; [|split].
  - apply set_eq. intros t. rewrite !elem_of_dom, Hth.
    case_decide; [|done]. by rewrite fmap_is_Some.
  - intros t th th' H0. rewrite Hth, H0. case_decide.
    + intros [= <-]. apply visit_same_but_aging.
    + by intros [= <-].
  - by destruct (pass_control _ _ _ _ _ Hp).
Qed.

Lemma aging_conserves_witness :
  Inv Scenario.starved ∧
  ∃ k', aging QL3 Scenario.starved = Ok (tt, k') ∧
    readyThreads k' ≡ₚ readyThreads Scenario.starved ∧
    dom (threads k') = dom (threads Scenario.starved) ∧
    (∀ t th th', threads Scenario.starved !! t = Some th →
       threads k' !! t = Some th' →
       ID th' = ID th ∧ status th' = status th ∧ predict th' = predict th ∧
       lastTime th' = lastTime th ∧ space th' = space th ∧
       stackFence th' = stackFence th) ∧
    toBeDestroyed k' = toBeDestroyed Scenario.starved ∧
    currentThread k' = currentThread Scenario.starved ∧
    totalTicks k' = totalTicks Scenario.starved ∧
    level k' = level Scenario.starved ∧
    yieldOnReturn k' = yieldOnReturn Scenario.starved ∧
    roundRobin k' = roundRobin Scenario.starved.
Proof.
  split; [exact starved_Inv|].
  exact (aging_conserves QL3 Scenario.starved starved_Inv).
Defined.

(** ** Aging only promotes *)

(** X7.  A pass of [aging] on a state that satisfies the invariant never
    lowers a priority and never demotes a thread: every thread object has
    afterwards its old priority or at most 10 more, a priority below 150
    stays below 150, every queued thread is afterwards in its old queue
    or in one that is served earlier, and no thread enters a queue that
    is served later than the one it was in. *)
Theorem aging_never_demotes (ql : Queue) (k : Kernel) :
  Inv k →
  ∃ k', aging ql k = Ok (tt, k') ∧
    (∀ t th, threads k !! t = Some th →
       ∃ th', threads k' !! t = Some th' ∧
         priority th <= priority th' <= priority th + 10 ∧
         (priority th < 150 → priority th' < 150)) ∧
    (∀ q t, t ∈ queue q k → ∃ q', t ∈ queue q' k' ∧ rank q' <= rank q) ∧
    (∀ q' t, t ∈ queue q' k' → ∃ q, t ∈ queue q k ∧ rank q' <= rank q).
Proof.
  intros HI. destruct (aging_Inv ql k HI) as (k' & Hk' & Hp).
  exists k'. split; [done|]. split; [|split].
  - intros t th Hth. rewrite (pass_threads _ _ _ _ _ Hp t), Hth.
    case_decide as Hin; [|exists th; split; [done|lia]].
    exists (visit (totalTicks k) th). split; [done|].
    unfold visit. destruct (due _ _); [|lia].
    pose proof (inv_threads _ HI _ _ Hth) as [Hok _ _ _].
    apply reached_elem in Hin.
    pose proof (band_bounds _ _ (inv_band _ HI _ _ _ Hin Hth)) as Hb.
    assert (priority th < 150) by (destruct ql; lia).
    rewrite aged_priority_eq by done. lia.
  - intros q t Hq. by eapply pass_up.
  - intros q' t Hq'.
    destruct (pass_down ql k k' t Hp) as [q Hq]; [by exists q'|].
    exists q. split; [done|].
    destruct (pass_up ql k k' q t HI Hp Hq) as (q1 & Hq1 & Hr).
    by rewrite (Inv_home k' t q1 q' (pass_Inv _ _ _ _ _ Hp) Hq1 Hq').
Qed.

Lemma aging_never_demotes_witness :
  Inv Scenario.starved ∧
  ∃ k', aging QL3 Scenario.starved = Ok (tt, k') ∧
    (∀ t th, threads Scenario.starved !! t = Some th →
       ∃ th', threads k' !! t = Some th' ∧
         priority th <= priority th' <= priority th + 10 ∧
         (priority th < 150 → priority th' < 150)) ∧
    (∀ q t, t ∈ queue q Scenario.starved →
       ∃ q', t ∈ queue q' k' ∧ rank q' <= rank q) ∧
    (∀ q' t, t ∈ queue q' k' →
       ∃ q, t ∈ queue q Scenario.starved ∧ rank q' <= rank q).
Proof.
  split; [exact starved_Inv|].
  exact (aging_never_demotes QL3 Scenario.starved starved_Inv).
Defined.

(** ** The aging marks *)

Lemma visit_mark ticks th :
  Int.ok ticks → 0 <= agingCount th <= ticks →
  0 <= agingCount (visit ticks th) <= ticks.
Proof.
  intros Hok Hm. unfold visit. destruct (due ticks th) eqn:Hd; [|done].
  apply due_iff in Hd; [|done..].
  assert (agingCount (aged th) = Int.wrap (agingCount th + 1500)) as ->.
  { unfold aged. cbn. by destruct (149 <? _). }
  rewrite wrap_ok by (unfold Int.ok, Int.MIN, Int.MAX in *; lia). lia.
Qed.

Lemma pass_marks_past ql k k' :
  Inv k → marks_past k → passed ql k k' → marks_past k'.
Proof.
  intros HI Hm Hp t th' Hq Hth'.
  pose proof (pass_down _ _ _ _ Hp Hq) as Hq0.
  rewrite (sc_totalTicks _ _ (pass_control _ _ _ _ _ Hp)).
  rewrite (pass_threads _ _ _ _ _ Hp t) in Hth'.
  case_decide; [|by eapply Hm].
  destruct (threads k !! t) as [th|] eqn:Hth; [|done].
  injection Hth' as <-. apply visit_mark; [apply HI|by eapply Hm].
Qed.

Lemma chosen_marks_past k r k' :
  marks_past k → chosen k r k' → marks_past k'.
Proof.
  intros Hm Hc. apply chosen_cases in Hc. destruct r as [t|].
  - destruct Hc as (q & th & rest & Hq & Hth & -> & _).
    intros x thx Hx Hthx. apply (taken_queued _ _ _ _ _ _ Hq) in Hx.
    assert (Ht : totalTicks (taken q t th rest k) = totalTicks k) by (by destruct q).
    rewrite Ht. revert Hthx. unfold taken. rewrite threads_with_threads.
    destruct (decide (t = x)) as [->|Hne].
    + rewrite lookup_insert_eq. intros [= <-].
      assert (agingCount (Thread_setLastTime 0
                match q with
                | QL1 => Thread_setPredict
                           (Int.wrap (predict th ÷ 2 + lastTime th ÷ 2)) th
                | _ => th
                end) = agingCount th) as -> by (by destruct q).
      by eapply Hm.
    + rewrite lookup_insert_ne by done. intros Hthx. apply (Hm x thx Hx).
      by destruct q.
  - by destruct Hc as [-> _].
Qed.

(** X8.  That the aging marks of the queued threads are ticks of the past,
    [0 <= agingCount <= totalTicks], is kept by the scheduler: on a state
    that satisfies the invariant and has it, with interrupts off, a pass
    of [aging] over any queue returns a state that has it, so does
    [FindNextToRun], and so does [ReadyToRun], which stamps the thread
    with the current tick. *)
Theorem marks_past_kept (k : Kernel) :
  Inv k → level k = IntOff → 0 <= totalTicks k → marks_past k →
  (∀ ql, ∃ k', aging ql k = Ok (tt, k') ∧ marks_past k') ∧
  (∃ r k', FindNextToRun k = Ok (r, k') ∧ marks_past k') ∧
  (∀ t th, threads k !! t = Some th →
     (band (priority th) = Some QL1 → is_Some (threads k !! currentThread k)) →
     ∃ k', ReadyToRun t k = Ok (tt, k') ∧ marks_past k').
Proof.
  intros HI Hlv Hticks Hm. split; [|split].
  - intros ql. destruct (aging_Inv ql k HI) as (k' & Hk' & Hp).
    exists k'. split; [done|]. by eapply pass_marks_past.
  - destruct (FindNextToRun_Inv k HI Hlv)
      as (k1 & k2 & k3 & r & k' & _ & Hp1 & _ & Hp2 & _ & Hp3 & Hc & Hf & _).
    exists r, k'. split; [done|].
    apply (chosen_marks_past k3 r k'); [|exact Hc].
    apply (pass_marks_past QL3 k2 k3); [by eapply pass_Inv| |exact Hp3].
    apply (pass_marks_past QL2 k1 k2); [by eapply pass_Inv| |exact Hp2].
    exact (pass_marks_past QL1 k k1 HI Hm Hp1).
  - intros t th Hth Hcur.
    destruct (ReadyToRun_total t k th Hlv Hth) as [k' Hk']; [apply HI|done|].
    exists k'. split; [done|].
    destruct (ReadyToRun_Ok _ _ _ Hk') as (_ & th0 & Hth0 & Hr).
    assert (th0 = th) as -> by congruence.
    intros x thx [q Hx] Hthx.
    rewrite (rd_totalTicks _ _ _ _ Hr).
    rewrite (rd_threads _ _ _ _ Hr) in Hthx.
    destruct (decide (t = x)) as [->|Hne].
    + rewrite lookup_insert_eq in Hthx. injection Hthx as <-. cbn. lia.
    + rewrite lookup_insert_ne in Hthx by done.
      apply (readied_elem_of _ _ _ _ q x Hr) in Hx as [[-> _]|Hx]; [done|].
      apply (Hm x thx); [by exists q|done].
Qed.

Lemma ready_1600_marks : marks_past (Scenario.ready 1600).
Proof.
  intros t th [q Hq] Hth.
  destruct q; cbn in Hq; apply list_elem_of_singleton in Hq; subst t;
    vm_compute in Hth; injection Hth as <-; cbn; lia.
Qed.

Lemma marks_past_kept_witness :
  Inv (Scenario.ready 1600) ∧ level (Scenario.ready 1600) = IntOff ∧
  0 <= totalTicks (Scenario.ready 1600) ∧ marks_past (Scenario.ready 1600) ∧
  (∀ ql, ∃ k', aging ql (Scenario.ready 1600) = Ok (tt, k') ∧ marks_past k') ∧
  (∃ r k', FindNextToRun (Scenario.ready 1600) = Ok (r, k') ∧ marks_past k') ∧
  (∀ t th, threads (Scenario.ready 1600) !! t = Some th →
     (band (priority th) = Some QL1 →
      is_Some (threads (Scenario.ready 1600) !!
                 currentThread (Scenario.ready 1600))) →
     ∃ k', ReadyToRun t (Scenario.ready 1600) = Ok (tt, k') ∧ marks_past k').
Proof.
  split; [exact ready_1600_Inv|]. split; [reflexivity|].
  split; [cbn; lia|]. split; [exact ready_1600_marks|].
  apply (marks_past_kept (Scenario.ready 1600));
    [exact ready_1600_Inv | reflexivity | cbn; lia | exact ready_1600_marks].
Defined.

(** ** [FindNextToRun] and the ready threads *)

Lemma taken_ready q t th rest k :
  queue q k = t :: rest → t :: readyThreads (taken q t th rest k) ≡ₚ readyThreads k.
Proof.
  intros Hq. unfold readyThreads. destruct q; cbn in Hq |- *; rewrite Hq.
  - done.
  - apply Permutation_middle.
  - rewrite !(assoc_L (++)). apply Permutation_middle.
Qed.

Lemma ready_nil k : readyThreads k = [] → ∀ q, queue q k = [].
Proof.
  unfold readyThreads. intros [H1 [H2 H3]%app_eq_nil]%app_eq_nil. by intros [].
Qed.

Lemma FindNextToRun_step k :
  Inv k → level k = IntOff →
  ∃ r k', FindNextToRun k = Ok (r, k') ∧ Inv k' ∧ level k' = IntOff ∧
    match r with
    | Some t => t :: readyThreads k' ≡ₚ readyThreads k
    | None => readyThreads k = [] ∧ k' = k
    end.
Proof.
  intros HI Hlv.
  destruct (FindNextToRun_Inv k HI Hlv)
    as (k1 & k2 & k3 & r & k' & Ha1 & Hp1 & Ha2 & Hp2 & Ha3 & Hp3 & Hc & Hf & HI').
  exists r, k'. split; [done|]. split; [done|].
  destruct (FindNextToRun_queued _ _ _ HI Hf) as (_ & _ & Hlv' & _).
  split; [congruence|].
  assert (Hperm : readyThreads k3 ≡ₚ readyThreads k).
  { rewrite (pass_ready QL3 k2 k3 (pass_Inv _ _ _ _ _ Hp2) Hp3),
      (pass_ready QL2 k1 k2 (pass_Inv _ _ _ _ _ Hp1) Hp2).
    exact (pass_ready QL1 k k1 HI Hp1). }
  apply chosen_cases in Hc. destruct r as [t|].
  - destruct Hc as (q & th & rest & Hq & Hth & -> & _).
    by rewrite (taken_ready _ _ _ _ _ Hq).
  - destruct Hc as [-> Hnil].
    assert (Hr : readyThreads k = []).
    { apply Permutation_nil_r. rewrite <- Hperm. unfold readyThreads.
      by rewrite (Hnil QL1 : L1 k3 = []), (Hnil QL2 : L2 k3 = []),
        (Hnil QL3 : L3 k3 = []). }
    split; [done|].
    pose proof (ready_nil _ Hr) as Hq.
    rewrite (aging_nil QL1 k (Hq QL1)) in Ha1. injection Ha1 as <-.
    rewrite (aging_nil QL2 k (Hq QL2)) in Ha2. injection Ha2 as <-.
    rewrite (aging_nil QL3 k (Hq QL3)) in Ha3. by injection Ha3 as <-.
Qed.

Lemma pass_frame ql k k' x th :
  passed ql k k' → threads k !! x = Some th →
  ∃ th', threads k' !! x = Some th' ∧ same_but_aging th th'.
Proof.
  intros Hp Hth. rewrite (pass_threads _ _ _ _ _ Hp x), Hth.
  case_decide.
  - eexists. split; [done|]. apply visit_same_but_aging.
  - by exists th.
Qed.

Lemma same_but_aging_trans a b c :
  same_but_aging a b → same_but_aging b c → same_but_aging a c.
Proof. unfold same_but_aging. intuition congruence. Qed.

Lemma pass_dom ql k k' :
  passed ql k k' → dom (threads k') = dom (threads k).
Proof.
  intros Hp. apply set_eq. intros t.
  rewrite !elem_of_dom, (pass_threads _ _ _ _ _ Hp t).
  case_decide; [|done]. by rewrite fmap_is_Some.
Qed.

(** X9.  On a state that satisfies the invariant, with interrupts off,
    [FindNextToRun] returns, and it takes exactly the thread it returns
    out of the queues: the ready threads before the call are the thread
    returned and the ready threads after the call, rearranged; when it
    returns NULL no thread was ready and the state is untouched.  It
    creates and deletes no thread object and changes no status: the
    thread returned is not marked as running.  [predict] and [lastTime]
    are written for the thread returned only; the pending destruction,
    the running thread, the clock, the interrupt level and the yield
    request are as before. *)
Theorem FindNextToRun_conserves (k : Kernel) :
  Inv k → level k = IntOff →
  ∃ r k', FindNextToRun k = Ok (r, k') ∧
    match r with
    | Some t => t :: readyThreads k' ≡ₚ readyThreads k
    | None => readyThreads k = [] ∧ k' = k
    end ∧
    dom (threads k') = dom (threads k) ∧
    (∀ x th, threads k !! x = Some th →
       ∃ th', threads k' !! x = Some th' ∧
         ID th' = ID th ∧ status th' = status th ∧ space th' = space th ∧
         stackFence th' = stackFence th ∧
         (r ≠ Some x → predict th' = predict th ∧ lastTime th' = lastTime th)) ∧
    toBeDestroyed k' = toBeDestroyed k ∧ currentThread k' = currentThread k ∧
    totalTicks k' = totalTicks k ∧ level k' = level k ∧
    yieldOnReturn k' = yieldOnReturn k.
Proof.
  intros HI Hlv.
  destruct (FindNextToRun_step k HI Hlv) as (r & k' & Hf & _ & _ & Hready).
  exists r, k'. split; [done|]. split; [done|].
  destruct (FindNextToRun_Inv k HI Hlv)
    as (k1 & k2 & k3 & r0 & k0 & _ & Hp1 & _ & Hp2 & _ & Hp3 & Hc & Hf0 & _).
  rewrite Hf in Hf0. injection Hf0 as <- <-.
  assert (Hsc : same_control k k3).
  { eapply same_control_trans; [|apply (pass_control _ _ _ _ _ Hp3)].
    eapply same_control_trans; [|apply (pass_control _ _ _ _ _ Hp2)].
    apply (pass_control _ _ _ _ _ Hp1). }
  assert (Hdom : dom (threads k3) = dom (threads k)).
  { by rewrite (pass_dom _ _ _ Hp3), (pass_dom _ _ _ Hp2), (pass_dom _ _ _ Hp1). }
  assert (Hfr : ∀ x th, threads k !! x = Some th →
            ∃ th3, threads k3 !! x = Some th3 ∧ same_but_aging th th3).
  { intros x th Hth.
    destruct (pass_frame _ _ _ x th Hp1 Hth) as (th1 & Hth1 & Hs1).
    destruct (pass_frame _ _ _ x th1 Hp2 Hth1) as (th2 & Hth2 & Hs2).
    destruct (pass_frame _ _ _ x th2 Hp3 Hth2) as (th3 & Hth3 & Hs3).
    exists th3. split; [done|].
    eapply same_but_aging_trans; [|exact Hs3].
    by eapply same_but_aging_trans. }
  destruct Hsc as [Hd Hcu Htk Hl Hy _].
  apply chosen_cases in Hc. destruct r as [t|].
  - destruct Hc as (q & tht & rest & Hq & Htht & -> & _).
    split; [|split].
    + unfold taken. rewrite threads_with_threads, dom_insert_L.
      assert (t ∈ dom (threads k3)) by (by apply elem_of_dom_2 in Htht).
      rewrite <- Hdom.
      assert (Hd3 : dom (threads (with_event (Removed (totalTicks k3) (ID tht) q)
                (with_queue q rest
                   (with_roundRobin match q with QL3 => true | _ => false end k3))))
              = dom (threads k3)) by (by destruct q).
      rewrite Hd3. set_solver.
    + intros x th Hth. destruct (Hfr x th Hth) as (th3 & Hth3 & Hs).
      destruct Hs as (? & ? & ? & ? & ? & ?).
      unfold taken. rewrite threads_with_threads.
      destruct (decide (t = x)) as [->|Hne].
      * rewrite lookup_insert_eq. eexists. split; [done|].
        assert (tht = th3) as ->.
        { assert (E : threads k3 !! x = Some tht) by done. congruence. }
        destruct q; cbn; repeat (split; [congruence|]); congruence.
      * rewrite lookup_insert_ne by done. exists th3. split.
        { rewrite <- Hth3. by destruct q. }
        repeat (split; [congruence|]). congruence.
    + destruct q; cbn; repeat split; congruence.
  - destruct Hc as [-> _]. split; [done|]. split.
    + intros x th Hth. destruct (Hfr x th Hth) as (th3 & Hth3 & Hs).
      destruct Hs as (? & ? & ? & ? & ? & ?).
      exists th3. split; [done|]. repeat (split; [congruence|]).
      congruence.
    + repeat split; congruence.
Qed.

Lemma FindNextToRun_conserves_witness :
  Inv (Scenario.ready 0) ∧ level (Scenario.ready 0) = IntOff ∧
  ∃ r k', FindNextToRun (Scenario.ready 0) = Ok (r, k') ∧
    match r with
    | Some t => t :: readyThreads k' ≡ₚ readyThreads (Scenario.ready 0)
    | None => readyThreads (Scenario.ready 0) = [] ∧ k' = Scenario.ready 0
    end ∧
    dom (threads k') = dom (threads (Scenario.ready 0)) ∧
    (∀ x th, threads (Scenario.ready 0) !! x = Some th →
       ∃ th', threads k' !! x = Some th' ∧
         ID th' = ID th ∧ status th' = status th ∧ space th' = space th ∧
         stackFence th' = stackFence th ∧
         (r ≠ Some x → predict th' = predict th ∧ lastTime th' = lastTime th)) ∧
    toBeDestroyed k' = toBeDestroyed (Scenario.ready 0) ∧
    currentThread k' = currentThread (Scenario.ready 0) ∧
    totalTicks k' = totalTicks (Scenario.ready 0) ∧
    level k' = level (Scenario.ready 0) ∧
    yieldOnReturn k' = yieldOnReturn (Scenario.ready 0).
Proof.
  split; [exact ready_Inv|]. split; [reflexivity|].
  exact (FindNextToRun_conserves (Scenario.ready 0) ready_Inv eq_refl).
Defined.

(** X10.  On a state that satisfies the invariant, with interrupts off, as
    many calls of [FindNextToRun] as there are ready threads return every
    ready thread exactly once and no NULL; the queues are empty then, and
    a further call returns NULL and changes nothing. *)
Theorem dispatches_drain (k : Kernel) :
  Inv k → level k = IntOff →
  ∃ ts k', dispatches (length (readyThreads k)) k = Ok (Some <$> ts, k') ∧
    ts ≡ₚ readyThreads k ∧ NoDup ts ∧
    L1 k' = [] ∧ L2 k' = [] ∧ L3 k' = [] ∧
    FindNextToRun k' = Ok (None, k').
Proof.
  intros HI Hlv.
  enough (H : ∃ ts k', dispatches (length (readyThreads k)) k = Ok (Some <$> ts, k') ∧
            ts ≡ₚ readyThreads k ∧ readyThreads k' = [] ∧ FindNextToRun k' = Ok (None, k')).
  { destruct H as (ts & k' & Hd & Hp & Hr & Hf). exists ts, k'.
    split; [done|]. split; [done|]. split.
    - rewrite Hp. by apply Inv_ready_NoDup.
    - pose proof (ready_nil _ Hr) as Hq.
      by rewrite (Hq QL1 : L1 k' = []), (Hq QL2 : L2 k' = []),
        (Hq QL3 : L3 k' = []). }
  remember (length (readyThreads k)) as n eqn:Hn. revert k HI Hlv Hn.
  induction n as [|n IH]; intros k HI Hlv Hn.
  - exists [], k. split; [done|].
    symmetry in Hn. apply nil_length_inv in Hn. rewrite Hn.
    split; [done|]. split; [done|].
    destruct (FindNextToRun_step k HI Hlv) as ([t|] & k' & Hf & _ & _ & Hr).
    + rewrite Hn in Hr. by apply Permutation_nil_r in Hr.
    + by destruct Hr as [_ ->].
  - destruct (FindNextToRun_step k HI Hlv) as ([t|] & k1 & Hf & HI1 & Hlv1 & Hr).
    + assert (Hn1 : n = length (readyThreads k1)).
      { apply Permutation_length in Hr. cbn in Hr. lia. }
      destruct (IH k1 HI1 Hlv1 Hn1) as (ts & k' & Hd & Hp & Hnil & Hf').
      exists (t :: ts), k'. split.
      { cbn [dispatches]. by rewrite (bind_eq _ _ _ _ _ Hf), (bind_eq _ _ _ _ _ Hd). }
      split; [by rewrite Hp|done].
    + destruct Hr as [Hr _]. by rewrite Hr in Hn.
Qed.

Lemma dispatches_drain_witness :
  Inv Scenario.shortest_first ∧ level Scenario.shortest_first = IntOff ∧
  ∃ ts k', dispatches (length (readyThreads Scenario.shortest_first))
             Scenario.shortest_first = Ok (Some <$> ts, k') ∧
    ts ≡ₚ readyThreads Scenario.shortest_first ∧ NoDup ts ∧
    L1 k' = [] ∧ L2 k' = [] ∧ L3 k' = [] ∧
    FindNextToRun k' = Ok (None, k').
Proof.
  split; [exact shortest_first_Inv|]. split; [reflexivity|].
  exact (dispatches_drain Scenario.shortest_first shortest_first_Inv eq_refl).
Defined.

(** ** From [ReadyToRun] to [FindNextToRun] *)

Lemma stamped_not_due ticks th : due ticks (stamped ticks th) = false.
Proof.
  unfold due, stamped. cbn. by rewrite Z.sub_diag.
Qed.

(** X11.  When no thread is ready, a thread of priority below 150 that is
    made ready is the thread the next [FindNextToRun] returns, and the
    queues are empty again.  The thread comes back with the priority it
    had: it is not aged on the way, since [ReadyToRun] has stamped it with
    the current tick.  Its status is READY, its [lastTime] is 0, and the
    round-robin switch of the alarm is on exactly when the priority is
    below 50. *)
Theorem ReadyToRun_FindNextToRun (k : Kernel) (t : ptr) (th : Thread) :
  Inv k → level k = IntOff → readyThreads k = [] →
  threads k !! t = Some th → priority th < 150 →
  is_Some (threads k !! currentThread k) →
  ∃ k1 k2 th2,
    ReadyToRun t k = Ok (tt, k1) ∧
    FindNextToRun k1 = Ok (Some t, k2) ∧
    L1 k2 = [] ∧ L2 k2 = [] ∧ L3 k2 = [] ∧
    threads k2 !! t = Some th2 ∧
    priority th2 = priority th ∧ status th2 = READY ∧
    agingCount th2 = totalTicks k ∧ lastTime th2 = 0 ∧
    roundRobin k2 = bool_decide (priority th < 50).
Proof.
  intros HI Hlv Hnil Hth Hp Hcur.
  pose proof (ready_nil _ Hnil) as Hq.
  destruct (ReadyToRun_total t k th Hlv Hth) as [k1 Hk1]; [apply HI|done|].
  destruct (ReadyToRun_Ok _ _ _ Hk1) as (_ & th0 & Hth0 & Hr).
  assert (th0 = th) as -> by congruence.
  assert (Hb : ∃ q, band (priority th) = Some q ∧
                    (q = QL3 ↔ priority th < 50)).
  { unfold band.
    destruct (Z.ltb_spec (priority th) 50);
      [exists QL3; split; [done|]; split; [lia|done]|].
    destruct (Z.ltb_spec (priority th) 100);
      [exists QL2; split; [done|]; split; [done|lia]|].
    destruct (Z.ltb_spec (priority th) 150); [|lia].
    exists QL1. split; [done|]. split; [done|lia]. }
  destruct Hb as (q & Hb & Hq3).
  pose proof (rd_queues _ _ _ _ Hr) as Hqs. rewrite Hb in Hqs.
  destruct Hqs as [Hother Hpl].
  assert (Hq1 : queue q k1 = [t]).
  { apply placed_perm in Hpl. rewrite (Hq q) in Hpl.
    by apply Permutation_singleton_r in Hpl. }
  assert (Hth1 : threads k1 !! t = Some (stamped (totalTicks k) th)).
  { rewrite (rd_threads _ _ _ _ Hr). apply lookup_insert_eq. }
  assert (Hidle : ∀ ql, aging ql k1 = Ok (tt, k1)).
  { intros ql. unfold aging. run. apply aging_loop_idle; [|done].
    intros x Hx. destruct (decide (ql = q)) as [->|Hne].
    - rewrite Hq1 in Hx. apply list_elem_of_singleton in Hx. subst x.
      eexists. split; [exact Hth1|].
      rewrite (rd_totalTicks _ _ _ _ Hr). cbn. by rewrite Z.sub_diag.
    - rewrite (Hother _ Hne), (Hq ql) in Hx. by apply elem_of_nil in Hx. }
  exists k1, (taken q t (stamped (totalTicks k) th) [] k1).
  eexists. split; [done|]. split.
  { apply (FindNextToRun_run k1 k1 k1 k1); try done.
    - by rewrite (rd_level _ _ _ _ Hr).
    - unfold chosen. destruct q.
      + rewrite (Hq1 : L1 k1 = [t]). by exists (stamped (totalTicks k) th).
      + rewrite (eq_trans (Hother QL1 ltac:(done)) (Hq QL1) : L1 k1 = []),
          (Hq1 : L2 k1 = [t]). by exists (stamped (totalTicks k) th).
      + rewrite (eq_trans (Hother QL1 ltac:(done)) (Hq QL1) : L1 k1 = []),
          (eq_trans (Hother QL2 ltac:(done)) (Hq QL2) : L2 k1 = []),
          (Hq1 : L3 k1 = [t]). by exists (stamped (totalTicks k) th). }
  assert (HL : ∀ q', queue q' (taken q t (stamped (totalTicks k) th) [] k1) = []).
  { intros q'. unfold taken.
    rewrite queue_with_threads, queue_with_event, queue_with_queue.
    case_decide as E; [done|].
    transitivity (queue q' k1); [by destruct q'|].
    by rewrite (Hother q'), (Hq q'). }
  split; [exact (HL QL1)|]. split; [exact (HL QL2)|]. split; [exact (HL QL3)|].
  split.
  { unfold taken. rewrite threads_with_threads. apply lookup_insert_eq. }
  split; [by destruct q|]. split; [by destruct q|].
  split; [by destruct q|]. split; [by destruct q|].
  destruct q; cbn; symmetry.
  - apply bool_decide_eq_false. intros H. by apply Hq3 in H.
  - apply bool_decide_eq_false. intros H. by apply Hq3 in H.
  - apply bool_decide_eq_true. by apply Hq3.
Qed.

Lemma ReadyToRun_FindNextToRun_witness :
  Inv Scenario.idle ∧ level Scenario.idle = IntOff ∧ readyThreads Scenario.idle = [] ∧
  threads Scenario.idle !! 4%positive =
    Some (Scenario.thread 4 70 0 0 1600 BLOCKED) ∧
  70 < 150 ∧
  is_Some (threads Scenario.idle !! currentThread Scenario.idle) ∧
  ∃ k1 k2 th2,
    ReadyToRun 4%positive Scenario.idle = Ok (tt, k1) ∧
    FindNextToRun k1 = Ok (Some 4%positive, k2) ∧
    L1 k2 = [] ∧ L2 k2 = [] ∧ L3 k2 = [] ∧
    threads k2 !! 4%positive = Some th2 ∧
    priority th2 = 70 ∧ status th2 = READY ∧
    agingCount th2 = 0 ∧ lastTime th2 = 0 ∧
    roundRobin k2 = bool_decide (70 < 50).
Proof.
  assert (HI : Inv Scenario.idle).
  { apply Inv_check_Inv. apply (bool_decide_unpack _). vm_compute. exact I. }
  assert (Hc : is_Some (threads Scenario.idle !! currentThread Scenario.idle)).
  { by eexists. }
  split; [exact HI|]. split; [reflexivity|]. split; [reflexivity|].
  split; [reflexivity|]. split; [lia|]. split; [exact Hc|].
  exact (ReadyToRun_FindNextToRun Scenario.idle 4%positive
           (Scenario.thread 4 70 0 0 1600 BLOCKED)
           HI eq_refl eq_refl eq_refl ltac:(cbn; lia) Hc).
Defined.

(** ** One call of [FindNextToRun] ages a thread once *)

Lemma pass_stays ql k k' q x :
  passed ql k k' → x ∉ queue ql k →
  threads k' !! x = threads k !! x ∧ (x ∈ queue q k' ↔ x ∈ queue q k).
Proof.
  intros Hp Hnin.
  assert (Hnr : x ∉ reached k (queue ql k)).
  { intros H. by apply Hnin, (reached_elem k). }
  split.
  - rewrite (pass_threads _ _ _ _ _ Hp x). by rewrite decide_False.
  - rewrite (pass_queues _ _ _ _ _ Hp q x). by rewrite decide_False.
Qed.

Lemma pass_change ql k k' x th :
  passed ql k k' → threads k !! x = Some th →
  ∃ th', threads k' !! x = Some th' ∧
    (th' = th ∨
     (x ∈ queue ql k ∧ due (totalTicks k) th = true ∧ th' = aged th)).
Proof.
  intros Hp Hth. rewrite (pass_threads _ _ _ _ _ Hp x), Hth.
  case_decide as Hin; [|exists th; by split; [|left]].
  exists (visit (totalTicks k) th). split; [done|].
  unfold visit. destruct (due _ _) eqn:Hdue; [|by left].
  right. split; [by eapply reached_elem|done].
Qed.

Lemma passes_change k k1 k2 k3 x th :
  Inv k → passed QL1 k k1 → passed QL2 k1 k2 → passed QL3 k2 k3 →
  threads k !! x = Some th →
  ∃ th3, threads k3 !! x = Some th3 ∧
    (th3 = th ∨
     (x ∈ readyThreads k ∧ due (totalTicks k) th = true ∧ th3 = aged th)).
Proof.
  intros HI Hp1 Hp2 Hp3 Hth.
  pose proof (pass_Inv _ _ _ _ _ Hp1) as HI1.
  pose proof (pass_Inv _ _ _ _ _ Hp2) as HI2.
  assert (Ht1 : totalTicks k1 = totalTicks k)
    by apply (sc_totalTicks _ _ (pass_control _ _ _ _ _ Hp1)).
  assert (Ht2 : totalTicks k2 = totalTicks k).
  { rewrite <- Ht1. apply (sc_totalTicks _ _ (pass_control _ _ _ _ _ Hp2)). }
  assert (D1 : ∀ q, x ∈ queue q k1 → x ∈ readyThreads k).
  { intros q Hq. apply ready_queued, (pass_down QL1 k k1 x Hp1). by exists q. }
  assert (D2 : ∀ q, x ∈ queue q k2 → x ∈ readyThreads k).
  { intros q Hq.
    destruct (pass_down QL2 k1 k2 x Hp2) as [q1 Hq1]; [by exists q|].
    by eapply D1. }
  destruct (pass_change QL1 k k1 x th Hp1 Hth) as (th1 & Hth1 & [->|(H1 & Hd1 & ->)]).
  - destruct (pass_change QL2 k1 k2 x th Hp2 Hth1)
      as (th2 & Hth2 & [->|(H2 & Hd2 & ->)]).
    + destruct (pass_change QL3 k2 k3 x th Hp3 Hth2)
        as (th3 & Hth3 & [->|(H3 & Hd3 & ->)]).
      * exists th. by split; [|left].
      * exists (aged th). split; [done|]. right.
        split; [by eapply D2|]. by rewrite <- Ht2.
    + destruct (pass_up QL2 k1 k2 QL2 x HI1 Hp2 H2) as (q2 & Hq2 & Hr2).
      assert (N3 : x ∉ queue QL3 k2).
      { intros H. pose proof (Inv_home k2 x q2 QL3 HI2 Hq2 H) as <-.
        cbn in Hr2. lia. }
      destruct (pass_stays QL3 k2 k3 QL1 x Hp3 N3) as [E3 _].
      exists (aged th). split; [by rewrite E3|]. right.
      split; [by eapply D1|]. by rewrite <- Ht1.
  - destruct (pass_up QL1 k k1 QL1 x HI Hp1 H1) as (q1 & Hq1 & Hr1).
    assert (q1 = QL1) as -> by (destruct q1; cbn in Hr1; lia || done).
    assert (N2 : x ∉ queue QL2 k1).
    { intros H. by pose proof (Inv_home k1 x QL1 QL2 HI1 Hq1 H). }
    destruct (pass_stays QL2 k1 k2 QL1 x Hp2 N2) as [E2 Hq2].
    assert (N3 : x ∉ queue QL3 k2).
    { intros H. apply Hq2 in Hq1.
      by pose proof (Inv_home k2 x QL1 QL3 HI2 Hq1 H). }
    destruct (pass_stays QL3 k2 k3 QL1 x Hp3 N3) as [E3 _].
    exists (aged th). split; [by rewrite E3, E2|]. right.
    split; [|done]. apply ready_queued. by exists QL1.
Qed.

(** X12.  However long a thread has waited, one call of [FindNextToRun]
    ages it at most once, although the call makes three passes of
    [aging]: a thread that a pass moves goes to a queue whose pass is
    over.  On a state that satisfies the invariant, with interrupts off,
    every thread has after the call the priority and the aging mark it
    had, or, when it was ready and the test of the loop body held for it,
    those that one run of the loop body gives it; so no priority rises by
    more than 10 in one call. *)
Theorem FindNextToRun_ages_once (k : Kernel) :
  Inv k → level k = IntOff →
  ∃ r k', FindNextToRun k = Ok (r, k') ∧
    ∀ x th, threads k !! x = Some th →
      ∃ th', threads k' !! x = Some th' ∧
        priority th <= priority th' <= priority th + 10 ∧
        ((priority th' = priority th ∧ agingCount th' = agingCount th) ∨
         (x ∈ readyThreads k ∧ due (totalTicks k) th = true ∧
          priority th' = priority (aged th) ∧
          agingCount th' = agingCount (aged th))).
Proof.
  intros HI Hlv.
  destruct (FindNextToRun_Inv k HI Hlv)
    as (k1 & k2 & k3 & r & k' & _ & Hp1 & _ & Hp2 & _ & Hp3 & Hc & Hf & _).
  exists r, k'. split; [done|]. intros x th Hth.
  destruct (passes_change k k1 k2 k3 x th HI Hp1 Hp2 Hp3 Hth) as (th3 & Hth3 & H3).
  assert (Hk' : ∃ th', threads k' !! x = Some th' ∧
            priority th' = priority th3 ∧ agingCount th' = agingCount th3).
  { apply chosen_cases in Hc. destruct r as [t|].
    - destruct Hc as (q & tht & rest & Hq & Htht & -> & _).
      unfold taken. rewrite threads_with_threads.
      destruct (decide (t = x)) as [->|Hne].
      + rewrite lookup_insert_eq. eexists. split; [done|].
        assert (tht = th3) as -> by congruence.
        by destruct q.
      + rewrite lookup_insert_ne by done. exists th3. split; [|done].
        rewrite <- Hth3. by destruct q.
    - destruct Hc as [-> _]. by exists th3. }
  destruct Hk' as (th' & Hth' & Hpr & Hag). exists th'. split; [done|].
  rewrite Hpr, Hag. destruct H3 as [->|(Hr & Hdue & ->)].
  - split; [lia|by left].
  - split; [|by right].
    apply ready_queued in Hr as [q Hq].
    pose proof (inv_threads _ HI _ _ Hth) as [Hok _ _ _].
    pose proof (band_bounds _ _ (inv_band _ HI _ _ _ Hq Hth)) as Hb.
    assert (priority th < 150) by (destruct q; lia).
    rewrite aged_priority_eq by done. lia.
Qed.

Lemma FindNextToRun_ages_once_witness :
  Inv Scenario.starved_both ∧ level Scenario.starved_both = IntOff ∧
  ∃ r k', FindNextToRun Scenario.starved_both = Ok (r, k') ∧
    ∀ x th, threads Scenario.starved_both !! x = Some th →
      ∃ th', threads k' !! x = Some th' ∧
        priority th <= priority th' <= priority th + 10 ∧
        ((priority th' = priority th ∧ agingCount th' = agingCount th) ∨
         (x ∈ readyThreads Scenario.starved_both ∧
          due (totalTicks Scenario.starved_both) th = true ∧
          priority th' = priority (aged th) ∧
          agingCount th' = agingCount (aged th))).
Proof.
  split; [exact starved_both_Inv|]. split; [reflexivity|].
  exact (FindNextToRun_ages_once Scenario.starved_both starved_both_Inv eq_refl).
Defined.

(** ** The yield request of [ReadyToRun] *)

Lemma band_L1 p : band p = Some QL1 ↔ 100 <= p < 150.
Proof.
  unfold band.
  destruct (Z.ltb_spec p 50); [split; [done|lia]|].
  destruct (Z.ltb_spec p 100); [split; [done|lia]|].
  destruct (Z.ltb_spec p 150); [split; [lia|done]|split; [done|lia]].
Qed.

(** X13.  [ReadyToRun] returns when interrupts are off, the thread, the
    running thread and the queued threads are alive.  The yield request is
    set afterwards exactly when it was set before, or the new thread goes
    to L1 ([100 <= priority < 150]), the priority of the running thread is
    above 100 and the score of the running thread is below the score of
    the new thread.  So a request is never cleared, a thread that goes to
    L2 or L3 never asks for one, and the running thread itself never asks
    for one. *)
Theorem ReadyToRun_yield_exact (k : Kernel) (t : ptr) (th cur : Thread) :
  level k = IntOff → threads k !! t = Some th →
  threads k !! currentThread k = Some cur →
  (∀ q x, x ∈ queue q k → is_Some (threads k !! x)) →
  ∃ k', ReadyToRun t k = Ok (tt, k') ∧
    (yieldOnReturn k' = true ↔
     yieldOnReturn k = true ∨
     (100 <= priority th < 150 ∧ 100 < priority cur ∧ score cur < score th)).
Proof.
  intros Hlv Hth Hcur Halive.
  destruct (ReadyToRun_total t k th Hlv Hth Halive) as [k' Hk']; [by eexists|].
  exists k'. split; [done|].
  destruct (ReadyToRun_Ok _ _ _ Hk') as (_ & th0 & Hth0 & Hr).
  assert (th0 = th) as -> by congruence.
  pose proof (rd_yield _ _ _ _ Hr) as Hy.
  pose proof (band_L1 (priority th)) as HL1.
  destruct (band (priority th)) as [[]|] eqn:Hb.
  - destruct Hy as (cur' & Hcur' & Hy).
    assert (Hsame : priority cur' = priority cur ∧ score cur' = score cur).
    { rewrite (rd_threads _ _ _ _ Hr) in Hcur'.
      destruct (decide (t = currentThread k)) as [->|Hne].
      - rewrite lookup_insert_eq in Hcur'. injection Hcur' as <-.
        assert (th = cur) as -> by congruence. done.
      - rewrite lookup_insert_ne in Hcur' by done.
        by assert (cur' = cur) as -> by congruence. }
    destruct Hsame as [Hp Hs].
    rewrite Hy. pose proof (preempts_iff (stamped (totalTicks k) th) cur') as Hpre.
    rewrite Hp, Hs in Hpre.
    assert (Hst : score (stamped (totalTicks k) th) = score th) by done.
    rewrite Hst in Hpre.
    destruct (preempts _ _).
    + split; [|done]. intros _. right. split; [by apply HL1|by apply Hpre].
    + split; [by left|]. intros [?|(_ & H)]; [done|].
      by apply Hpre in H.
  - rewrite Hy. split; [by left|]. intros [?|(H & _)]; [done|].
    by apply HL1 in H.
  - rewrite Hy. split; [by left|]. intros [?|(H & _)]; [done|].
    by apply HL1 in H.
  - rewrite Hy. split; [by left|]. intros [?|(H & _)]; [done|].
    by apply HL1 in H.
Qed.

Lemma ReadyToRun_yield_exact_witness :
  level (Scenario.ready 0) = IntOff ∧
  threads (Scenario.ready 0) !! 7%positive =
    Some (Scenario.thread 7 120 140 0 0 BLOCKED) ∧
  threads (Scenario.ready 0) !! currentThread (Scenario.ready 0) =
    Some (Scenario.thread 9 110 100 0 0 RUNNING) ∧
  (∀ q x, x ∈ queue q (Scenario.ready 0) →
          is_Some (threads (Scenario.ready 0) !! x)) ∧
  ∃ k', ReadyToRun 7%positive (Scenario.ready 0) = Ok (tt, k') ∧
    (yieldOnReturn k' = true ↔
     yieldOnReturn (Scenario.ready 0) = true ∨
     (100 <= 120 < 150 ∧ 100 < 110 ∧
      score (Scenario.thread 9 110 100 0 0 RUNNING) <
      score (Scenario.thread 7 120 140 0 0 BLOCKED))).
Proof.
  split; [reflexivity|]. split; [reflexivity|]. split; [reflexivity|].
  split; [exact (inv_alive _ ready_Inv)|].
  exact (ReadyToRun_yield_exact (Scenario.ready 0) 7%positive
           (Scenario.thread 7 120 140 0 0 BLOCKED)
           (Scenario.thread 9 110 100 0 0 RUNNING)
           eq_refl eq_refl eq_refl (inv_alive _ ready_Inv)).
Defined.

(** ** The output of [ReadyToRun] *)

Lemma ReadyToRun_trace t k k' th :
  ReadyToRun t k = Ok (tt, k') → threads k !! t = Some th →
  trace k' =
    trace k ++ match band (priority th) with
               | Some q => [Inserted (totalTicks k) (ID th) q]
               | None => []
               end.
Proof.
  unfold ReadyToRun. run. destruct (level k) eqn:Hlv; [|done]. run.
  intros H Hth0.
  apply bind_Ok in H as ([] & k1 & (th1 & Hth & ->)%update_Ok & H).
  assert (th1 = th) as -> by congruence.
  revert H. unfold setAgingCount. run. rewrite with_threads_insert_insert.
  cbn [priority Thread_setAgingCount Thread_setStatus ID].
  unfold band.
  destruct (priority th <? 50) eqn:E50; [|destruct (priority th <? 100) eqn:E100;
    [|destruct (priority th <? 150) eqn:E150]].
  - run. unfold L3_Append. by intros [= <-].
  - run. by intros (l & Hl & ->)%L2_Insert_Ok.
  - run. intros H. apply bind_Ok in H as ([] & k1 & (l & Hl & ->)%L1_Insert_Ok & H).
    revert H. run. intros H.
    apply bind_Ok in H as (cp & k1 & E & H).
    unfold getPriority in E. apply bind_Ok in E as (cur & k2 & [Hcur ->]%deref_Ok & E).
    injection E as <- <-. revert H. run. unfold when.
    destruct (_ && _); by intros [= <-].
  - intros [= <-]. cbn. by rewrite app_nil_r.
Qed.

(** X14.  [ReadyToRun] prints one line, [Inserted] with the current tick,
    the ID of the thread and the queue of its band, and for a priority of
    150 or more it prints nothing.  It writes the status and the aging
    mark of its thread and no other field of any thread object; the
    pending destruction, the running thread, the clock, the interrupt
    level and the round-robin switch are as before. *)
Theorem ReadyToRun_log (k : Kernel) (t : ptr) (th : Thread) :
  level k = IntOff → threads k !! t = Some th →
  (∀ q x, x ∈ queue q k → is_Some (threads k !! x)) →
  is_Some (threads k !! currentThread k) →
  ∃ k', ReadyToRun t k = Ok (tt, k') ∧
    trace k' =
      trace k ++ match band (priority th) with
                 | Some q => [Inserted (totalTicks k) (ID th) q]
                 | None => []
                 end ∧
    threads k' =
      <[t := Thread_setAgingCount (totalTicks k) (Thread_setStatus READY th)]>
        (threads k) ∧
    toBeDestroyed k' = toBeDestroyed k ∧ currentThread k' = currentThread k ∧
    totalTicks k' = totalTicks k ∧ level k' = level k ∧
    roundRobin k' = roundRobin k.
Proof.
  intros Hlv Hth Halive Hcur.
  destruct (ReadyToRun_total t k th Hlv Hth Halive) as [k' Hk']; [done|].
  exists k'. split; [done|]. split; [by eapply ReadyToRun_trace|].
  destruct (ReadyToRun_Ok _ _ _ Hk') as (_ & th0 & Hth0 & Hr).
  assert (th0 = th) as -> by congruence.
  by destruct Hr.
Qed.

Lemma ReadyToRun_log_witness :
  level (Scenario.ready 0) = IntOff ∧
  threads (Scenario.ready 0) !! 4%positive =
    Some (Scenario.thread 4 70 0 0 1600 BLOCKED) ∧
  (∀ q x, x ∈ queue q (Scenario.ready 0) →
          is_Some (threads (Scenario.ready 0) !! x)) ∧
  is_Some (threads (Scenario.ready 0) !! currentThread (Scenario.ready 0)) ∧
  ∃ k', ReadyToRun 4%positive (Scenario.ready 0) = Ok (tt, k') ∧
    trace k' = trace (Scenario.ready 0) ++ [Inserted 0 4 QL2] ∧
    threads k' =
      <[4%positive := Thread_setAgingCount 0
          (Thread_setStatus READY (Scenario.thread 4 70 0 0 1600 BLOCKED))]>
        (threads (Scenario.ready 0)) ∧
    toBeDestroyed k' = toBeDestroyed (Scenario.ready 0) ∧
    currentThread k' = currentThread (Scenario.ready 0) ∧
    totalTicks k' = totalTicks (Scenario.ready 0) ∧
    level k' = level (Scenario.ready 0) ∧
    roundRobin k' = roundRobin (Scenario.ready 0).
Proof.
  assert (Hc : is_Some (threads (Scenario.ready 0) !!
                          currentThread (Scenario.ready 0))) by (by eexists).
  split; [reflexivity|]. split; [reflexivity|].
  split; [exact (inv_alive _ ready_Inv)|]. split; [exact Hc|].
  exact (ReadyToRun_log (Scenario.ready 0) 4%positive
           (Scenario.thread 4 70 0 0 1600 BLOCKED)
           eq_refl eq_refl (inv_alive _ ready_Inv) Hc).
Defined.

(** ** The state of [Run] at the context switch *)

Lemma Inv_update k k' t th th' :
  Inv k → threads k !! t = Some th →
  Thread_ok th' → priority th' = priority th →
  threads k' = <[t := th']> (threads k) →
  totalTicks k' = totalTicks k → (∀ q, queue q k' = queue q k) →
  Inv k'.
Proof.
  intros HI Hth Hok Hp Ht Htk Hq. constructor.
  - rewrite Htk. apply HI.
  - intros x thx. rewrite Ht. destruct (decide (t = x)) as [->|Hne].
    + rewrite lookup_insert_eq. by intros [= <-].
    + rewrite lookup_insert_ne by done. apply HI.
  - intros q. rewrite Hq. apply HI.
  - intros q x. rewrite Hq, Ht. intros Hx.
    apply lookup_insert_is_Some'. right. by eapply inv_alive.
  - intros q x thx. rewrite Hq, Ht. destruct (decide (t = x)) as [->|Hne].
    + rewrite lookup_insert_eq. intros Hx [= <-]. rewrite Hp.
      by eapply inv_band.
    + rewrite lookup_insert_ne by done. apply HI.
Qed.

Lemma Run_to_SWITCH_eq nextThread finishing k old_th next_th :
  level k = IntOff →
  threads k !! currentThread k = Some old_th → stackFence old_th = true →
  threads k !! nextThread = Some next_th →
  (finishing = true → toBeDestroyed k = None) →
  ∃ k1, Run_to_SWITCH nextThread finishing k = Ok (currentThread k, k1) ∧
    threads k1 = <[nextThread := Thread_setStatus RUNNING next_th]> (threads k) ∧
    (∀ q, queue q k1 = queue q k) ∧
    totalTicks k1 = totalTicks k ∧ level k1 = level k ∧
    yieldOnReturn k1 = yieldOnReturn k ∧ roundRobin k1 = roundRobin k ∧
    trace k1 =
      trace k ++
      match space old_th with
      | Some a => [SaveUserState (currentThread k); SpaceSaveState a]
      | None => []
      end ++
      [Selected (totalTicks k) (ID next_th);
       Replaced (totalTicks k) (ID old_th) (lastTime old_th)].
Proof.
  intros Hlv Hold Hfence Hnext Hfin. unfold Run_to_SWITCH. run. rewrite Hlv. run.
  assert (∃ k0, when finishing
            (d <- gets toBeDestroyed ;;
             ASSERT (match d with None => true | Some _ => false end) ;;;
             modify (with_toBeDestroyed (Some (currentThread k)))) k = Ok (tt, k0) ∧
            k0 = with_toBeDestroyed
                   (if finishing then Some (currentThread k) else toBeDestroyed k) k)
    as (k0 & Hk0 & Hk0').
  { destruct finishing; cbn [when].
    - exists (with_toBeDestroyed (Some (currentThread k)) k).
      split; [|done]. apply mark_Ok. split; [by apply Hfin|done].
    - exists k. split; [done|]. by destruct k. }
  rewrite (bind_eq _ _ _ _ _ Hk0).
  assert (Ht0 : threads k0 = threads k) by (by subst k0).
  assert (Hc0 : currentThread k0 = currentThread k) by (by subst k0).
  assert (Htr0 : trace k0 = trace k) by (by subst k0).
  assert (Hq0 : ∀ q, queue q k0 = queue q k) by (subst k0; by intros []).
  assert (Hrest : totalTicks k0 = totalTicks k ∧ level k0 = level k ∧
            yieldOnReturn k0 = yieldOnReturn k ∧ roundRobin k0 = roundRobin k)
    by (by subst k0).
  destruct Hrest as (Htk0 & Hl0 & Hy0 & Hr0).
  clear Hk0 Hk0'. rewrite <- Ht0 in Hold, Hnext.
  run. unfold setStatus.
  assert (Hfin' : ∀ k2 : Kernel,
            threads k2 = threads k0 → totalTicks k2 = totalTicks k0 →
            ∃ k1,
              (modify (with_currentThread nextThread) ;;;
               update nextThread (Thread_setStatus RUNNING) ;;;
               ticks <- gets totalTicks ;;
               nid <- getID nextThread ;;
               printf (Selected ticks nid) ;;;
               oid <- getID (currentThread k) ;;
               ran <- getLastTime (currentThread k) ;;
               printf (Replaced ticks oid ran) ;;;
               ret (currentThread k)) k2 = Ok (currentThread k, k1) ∧
              k1 = with_event (Replaced (totalTicks k) (ID old_th) (lastTime old_th))
                     (with_event (Selected (totalTicks k) (ID next_th))
                        (with_threads (insert nextThread
                                         (Thread_setStatus RUNNING next_th))
                           (with_currentThread nextThread k2)))).
  { intros k2 Ht2 Htk2. run.
    set (k3 := with_currentThread _ _).
    assert (Hn3 : threads k3 !! nextThread = Some next_th).
    { unfold k3. cbn. by rewrite Ht2. }
    run.
    assert (Htk3 : totalTicks (with_threads
                     (insert nextThread (Thread_setStatus RUNNING next_th)) k3) =
                   totalTicks k).
    { unfold k3. cbn. by rewrite Htk2. }
    rewrite Htk3. cbn [ID Thread_setStatus].
    destruct (decide (nextThread = currentThread k)) as [E|Hne].
    - rewrite <- E. run. assert (old_th = next_th) as ->.
      { rewrite <- E in Hold. congruence. }
      by eexists.
    - assert (Ho3 : threads (with_event (Selected (totalTicks k) (ID next_th))
                     (with_threads (insert nextThread (Thread_setStatus RUNNING next_th)) k3))
                     !! currentThread k = Some old_th).
      { cbn. rewrite lookup_insert_ne by done. by rewrite Ht2. }
      run. by eexists. }
  destruct (space old_th) as [a|] eqn:Hsp; run;
    (erewrite bind_eq by (eapply CheckOverflow_eq; [cbn; eassumption|done])).
  - edestruct Hfin' as (k1 & -> & ->); [| |eexists; split; [reflexivity|]].
    + done.
    + done.
    + cbn. rewrite Ht0, Htr0, <- !(assoc_L (++)). cbn.
      split; [done|]. split; [intros q; rewrite <- Hq0; by destruct q|].
      repeat split; congruence.
  - edestruct Hfin' as (k1 & -> & ->); [| |eexists; split; [reflexivity|]].
    + done.
    + done.
    + cbn. rewrite Ht0, Htr0, <- !(assoc_L (++)). cbn.
      split; [done|]. split; [intros q; rewrite <- Hq0; by destruct q|].
      repeat split; congruence.
Qed.

(** X15.  Up to the context switch [Run] leaves the ready queues alone:
    it does not put the outgoing thread back into a queue and does not
    look for the incoming thread in one.  It writes one field of one
    thread object, the status of the incoming thread, which becomes
    RUNNING; the status of the outgoing thread is the business of the
    caller.  It prints the two lines [Selected] and [Replaced] with the
    current tick, the latter with the [lastTime] of the outgoing thread,
    after the two save calls that are made when the outgoing thread has
    an address space.  The invariant of the queues is kept. *)
Theorem Run_to_SWITCH_frame (nextThread : ptr) (finishing : bool) (k : Kernel)
    (old_th next_th : Thread) :
  Inv k → level k = IntOff →
  threads k !! currentThread k = Some old_th → stackFence old_th = true →
  threads k !! nextThread = Some next_th →
  (finishing = true → toBeDestroyed k = None) →
  ∃ k1, Run_to_SWITCH nextThread finishing k = Ok (currentThread k, k1) ∧
    threads k1 = <[nextThread := Thread_setStatus RUNNING next_th]> (threads k) ∧
    L1 k1 = L1 k ∧ L2 k1 = L2 k ∧ L3 k1 = L3 k ∧
    totalTicks k1 = totalTicks k ∧ level k1 = level k ∧
    yieldOnReturn k1 = yieldOnReturn k ∧ roundRobin k1 = roundRobin k ∧
    trace k1 =
      trace k ++
      match space old_th with
      | Some a => [SaveUserState (currentThread k); SpaceSaveState a]
      | None => []
      end ++
      [Selected (totalTicks k) (ID next_th);
       Replaced (totalTicks k) (ID old_th) (lastTime old_th)] ∧
    Inv k1.
Proof.
  intros HI Hlv Hold Hfence Hnext Hfin.
  destruct (Run_to_SWITCH_eq nextThread finishing k old_th next_th
              Hlv Hold Hfence Hnext Hfin)
    as (k1 & Hk1 & Ht & Hq & Htk & Hl & Hy & Hr & Htr).
  exists k1. split; [done|]. split; [done|].
  split; [exact (Hq QL1)|]. split; [exact (Hq QL2)|]. split; [exact (Hq QL3)|].
  repeat (split; [done|]).
  apply (Inv_update k k1 nextThread next_th (Thread_setStatus RUNNING next_th));
    try done.
  by destruct (inv_threads _ HI _ _ Hnext).
Qed.

Lemma Run_to_SWITCH_frame_witness :
  Inv (Scenario.ready 0) ∧ level (Scenario.ready 0) = IntOff ∧
  threads (Scenario.ready 0) !! currentThread (Scenario.ready 0) =
    Some (Scenario.thread 9 110 100 0 0 RUNNING) ∧
  stackFence (Scenario.thread 9 110 100 0 0 RUNNING) = true ∧
  threads (Scenario.ready 0) !! 5%positive =
    Some (Scenario.thread 5 120 60 0 0 BLOCKED) ∧
  (true = true → toBeDestroyed (Scenario.ready 0) = None) ∧
  ∃ k1, Run_to_SWITCH 5%positive true (Scenario.ready 0) =
          Ok (currentThread (Scenario.ready 0), k1) ∧
    threads k1 =
      <[5%positive := Thread_setStatus RUNNING
                        (Scenario.thread 5 120 60 0 0 BLOCKED)]>
        (threads (Scenario.ready 0)) ∧
    L1 k1 = L1 (Scenario.ready 0) ∧ L2 k1 = L2 (Scenario.ready 0) ∧
    L3 k1 = L3 (Scenario.ready 0) ∧
    totalTicks k1 = totalTicks (Scenario.ready 0) ∧
    level k1 = level (Scenario.ready 0) ∧
    yieldOnReturn k1 = yieldOnReturn (Scenario.ready 0) ∧
    roundRobin k1 = roundRobin (Scenario.ready 0) ∧
    trace k1 = trace (Scenario.ready 0) ++ [] ++
               [Selected 0 5; Replaced 0 9 0] ∧
    Inv k1.
Proof.
  split; [exact ready_Inv|]. split; [reflexivity|]. split; [reflexivity|].
  split; [reflexivity|]. split; [reflexivity|]. split; [reflexivity|].
  exact (Run_to_SWITCH_frame 5%positive true (Scenario.ready 0)
           (Scenario.thread 9 110 100 0 0 RUNNING)
           (Scenario.thread 5 120 60 0 0 BLOCKED)
           ready_Inv eq_refl eq_refl eq_refl eq_refl (λ _, eq_refl)).
Defined.

(** ** The deferred destruction *)

Lemma Inv_delete k k' d :
  Inv k → ¬ queued k d →
  threads k' = delete d (threads k) →
  totalTicks k' = totalTicks k → (∀ q, queue q k' = queue q k) →
  Inv k'.
Proof.
  intros HI Hnq Ht Htk Hq. constructor.
  - rewrite Htk. apply HI.
  - intros x thx. rewrite Ht. intros [_ H]%lookup_delete_Some.
    by eapply inv_threads.
  - intros q. rewrite Hq. apply HI.
  - intros q x. rewrite Hq, Ht. intros Hx.
    destruct (inv_alive _ HI _ _ Hx) as [thx Hthx]. exists thx.
    apply lookup_delete_Some. split; [|done]. intros ->. apply Hnq. by exists q.
  - intros q x thx. rewrite Hq, Ht. intros Hx [_ H]%lookup_delete_Some.
    by eapply inv_band.
Qed.

(** X16.  When the thread in the slot [toBeDestroyed], if there is one, is
    alive, [CheckToBeDestroyed] returns: it deletes that thread and no
    other and empties the slot.  It is idempotent, a second call changes
    nothing, and with an empty slot the first call changes nothing.  It
    never touches the ready queues and prints nothing.  So the invariant
    of the queues is kept when the pending thread is in no queue, and
    broken when it is in one: the queue then holds the pointer of a
    deleted thread. *)
Theorem CheckToBeDestroyed_once (k : Kernel) :
  (∀ d, toBeDestroyed k = Some d → is_Some (threads k !! d)) →
  ∃ k', CheckToBeDestroyed k = Ok (tt, k') ∧
    CheckToBeDestroyed k' = Ok (tt, k') ∧
    (toBeDestroyed k = None → k' = k) ∧
    toBeDestroyed k' = None ∧
    (∀ x, threads k' !! x =
            if decide (toBeDestroyed k = Some x) then None else threads k !! x) ∧
    L1 k' = L1 k ∧ L2 k' = L2 k ∧ L3 k' = L3 k ∧ trace k' = trace k ∧
    currentThread k' = currentThread k ∧ totalTicks k' = totalTicks k ∧
    (Inv k → (∀ d, toBeDestroyed k = Some d → ¬ queued k d) → Inv k') ∧
    (∀ d, toBeDestroyed k = Some d → queued k d → ¬ Inv k').
Proof.
  intros Halive. unfold CheckToBeDestroyed at 1. run.
  destruct (toBeDestroyed k) as [d|] eqn:Hd.
  - destruct (Halive d eq_refl) as [th Hth].
    assert (Hdel : delete_thread d k = Ok (tt, with_threads (delete d) k)).
    { unfold delete_thread. by run. }
    rewrite (bind_eq _ _ _ _ _ Hdel).
    eexists. split; [reflexivity|].
    split; [reflexivity|]. split; [done|]. split; [done|]. split.
    { intros x. cbn. case_decide as E.
      - injection E as ->. apply lookup_delete_eq.
      - apply lookup_delete_ne. congruence. }
    repeat (split; [done|]). split.
    + intros HI Hnq. apply (Inv_delete k _ d HI); try done.
      by apply Hnq.
    + intros ? [= <-] [q Hq] HI'.
      destruct (inv_alive _ HI' q d) as [? H]; [by destruct q|].
      cbn in H. by rewrite lookup_delete_eq in H.
  - exists k. split; [done|]. split.
    { unfold CheckToBeDestroyed. run. by rewrite Hd. }
    split; [done|]. split; [done|]. split.
    { intros x. by rewrite decide_False. }
    repeat (split; [done|]). done.
Qed.

Lemma CheckToBeDestroyed_once_witness :
  (∀ d, toBeDestroyed (with_toBeDestroyed (Some 4%positive) (Scenario.ready 0))
        = Some d →
        is_Some (threads (with_toBeDestroyed (Some 4%positive)
                            (Scenario.ready 0)) !! d)) ∧
  ∃ k', CheckToBeDestroyed
          (with_toBeDestroyed (Some 4%positive) (Scenario.ready 0)) =
          Ok (tt, k') ∧
    CheckToBeDestroyed k' = Ok (tt, k') ∧
    threads k' !! 4%positive = None ∧ toBeDestroyed k' = None.
Proof.
  assert (H : ∀ d, toBeDestroyed (with_toBeDestroyed (Some 4%positive)
                                    (Scenario.ready 0)) = Some d →
        is_Some (threads (with_toBeDestroyed (Some 4%positive)
                            (Scenario.ready 0)) !! d)).
  { intros d [= <-]. by eexists. }
  split; [exact H|].
  destruct (CheckToBeDestroyed_once
              (with_toBeDestroyed (Some 4%positive) (Scenario.ready 0)) H)
    as (k' & H1 & H2 & _ & H4 & H5 & _).
  exists k'. split; [exact H1|]. split; [exact H2|]. split; [|exact H4].
  rewrite H5. reflexivity.
Defined.

(** X17.  When control comes back from the context switch with interrupts
    off, the resuming thread alive and the pending thread, if there is
    one, alive and another thread, the rest of [Run] returns.  It deletes
    the pending thread, then makes the two restore calls when the
    resuming thread has an address space, and nothing else: the queues,
    the clock and [currentThread] are as the switch left them, and the
    thread object of the resuming thread is untouched.  With interrupts
    on it stops at its ASSERT. *)
Theorem Run_from_SWITCH_frame (oldThread : ptr) (k : Kernel) (old_th : Thread) :
  threads k !! oldThread = Some old_th →
  (∀ d, toBeDestroyed k = Some d → d ≠ oldThread ∧ is_Some (threads k !! d)) →
  (level k = IntOn → Run_from_SWITCH oldThread k = AssertFailed) ∧
  (level k = IntOff →
   ∃ k', Run_from_SWITCH oldThread k = Ok (tt, k') ∧
     trace k' =
       trace k ++
       match space old_th with
       | Some a => [RestoreUserState oldThread; SpaceRestoreState a]
       | None => []
       end ∧
     toBeDestroyed k' = None ∧
     (∀ x, threads k' !! x =
             if decide (toBeDestroyed k = Some x) then None else threads k !! x) ∧
     threads k' !! oldThread = Some old_th ∧
     L1 k' = L1 k ∧ L2 k' = L2 k ∧ L3 k' = L3 k ∧
     currentThread k' = currentThread k ∧ totalTicks k' = totalTicks k ∧
     level k' = level k).
Proof.
  intros Hold Hd. split.
  - intros Hlv. unfold Run_from_SWITCH. run. by rewrite Hlv.
  - intros Hlv. unfold Run_from_SWITCH. run. rewrite Hlv. run.
    assert (Hc : ∃ k1, CheckToBeDestroyed k = Ok (tt, k1) ∧
              k1 = with_toBeDestroyed None
                     (with_threads
                        (match toBeDestroyed k with
                         | Some d => delete d
                         | None => λ h, h
                         end) k)).
    { unfold CheckToBeDestroyed. run.
      destruct (toBeDestroyed k) as [d|] eqn:E.
      - destruct (Hd d eq_refl) as [_ [th Hth]].
        assert (Hdel : delete_thread d k = Ok (tt, with_threads (delete d) k)).
        { unfold delete_thread. by run. }
        rewrite (bind_eq _ _ _ _ _ Hdel). by eexists.
      - exists k. split; [done|]. destruct k; cbn in *. by subst. }
    destruct Hc as (k1 & Hk1 & Hk1').
    rewrite (bind_eq _ _ _ _ _ Hk1).
    assert (Hthreads : ∀ x, threads k1 !! x =
              if decide (toBeDestroyed k = Some x) then None else threads k !! x).
    { intros x. subst k1. cbn. destruct (toBeDestroyed k) as [d|].
      - case_decide as E.
        + injection E as ->. apply lookup_delete_eq.
        + apply lookup_delete_ne. congruence.
      - by rewrite decide_False. }
    assert (Hold1 : threads k1 !! oldThread = Some old_th).
    { rewrite Hthreads. case_decide as E; [|done]. by destruct (Hd _ E). }
    run.
    assert (Hrest : toBeDestroyed k1 = None ∧ L1 k1 = L1 k ∧ L2 k1 = L2 k ∧
              L3 k1 = L3 k ∧ currentThread k1 = currentThread k ∧
              totalTicks k1 = totalTicks k ∧ level k1 = level k ∧
              trace k1 = trace k) by (by subst k1).
    destruct Hrest as (? & ? & ? & ? & ? & ? & ? & Htr).
    destruct (space old_th) as [a|]; run; eexists; (split; [reflexivity|]); cbn.
    + rewrite Htr, <- (assoc_L (++)). repeat split; (done || congruence).
    + rewrite Htr, app_nil_r. repeat split; (done || congruence).
Qed.

Lemma Run_from_SWITCH_frame_witness :
  threads (with_toBeDestroyed (Some 4%positive) (Scenario.ready 0)) !! 9%positive
    = Some (Scenario.thread 9 110 100 0 0 RUNNING) ∧
  (∀ d, toBeDestroyed (with_toBeDestroyed (Some 4%positive) (Scenario.ready 0))
        = Some d →
        d ≠ 9%positive ∧
        is_Some (threads (with_toBeDestroyed (Some 4%positive)
                            (Scenario.ready 0)) !! d)) ∧
  ∃ k', Run_from_SWITCH 9%positive
          (with_toBeDestroyed (Some 4%positive) (Scenario.ready 0)) =
          Ok (tt, k') ∧
    toBeDestroyed k' = None ∧ threads k' !! 4%positive = None.
Proof.
  assert (H : ∀ d, toBeDestroyed (with_toBeDestroyed (Some 4%positive)
                                    (Scenario.ready 0)) = Some d →
        d ≠ 9%positive ∧
        is_Some (threads (with_toBeDestroyed (Some 4%positive)
                            (Scenario.ready 0)) !! d)).
  { intros d [= <-]. split; [done|by eexists]. }
  split; [reflexivity|]. split; [exact H|].
  destruct (Run_from_SWITCH_frame 9%positive
              (with_toBeDestroyed (Some 4%positive) (Scenario.ready 0))
              (Scenario.thread 9 110 100 0 0 RUNNING) eq_refl H)
    as [_ Hoff].
  destruct (Hoff eq_refl) as (k' & H1 & _ & H3 & H4 & _).
  exists k'. split; [exact H1|]. split; [exact H3|]. rewrite H4. reflexivity.
Defined.

(** ** The output of [aging] *)

Lemma requeue_trace list now ticks id p k k' :
  requeue list now ticks id p k = Ok (tt, k') →
  trace k' =
    trace k ++
    if 99 <? p then
      if Queue_eqb list QL1 then []
      else [Removed ticks id QL2; Inserted ticks id QL1]
    else if 49 <? p then
      if Queue_eqb list QL2 then []
      else [Removed ticks id QL3; Inserted ticks id QL2]
    else [].
Proof.
  unfold requeue. run. unfold list_Remove.
  destruct (99 <? p); [|destruct (49 <? p)].
  - destruct (Queue_eqb list QL1); unfold when; cbn [negb]; run; cbn [ret];
      intros (l & Hl & ->)%L1_Insert_Ok; destruct list; cbn;
      by rewrite ?app_nil_r, <- ?(assoc_L (++)).
  - destruct (Queue_eqb list QL2); unfold when; cbn [negb]; run; cbn [ret];
      intros (l & Hl & ->)%L2_Insert_Ok; destruct list; cbn;
      by rewrite ?app_nil_r, <- ?(assoc_L (++)).
  - unfold L3_Append. intros [= <-]. destruct list; cbn; by rewrite app_nil_r.
Qed.

(** X18.  The lines that one visit of [aging] prints, for a resident of
    the queue [ql] that is due, on a state that satisfies the invariant.
    The first is [PriorityChanged], with the new priority and, as the old
    one, the new priority less 10; this is the priority the thread had
    exactly when that was 139 or less, and for a thread at 140 to 149 the
    line tells of a step from 139 to 149.  When the thread moves to
    another queue, [Removed] from [ql] and [Inserted] into the new queue
    follow; the queue named in [Removed] is a constant of the code, and
    under the invariant it is the queue the thread was in.  When the
    thread stays in its band nothing more is printed, although it is
    taken out of the queue and put in again. *)
Theorem aging_body_log (ql : Queue) (now : ptr) (k : Kernel) (th : Thread) :
  Inv k → now ∈ queue ql k → threads k !! now = Some th →
  due (totalTicks k) th = true →
  ∃ k', aging_body ql now k = Ok (tt, k') ∧
    trace k' =
      trace k ++
      PriorityChanged (totalTicks k) (ID th)
        (priority (aged th) - 10) (priority (aged th)) ::
      (if decide (dest (priority (aged th)) = ql) then []
       else [Removed (totalTicks k) (ID th) ql;
             Inserted (totalTicks k) (ID th) (dest (priority (aged th)))]) ∧
    (priority (aged th) - 10 = priority th ↔ priority th <= 139) ∧
    (140 <= priority th → priority (aged th) - 10 = 139 ∧ priority (aged th) = 149).
Proof.
  intros HI Hnow Hth Hdue.
  destruct (aging_body_step ql now k th HI Hnow Hth) as (k' & Hk' & _).
  exists k'. split; [done|].
  pose proof (inv_threads _ HI _ _ Hth) as [Hok _ _ _].
  pose proof (band_bounds _ _ (inv_band _ HI _ _ _ Hnow Hth)) as Hb.
  assert (Hlt : priority th < 150) by (destruct ql; lia).
  pose proof (aged_priority_eq th Hok Hlt) as Hp.
  split; [|split; [|intros H; split]]; try lia.
  rewrite (aging_body_eq _ _ _ _ Hth), Hdue in Hk'.
  apply requeue_trace in Hk'. rewrite Hk'. cbn [trace with_event with_threads].
  rewrite <- (assoc_L (++)). f_equal. cbn. f_equal.
  - f_equal. apply wrap_ok. unfold Int.ok, Int.MIN, Int.MAX in *. lia.
  - unfold dest. rewrite Hp.
    destruct (Z.ltb_spec 99 (Z.min (priority th + 10) 149));
      [|destruct (Z.ltb_spec 49 (Z.min (priority th + 10) 149))];
      destruct ql; cbn; try done; lia.
Qed.

Lemma aging_body_log_witness :
  Inv Scenario.starved ∧ 3%positive ∈ queue QL3 Scenario.starved ∧
  threads Scenario.starved !! 3%positive =
    Some (Scenario.thread 3 20 0 0 0 READY) ∧
  due (totalTicks Scenario.starved) (Scenario.thread 3 20 0 0 0 READY) = true ∧
  ∃ k', aging_body QL3 3%positive Scenario.starved = Ok (tt, k') ∧
    trace k' = trace Scenario.starved ++ [PriorityChanged 1600 3 20 30].
Proof.
  assert (Hin : 3%positive ∈ queue QL3 Scenario.starved) by (by left).
  split; [exact starved_Inv|]. split; [exact Hin|]. split; [reflexivity|].
  split; [reflexivity|].
  destruct (aging_body_log QL3 3%positive Scenario.starved
              (Scenario.thread 3 20 0 0 0 READY) starved_Inv Hin eq_refl eq_refl)
    as (k' & H1 & H2 & _).
  exists k'. split; [exact H1|]. exact H2.
Defined.

(** ** What a pass of [aging] comes to *)



(** ** The order of arrival *)


